(** * On-screen display message stacks

    A shallow embedding of [Source/Core/VideoCommon/OnScreenDisplay.cpp]
    (namespace [OSD]) and the properties of its message lifecycle, its
    duplicate/replacement policy and its layout pass.

    Conventions of the embedding.
    - Fixed-width integers are [Z] with the wrap-around written out
      ([u64_wrap], [s64_of_u64], [int_of_s64]).
    - [float] quantities are rationals ([Q]).  The two quotients handed to
      ImGui as a colour component and as the alpha of a window, and the
      conversions of integers that feed them, are rounded to binary32 as the
      code does ([to_float]: round to nearest, ties to even).  The other
      [float] quantities (the sums and products of the layout, the
      obscured-pixel counts and the icon size once converted) are kept
      exact.  The test of the loop that compares a remaining time converted
      to [float] with [MESSAGE_DROP_TIME] is made on the integer: rounding
      is monotone and keeps the constant, so the test comes out the same.
    - The global objects ([s_defaultMessageStack], [messageStacks], the two
      obscured-pixel counters) form the record [State]; every mutating
      function returns the new state.
    - The services the file consumes (ImGui, the texture factory, the
      configuration store, the clock) are the record [Env], an input of each
      draw pass; the draw commands a pass issues are returned as a trace. *)

From Stdlib Require Import ZArith QArith Qround Qabs Qpower.
From Stdlib Require Import List String Bool Lia Lqa.
Import ListNotations.
Local Open Scope Z_scope.
Local Open Scope bool_scope.

(** ** Machine integers *)

Definition u32_max : Z := 2 ^ 32 - 1.

(** Arithmetic on [u64] is modulo 2^64. *)
Definition u64_wrap (z : Z) : Z := z mod 2 ^ 64.

(** Conversion [u64 -> s64] (two's complement). *)
Definition s64_of_u64 (z : Z) : Z := if z <? 2 ^ 63 then z else z - 2 ^ 64.

(** Narrowing conversion [s64 -> int] (32 bits, two's complement). *)
Definition int_of_s64 (z : Z) : Z :=
  let r := z mod 2 ^ 32 in if r <? 2 ^ 31 then r else r - 2 ^ 32.

(** ** Floats, [std::min], [std::max], [std::clamp] *)

Definition fltb (a b : Q) : bool := negb (Qle_bool b a).

Definition std_min (a b : Q) : Q := if fltb b a then b else a.
Definition std_max (a b : Q) : Q := if fltb a b then b else a.
Definition std_clamp (v lo hi : Q) : Q :=
  if fltb v lo then lo else if fltb hi v then hi else v.

(** *** Rounding to [float] (binary32) *)

(** The integer nearest to [q]; of two equally near ones, the even one. *)
Definition round_half_even (q : Q) : Z :=
  let f := Qfloor q in
  match ((q - inject_Z f) ?= (1 # 2))%Q with
  | Lt => f
  | Gt => f + 1
  | Eq => if Z.even f then f else f + 1
  end.

(** For [0 < q], the exponent [k] with [2 ^ k <= q < 2 ^ (k + 1)]. *)
Definition Qlog2 (q : Q) : Z :=
  let k := Z.log2 (Qnum q) - Z.log2 (Zpos (Qden q)) in
  if Qle_bool (2 ^ k) q then k else k - 1.

(** The step of the binary32 grid around [q]: 24 significant bits, and
    [2 ^ -149] in the subnormal range. *)
Definition float_exponent (q : Q) : Z := Z.max (Qlog2 q - 23) (-149).

(** The float nearest to [q], for [0 < q] (ties to even).  Values beyond the
    largest finite float do not occur: the operands are 32-bit integers
    divided by a number that is at least 1. *)
Definition float_round (q : Q) : Q :=
  let e := float_exponent q in
  Qred (inject_Z (round_half_even (q / 2 ^ e)) * 2 ^ e).

(** A conversion to [float], or the rounding of the result of an operation
    on floats. *)
Definition to_float (q : Q) : Q :=
  match Qnum q with
  | Z0 => 0
  | Zpos _ => float_round q
  | Zneg _ => - float_round (- q)
  end.

Record ImVec2 : Type := mkImVec2 { vx : Q; vy : Q }.
Record ImVec4 : Type := mkImVec4 { cx : Q; cy : Q; cz : Q; cw : Q }.

(** ** Constants *)

Definition LEFT_MARGIN : Q := 10.
Definition TOP_MARGIN : Q := 10.
Definition WINDOW_PADDING : Q := 4.
Definition MESSAGE_FADE_TIME : Q := 1000.
Definition MESSAGE_DROP_TIME : Q := 5000.

(** ** Messages *)

(** Modelled from the spec: the enumeration [OSD::MessageType] is declared
    in [OnScreenDisplay.h], not in this file: "caller-supplied key", with
    the sentinel [Typeless].  A tag is kept as its integer value (the keys of
    the multimap are compared with [<]), and the enumerator [Typeless] is a
    parameter of the functions that mention it. *)
Abbreviation MessageType := Z (only parsing).

(** Modelled from the spec: [struct Icon] is declared in the header; a "raw
    bitmap (width, height, RGBA bytes)".  The fields are the ones
    [DrawMessage] reads. *)
Record Icon : Type := mkIcon {
  icon_width : Z;
  icon_height : Z;
  rgba_data : list Z
}.

(** What [CreateTexture] followed by [Load] leaves on the GPU side. *)
Record AbstractTexture : Type := mkTexture {
  tex_width : Z;
  tex_height : Z;
  tex_data : list Z
}.

(** Modelled from the spec: [Common::Timer] is not part of this file; the
    timer service "starts on message creation, reports elapsed
    milliseconds".  A timer is the clock reading (ms) taken by [Start]. *)
Definition Timer : Type := Z.

Record Message : Type := mkMessage {
  text : string;
  timer : Timer;
  duration : Z;             (* u32 *)
  ever_drawn : bool;
  should_discard : bool;
  color : Z;                (* u32 *)
  icon : option Icon;
  texture : option AbstractTexture;
  scale : Q
}.

(** The constructor [Message(text, duration, color, icon, scale)], run when
    the clock reads [now_ms]. *)
Definition Message_new (text_ : string) (duration_ color_ : Z)
    (icon_ : option Icon) (scale_ : Q) (now_ms : Z) : Message :=
  {| text := text_; timer := now_ms; duration := duration_;
     ever_drawn := false; should_discard := false; color := color_;
     icon := icon_; texture := None; scale := scale_ |}.

Definition ElapsedMs (now_ms : Z) (t : Timer) : Z := u64_wrap (now_ms - t).

(** [s64 TimeRemaining() const { return duration - timer.ElapsedMs(); }]:
    the subtraction is done on [u64], the result converted to [s64]. *)
Definition TimeRemaining (now_ms : Z) (msg : Message) : Z :=
  s64_of_u64 (u64_wrap (duration msg - ElapsedMs now_ms (timer msg))).

Definition set_should_discard (b : bool) (m : Message) : Message :=
  {| text := text m; timer := timer m; duration := duration m;
     ever_drawn := ever_drawn m; should_discard := b; color := color m;
     icon := icon m; texture := texture m; scale := scale m |}.

Definition set_drawn (ic : option Icon) (tx : option AbstractTexture)
    (m : Message) : Message :=
  {| text := text m; timer := timer m; duration := duration m;
     ever_drawn := true; should_discard := should_discard m; color := color m;
     icon := ic; texture := tx; scale := scale m |}.

(** ** Stacks *)

(** Modelled from the spec: [MessageStackDirection] is declared in the
    header; "one of {Downward, Upward, Leftward, Rightward}". *)
Inductive MessageStackDirection : Type :=
  | Downward | Upward | Rightward | Leftward.

Definition dir_eqb (a b : MessageStackDirection) : bool :=
  match a, b with
  | Downward, Downward | Upward, Upward
  | Rightward, Rightward | Leftward, Leftward => true
  | _, _ => false
  end.

(** [std::multimap<MessageType, Message>]: the entries in iteration order,
    that is by key, and by insertion among equal keys. *)
Definition multimap : Type := list (MessageType * Message).

Record OSDMessageStack : Type := mkStack {
  initialPosOffset : ImVec2;
  dir : MessageStackDirection;
  centered : bool;
  reversed : bool;
  name : string;
  messages : multimap
}.

Definition OSDMessageStack_new (x_offset y_offset : Q)
    (d : MessageStackDirection) (centered_ reversed_ : bool) (name_ : string)
    : OSDMessageStack :=
  {| initialPosOffset := mkImVec2 x_offset y_offset; dir := d;
     centered := centered_; reversed := reversed_; name := name_;
     messages := [] |}.

Definition OSDMessageStack_default : OSDMessageStack :=
  OSDMessageStack_new 0 0 Downward false false "".

Definition set_messages (l : multimap) (st : OSDMessageStack)
    : OSDMessageStack :=
  {| initialPosOffset := initialPosOffset st; dir := dir st;
     centered := centered st; reversed := reversed st; name := name st;
     messages := l |}.

Definition IsVertical (st : OSDMessageStack) : bool :=
  dir_eqb (dir st) Downward || dir_eqb (dir st) Upward.

Definition HasMessage (st : OSDMessageStack) (message : string)
    (type : MessageType) : bool :=
  existsb (fun e => (type =? fst e) && String.eqb message (text (snd e)))
          (messages st).

(** [messages.emplace(type, msg)]: the new entry goes after every entry whose
    key is not greater than [type]. *)
Fixpoint emplace (type : MessageType) (msg : Message) (l : multimap)
    : multimap :=
  match l with
  | [] => [(type, msg)]
  | e :: tl =>
      if type <? fst e then (type, msg) :: e :: tl
      else e :: emplace type msg tl
  end.

(** The loop over [messages.equal_range(type)] setting [should_discard]. *)
Definition discard_range (type : MessageType) (l : multimap) : multimap :=
  map (fun e => if fst e =? type
                then (fst e, set_should_discard true (snd e)) else e) l.

(** ** The registry: [std::map<std::string, OSDMessageStack>] *)

Definition stack_map : Type := list (string * OSDMessageStack).

Fixpoint map_contains (k : string) (m : stack_map) : bool :=
  match m with
  | [] => false
  | (k', _) :: tl => String.eqb k k' || map_contains k tl
  end.

Fixpoint map_find (k : string) (m : stack_map) : option OSDMessageStack :=
  match m with
  | [] => None
  | (k', v) :: tl => if String.eqb k k' then Some v else map_find k tl
  end.

(** [emplace] on a [std::map]: nothing happens when the key is present. *)
Fixpoint map_emplace (k : string) (v : OSDMessageStack) (m : stack_map)
    : stack_map :=
  match m with
  | [] => [(k, v)]
  | (k', v') :: tl =>
      match String.compare k k' with
      | Lt => (k, v) :: (k', v') :: tl
      | Eq => (k', v') :: tl
      | Gt => (k', v') :: map_emplace k v tl
      end
  end.

(** A write through the reference [messageStacks[k]]. *)
Fixpoint map_store (k : string) (v : OSDMessageStack) (m : stack_map)
    : stack_map :=
  match m with
  | [] => []
  | (k', v') :: tl =>
      if String.eqb k k' then (k', v) :: tl else (k', v') :: map_store k v tl
  end.

Record State : Type := mkState {
  s_obscured_pixels_left : Z;
  s_obscured_pixels_top : Z;
  s_defaultMessageStack : OSDMessageStack;
  messageStacks : stack_map
}.

Definition initial_state : State :=
  {| s_obscured_pixels_left := 0; s_obscured_pixels_top := 0;
     s_defaultMessageStack := OSDMessageStack_default;
     messageStacks := [] |}.

(** The pointer [OSDMessageStack* stack] of [AddTypedMessage]. *)
Inductive StackRef : Type :=
  | DefaultStack
  | NamedStack (k : string).

Definition resolve (message_stack : string) (s : State) : StackRef :=
  if map_contains message_stack (messageStacks s)
  then NamedStack message_stack else DefaultStack.

Definition deref (r : StackRef) (s : State) : OSDMessageStack :=
  match r with
  | DefaultStack => s_defaultMessageStack s
  | NamedStack k =>
      match map_find k (messageStacks s) with
      | Some st => st
      | None => OSDMessageStack_default
      end
  end.

Definition assign (r : StackRef) (st : OSDMessageStack) (s : State) : State :=
  match r with
  | DefaultStack =>
      {| s_obscured_pixels_left := s_obscured_pixels_left s;
         s_obscured_pixels_top := s_obscured_pixels_top s;
         s_defaultMessageStack := st;
         messageStacks := messageStacks s |}
  | NamedStack k =>
      {| s_obscured_pixels_left := s_obscured_pixels_left s;
         s_obscured_pixels_top := s_obscured_pixels_top s;
         s_defaultMessageStack := s_defaultMessageStack s;
         messageStacks := map_store k st (messageStacks s) |}
  end.

(** ** Mutation API *)

Section MutationAPI.

(** The enumerator [MessageType::Typeless]. *)
Variable Typeless : MessageType.

(** [ms] and [argb] are [u32] values; [now_ms] is the clock reading at which
    the new message's timer is started. *)
Definition AddTypedMessage (type : MessageType) (message : string)
    (ms argb : Z) (icon_ : option Icon) (message_stack : string)
    (prevent_duplicate : bool) (scale_ : Q) (now_ms : Z) (s : State)
    : State :=
  let stack := resolve message_stack s in
  if prevent_duplicate && HasMessage (deref stack s) message type then s
  else
    let old := messages (deref stack s) in
    let marked :=
      if negb (type =? Typeless) then discard_range type old else old in
    assign stack
      (set_messages
         (emplace type (Message_new message ms argb icon_ scale_ now_ms)
                  marked)
         (deref stack s))
      s.

Definition AddMessage (message : string) (ms argb : Z)
    (icon_ : option Icon) (message_stack : string)
    (prevent_duplicate : bool) (scale_ : Q) (now_ms : Z) (s : State)
    : State :=
  AddTypedMessage Typeless message ms argb icon_ message_stack
                  prevent_duplicate scale_ now_ms s.

End MutationAPI.

Definition AddMessageStack (x_offset y_offset : Q)
    (d : MessageStackDirection) (centered_ reversed_ : bool) (name_ : string)
    (s : State) : State :=
  {| s_obscured_pixels_left := s_obscured_pixels_left s;
     s_obscured_pixels_top := s_obscured_pixels_top s;
     s_defaultMessageStack := s_defaultMessageStack s;
     messageStacks :=
       map_emplace name_
         (OSDMessageStack_new x_offset y_offset d centered_ reversed_ name_)
         (messageStacks s) |}.

Definition ClearMessages (s : State) : State :=
  {| s_obscured_pixels_left := s_obscured_pixels_left s;
     s_obscured_pixels_top := s_obscured_pixels_top s;
     s_defaultMessageStack := set_messages [] (s_defaultMessageStack s);
     messageStacks :=
       map (fun kv => (fst kv, set_messages [] (snd kv))) (messageStacks s) |}.

Definition SetObscuredPixelsLeft (width : Z) (s : State) : State :=
  {| s_obscured_pixels_left := width;
     s_obscured_pixels_top := s_obscured_pixels_top s;
     s_defaultMessageStack := s_defaultMessageStack s;
     messageStacks := messageStacks s |}.

Definition SetObscuredPixelsTop (height : Z) (s : State) : State :=
  {| s_obscured_pixels_left := s_obscured_pixels_left s;
     s_obscured_pixels_top := height;
     s_defaultMessageStack := s_defaultMessageStack s;
     messageStacks := messageStacks s |}.

(** ** The services a draw pass consumes *)

(** [ImGui::GetIO()]. *)
Record IO : Type := mkIO {
  DisplayFramebufferScale : ImVec2;
  DisplaySize : ImVec2
}.

(** What the backend answers while one window is built: the result of
    [ImGui::Begin], whether [CreateTexture] returns a texture, and
    [ImGui::GetWindowSize()]. *)
Record Reply : Type := mkReply {
  begin_visible : bool;
  create_texture_ok : bool;
  window_size : ImVec2
}.

(** The environment of one draw pass.  The backend is asked per window, and
    a window is named after the stack and the draw index
    ([osd_<stack>_<index>]).  The clock readings of one pass are taken to be
    equal. *)
Record Env : Type := mkEnv {
  draw_messages : bool;          (* Config::Get(Config::MAIN_OSD_MESSAGES) *)
  io : IO;
  backend : string -> Z -> Reply;
  now : Z                        (* the clock, in ms *)
}.

(** ** The draw commands of one window *)

Record WindowBody : Type := mkBody {
  b_image : option (Q * Q);      (* ImGui::Image size *)
  b_font_scale : Q;              (* SetWindowFontScale *)
  b_color : ImVec4;              (* TextColored *)
  b_text : string;
  b_measured : ImVec2;           (* GetWindowSize *)
  b_pos : ImVec2                 (* SetWindowPos *)
}.

Record DrawRecord : Type := mkDraw {
  d_stack : string;
  d_index : Z;
  d_alpha : Q;                   (* PushStyleVar(ImGuiStyleVar_Alpha, _) *)
  d_body : option WindowBody;    (* [None] when Begin returned false *)
  d_size : ImVec2                (* the value DrawMessage returns *)
}.

(** Each component is [static_cast<float>((argb >> n) & 0xFF) / 255.0f]: a
    conversion and a division on [float]. *)
Definition ARGBToImVec4 (argb : Z) : ImVec4 :=
  {| cx := to_float
             (to_float (inject_Z (Z.land (Z.shiftr argb 16) 255)) / 255);
     cy := to_float
             (to_float (inject_Z (Z.land (Z.shiftr argb 8) 255)) / 255);
     cz := to_float
             (to_float (inject_Z (Z.land (Z.shiftr argb 0) 255)) / 255);
     cw := to_float
             (to_float (inject_Z (Z.land (Z.shiftr argb 24) 255)) / 255) |}.

(** [DrawMessage(index, msg, position, time_left, message_Stack)]; the
    parameter [time_left] has type [int]. *)
Definition DrawMessage (e : Env) (index : Z) (msg : Message)
    (position : ImVec2) (time_left : Z) (message_Stack : OSDMessageStack)
    : Message * ImVec2 * DrawRecord :=
  let reply := backend e (name message_Stack) index in
  let fade_time :=
    std_max (std_min MESSAGE_FADE_TIME (to_float (inject_Z (duration msg))))
            1 in
  let alpha :=
    std_clamp (to_float (to_float (inject_Z time_left) / fade_time)) 0 1 in
  let style_alpha := if ever_drawn msg then alpha else 1%Q in
  if begin_visible reply then
    let '(icon', texture') :=
      match icon msg with
      | Some ic =>
          match texture msg with
          | Some t => (Some ic, Some t)
          | None =>
              if create_texture_ok reply
              then (Some ic,
                    Some (mkTexture (icon_width ic) (icon_height ic)
                                    (rgba_data ic)))
              else (None, None)
          end
      | None => (None, texture msg)
      end in
    let image :=
      match icon', texture' with
      | Some ic, Some _ =>
          Some (inject_Z (icon_width ic), inject_Z (icon_height ic))
      | _, _ => None
      end in
    let window_width :=
      (vx (window_size reply)
       + WINDOW_PADDING * vx (DisplayFramebufferScale (io e)))%Q in
    let window_height :=
      (vy (window_size reply)
       + WINDOW_PADDING * vy (DisplayFramebufferScale (io e)))%Q in
    let x_pos :=
      if centered message_Stack && IsVertical message_Stack
      then (vx (DisplaySize (io e)) / 2 - window_width / 2)%Q
      else vx position in
    let y_pos :=
      if centered message_Stack && negb (IsVertical message_Stack)
      then (vy (DisplaySize (io e)) / 2 - window_height / 2)%Q
      else vy position in
    let x_pos :=
      if dir_eqb (dir message_Stack) Leftward then (x_pos - window_width)%Q
      else x_pos in
    let y_pos :=
      if dir_eqb (dir message_Stack) Upward then (y_pos - window_height)%Q
      else y_pos in
    (set_drawn icon' texture' msg,
     mkImVec2 window_width window_height,
     {| d_stack := name message_Stack; d_index := index;
        d_alpha := style_alpha;
        d_body := Some {| b_image := image; b_font_scale := scale msg;
                          b_color := ARGBToImVec4 (color msg);
                          b_text := text msg;
                          b_measured := window_size reply;
                          b_pos := mkImVec2 x_pos y_pos |};
        d_size := mkImVec2 window_width window_height |})
  else
    (set_drawn (icon msg) (texture msg) msg,
     mkImVec2 0 0,
     {| d_stack := name message_Stack; d_index := index;
        d_alpha := style_alpha; d_body := None; d_size := mkImVec2 0 0 |}).

(** ** The draw pass of one stack *)

Record Cursor : Type := mkCursor {
  current_x : Q;
  current_y : Q;
  index : Z
}.

(** What happened to an entry when the loop reached it; for an entry that
    stays, [after] is the message as the loop leaves it. *)
Inductive Outcome : Type :=
  | Discarded                                   (* erased: should_discard *)
  | Expired (time_left : Z)                     (* erased: out of time *)
  | Survived (time_left : Z) (drawn : option DrawRecord) (after : Message).

Record Visit : Type := mkVisit {
  v_type : MessageType;
  v_msg : Message;               (* the message as the loop finds it *)
  v_outcome : Outcome
}.

(** The test of the second [if] of the loop body. *)
Definition expired (time_left : Z) (msg : Message) : bool :=
  (time_left <=? 0)
  && (ever_drawn msg || Qle_bool MESSAGE_DROP_TIME (inject_Z (- time_left))).

Definition advance (st : OSDMessageStack) (messageSize : ImVec2) (c : Cursor)
    : Cursor :=
  if IsVertical st then
    {| current_x := current_x c;
       current_y := (current_y c
                     + (if dir_eqb (dir st) Upward then - vy messageSize
                        else vy messageSize))%Q;
       index := index c + 1 |}
  else
    {| current_x := (current_x c
                     + (if dir_eqb (dir st) Leftward then - vx messageSize
                        else vx messageSize))%Q;
       current_y := current_y c;
       index := index c + 1 |}.

(** The loop body, over the entries in the order the iterator meets them.
    The result lists the entries that are not erased (in the same order),
    the trace of visits and the final cursor. *)
Fixpoint draw_loop (e : Env) (st : OSDMessageStack) (entries : multimap)
    (c : Cursor) : multimap * list Visit * Cursor :=
  match entries with
  | [] => ([], [], c)
  | (ty, msg) :: rest =>
      if should_discard msg then
        let '(kept, tr, c') := draw_loop e st rest c in
        (kept, mkVisit ty msg Discarded :: tr, c')
      else
        let time_left := TimeRemaining (now e) msg in
        if expired time_left msg then
          let '(kept, tr, c') := draw_loop e st rest c in
          (kept, mkVisit ty msg (Expired time_left) :: tr, c')
        else if draw_messages e then
          let '(msg', messageSize, rec) :=
            DrawMessage e (index c) msg
                        (mkImVec2 (current_x c) (current_y c))
                        (int_of_s64 time_left) st in
          let '(kept, tr, c') :=
            draw_loop e st rest (advance st messageSize c) in
          ((ty, msg') :: kept,
           mkVisit ty msg (Survived time_left (Some rec) msg') :: tr, c')
        else
          let '(kept, tr, c') := draw_loop e st rest c in
          ((ty, msg) :: kept,
           mkVisit ty msg (Survived time_left None msg) :: tr, c')
  end.

Definition start_cursor (e : Env) (s : State) (st : OSDMessageStack)
    : Cursor :=
  let x0 := (LEFT_MARGIN * vx (DisplayFramebufferScale (io e))
             + inject_Z (s_obscured_pixels_left s)
             + vx (initialPosOffset st))%Q in
  let y0 := (TOP_MARGIN * vy (DisplayFramebufferScale (io e))
             + inject_Z (s_obscured_pixels_top s)
             + vy (initialPosOffset st))%Q in
  {| current_x := if dir_eqb (dir st) Leftward
                  then (vx (DisplaySize (io e)) - x0)%Q else x0;
     current_y := if dir_eqb (dir st) Upward
                  then (vy (DisplaySize (io e)) - y0)%Q else y0;
     index := 0 |}.

(** [DrawMessages(OSDMessageStack&)].  With [reversed] the iterator runs
    from [end()] to [begin()]: the entries are met last to first, and the
    survivors keep their places in the container. *)
Definition DrawMessages_stack (e : Env) (s : State) (st : OSDMessageStack)
    : OSDMessageStack * list Visit :=
  let c0 := start_cursor e s st in
  if reversed st then
    let '(kept, tr, _) := draw_loop e st (rev (messages st)) c0 in
    (set_messages (rev kept) st, tr)
  else
    let '(kept, tr, _) := draw_loop e st (messages st) c0 in
    (set_messages kept st, tr).

(** The loop of [DrawMessages()] over [messageStacks], in map order. *)
Fixpoint draw_named (e : Env) (s : State) (m : stack_map)
    : stack_map * list (string * list Visit) :=
  match m with
  | [] => ([], [])
  | (k, st) :: tl =>
      let '(st', tr) := DrawMessages_stack e s st in
      let '(tl', trs) := draw_named e s tl in
      ((k, st') :: tl', (k, tr) :: trs)
  end.

(** [DrawMessages()]: the default stack first, then every named stack.  The
    trace keeps one list of visits per stack, in processing order. *)
Definition DrawMessages (e : Env) (s : State)
    : State * list (string * list Visit) :=
  let '(d', tr) := DrawMessages_stack e s (s_defaultMessageStack s) in
  let '(m', trs) := draw_named e s (messageStacks s) in
  ({| s_obscured_pixels_left := s_obscured_pixels_left s;
      s_obscured_pixels_top := s_obscured_pixels_top s;
      s_defaultMessageStack := d';
      messageStacks := m' |},
   (name (s_defaultMessageStack s), tr) :: trs).

(** ** Reachable states *)

Inductive Op : Type :=
  | OpAddTypedMessage (type : MessageType) (message : string) (ms argb : Z)
      (icon_ : option Icon) (message_stack : string)
      (prevent_duplicate : bool) (scale_ : Q) (now_ms : Z)
  | OpAddMessage (message : string) (ms argb : Z) (icon_ : option Icon)
      (message_stack : string) (prevent_duplicate : bool) (scale_ : Q)
      (now_ms : Z)
  | OpAddMessageStack (x_offset y_offset : Q) (d : MessageStackDirection)
      (centered_ reversed_ : bool) (name_ : string)
  | OpDrawMessages (e : Env)
  | OpClearMessages
  | OpSetObscuredPixelsLeft (width : Z)
  | OpSetObscuredPixelsTop (height : Z).

Definition run_op (Typeless : MessageType) (o : Op) (s : State) : State :=
  match o with
  | OpAddTypedMessage type message ms argb icon_ stack pd scale_ now_ms =>
      AddTypedMessage Typeless type message ms argb icon_ stack pd scale_
                      now_ms s
  | OpAddMessage message ms argb icon_ stack pd scale_ now_ms =>
      AddMessage Typeless message ms argb icon_ stack pd scale_ now_ms s
  | OpAddMessageStack x y d c r n => AddMessageStack x y d c r n s
  | OpDrawMessages e => fst (DrawMessages e s)
  | OpClearMessages => ClearMessages s
  | OpSetObscuredPixelsLeft w => SetObscuredPixelsLeft w s
  | OpSetObscuredPixelsTop h => SetObscuredPixelsTop h s
  end.

Inductive reachable (Typeless : MessageType) : State -> Prop :=
  | reachable_initial : reachable Typeless initial_state
  | reachable_step (o : Op) (s : State) :
      reachable Typeless s -> reachable Typeless (run_op Typeless o s).

(** ** Vocabulary of the properties *)

(** An entry is erased by the visit. *)
Definition removed (o : Outcome) : bool :=
  match o with
  | Survived _ _ _ => false
  | _ => true
  end.

(** The entry a visit leaves in the container, if any. *)
Definition left_behind (v : Visit) : option (MessageType * Message) :=
  match v_outcome v with
  | Survived _ _ after => Some (v_type v, after)
  | _ => None
  end.

Fixpoint survivors (tr : list Visit) : multimap :=
  match tr with
  | [] => []
  | v :: rest =>
      match left_behind v with
      | Some en => en :: survivors rest
      | None => survivors rest
      end
  end.

(** The draw commands of a trace, in the order they are issued. *)
Fixpoint draws (tr : list Visit) : list DrawRecord :=
  match tr with
  | [] => []
  | v :: rest =>
      match v_outcome v with
      | Survived _ (Some d) _ => d :: draws rest
      | _ => draws rest
      end
  end.


(** The order in which the iterator of a pass meets the entries. *)
Definition visit_order (st : OSDMessageStack) (l : multimap) : multimap :=
  if reversed st then rev l else l.

Definition entry_of (v : Visit) : MessageType * Message :=
  (v_type v, v_msg v).

(** In the trace, the visit of [a] comes before the visit of [b]. *)
Definition visited_before (a b : MessageType * Message) (tr : list Visit)
    : Prop :=
  exists t1 t2 t3, map entry_of tr = t1 ++ a :: t2 ++ b :: t3.

(** The container is ordered by key. *)
Definition key_sorted (l : multimap) : Prop :=
  forall l1 a l2 b l3, l = l1 ++ a :: l2 ++ b :: l3 -> fst a <= fst b.

(** Every container of the state is ordered by key. *)
Definition wf_state (s : State) : Prop :=
  key_sorted (messages (s_defaultMessageStack s))
  /\ Forall (fun kv => key_sorted (messages (snd kv))) (messageStacks s).


(** The entry stays in the container: it is neither marked nor expired. *)
Definition stays (e : Env) (en : MessageType * Message) : bool :=
  negb (should_discard (snd en))
  && negb (expired (TimeRemaining (now e) (snd en)) (snd en)).



(** The fade factor as the specification words it:
    [clamp(timeLeft / clamp(duration, 1, fadeConstant), 0, 1)]. *)
Definition spec_alpha (duration_ timeLeft : Z) : Q :=
  std_clamp (inject_Z timeLeft
             / std_clamp (inject_Z duration_) 1 MESSAGE_FADE_TIME) 0 1.

(** The entry [en] is the entry [en0] after the pass went over it. *)
Definition drawn_from (e : Env) (en0 en : MessageType * Message) : Prop :=
  fst en = fst en0
  /\ if draw_messages e
     then exists ic tx, snd en = set_drawn ic tx (snd en0)
     else snd en = snd en0.

(** The outcome of the loop body for a message met with cursor [c]. *)
Definition visit_outcome (e : Env) (st : OSDMessageStack) (c : Cursor)
    (msg : Message) : Outcome :=
  if should_discard msg then Discarded
  else
    let time_left := TimeRemaining (now e) msg in
    if expired time_left msg then Expired time_left
    else if draw_messages e then
      let '(msg', _, rec) :=
        DrawMessage e (index c) msg (mkImVec2 (current_x c) (current_y c))
                    (int_of_s64 time_left) st in
      Survived time_left (Some rec) msg'
    else Survived time_left None msg.

(** ** Vocabulary of the further properties *)

(** The layout policy of a stack: everything but its messages. *)
Definition settings (st : OSDMessageStack)
    : ImVec2 * MessageStackDirection * bool * bool * string :=
  (initialPosOffset st, dir st, centered st, reversed st, name st).

(** The keys of the [std::map] increase strictly along its iteration
    order. *)
Definition keys_increasing (m : stack_map) : Prop :=
  forall m1 a m2 b m3,
    m = m1 ++ a :: m2 ++ b :: m3 -> String.compare (fst a) (fst b) = Lt.

(** The default stack has the empty name, every registered stack is stored
    under its own name, and the names are in increasing order. *)
Definition registry_ok (s : State) : Prop :=
  name (s_defaultMessageStack s) = ""%string
  /\ Forall (fun kv => name (snd kv) = fst kv) (messageStacks s)
  /\ keys_increasing (messageStacks s).

(** The windows a frame opens, by name: the name of the stack and the
    number of the draw ([osd_<stack>_<index>]). *)
Definition frame_windows (trace : list (string * list Visit))
    : list (string * Z) :=
  flat_map (fun p => map (fun d => (d_stack d, d_index d)) (draws (snd p)))
           trace.




(** The texture of a message, when it has one, was made from its icon. *)
Definition texture_ok (m : Message) : Prop :=
  match texture m with
  | None => True
  | Some t =>
      exists ic, icon m = Some ic
                 /\ t = mkTexture (icon_width ic) (icon_height ic)
                                  (rgba_data ic)
  end.

(** A sequence of calls, run first to last. *)
Definition run_ops (Typeless : MessageType) (ops : list Op) (s : State)
    : State :=
  fold_left (fun st o => run_op Typeless o st) ops s.

(** Two states have the same margins. *)
Definition same_margins (s1 s2 : State) : Prop :=
  s_obscured_pixels_left s1 = s_obscured_pixels_left s2
  /\ s_obscured_pixels_top s1 = s_obscured_pixels_top s2.

(** Two states register the same names and hold the same stack at [r]. *)
Definition agree_on (r : StackRef) (s1 s2 : State) : Prop :=
  map fst (messageStacks s1) = map fst (messageStacks s2)
  /\ deref r s1 = deref r s2.
(** ** Concrete scenarios used below *)

Module Scenario.

(** Any value can play the enumerator [Typeless]; here it follows two typed
    tags. *)
Definition Typeless : MessageType := 2.

Definition io0 : IO := mkIO (mkImVec2 1 1) (mkImVec2 640 480).

(** A frame at clock [t]; every window gets the same answer. *)
Definition frame (draw visible : bool) (t : Z) : Env :=
  mkEnv draw io0 (fun _ _ => mkReply visible true (mkImVec2 100 20)) t.

(** Two messages of type 0 in the default stack: the second call marks
    the first one. *)
Definition replaced : State :=
  AddTypedMessage Typeless 0 "new" 10000 0 None "" false 1 50
    (AddTypedMessage Typeless 0 "old" 10000 0 None "" false 1 0
       initial_state).

Definition old_marked : Message :=
  set_should_discard true (Message_new "old" 10000 0 None 1 0).

Definition visit_old : Visit := mkVisit 0 old_marked Discarded.

(** A message shown for 0 ms, created at clock 0. *)
Definition flash : State :=
  AddMessage Typeless "flash" 0 0 None "" false 1 0 initial_state.

Definition visit_flash_late : Visit :=
  mkVisit Typeless (Message_new "flash" 0 0 None 1 0) (Expired (-5000)).

(** A message with a duration beyond [INT_MAX] ms, drawn once at clock 0. *)
Definition long_lived : State :=
  fst (DrawMessages (frame true true 0)
         (AddMessage Typeless "long" 3000000000 0 None "" false 1 0
            initial_state)).

(** "hi" under tag 0 (then replaced by "bye", hence marked) and "hi" under
    tag 1, in the default stack. *)
Definition echoes : State :=
  AddTypedMessage Typeless 0 "bye" 10000 0 None "" false 1 20
    (AddTypedMessage Typeless 1 "hi" 10000 0 None "" false 1 10
       (AddTypedMessage Typeless 0 "hi" 10000 0 None "" false 1 0
          initial_state)).

(** A stack drawn newest-first, holding a message of tag 1. *)
Definition newest_first : State :=
  AddTypedMessage Typeless 1 "A" 10000 0 None "rev" false 1 0
    (AddMessageStack 0 0 Downward false true "rev" initial_state).

(** A stack registered under the empty name. *)
Definition unnamed_registered : State :=
  AddMessageStack 0 0 Upward false false "" initial_state.

(** Two untyped messages in the default stack. *)
Definition two_lines : State :=
  AddMessage Typeless "second" 4000 0 None "" false 1 5
    (AddMessage Typeless "first" 4000 0 None "" false 1 0 initial_state).

(** The scenario of the specification: "Saved", 2000 ms, opaque green. *)
Definition saved : State :=
  AddMessage Typeless "Saved" 2000 4278255360 None "" false 1 0
    initial_state.

End Scenario.

(** ** Concrete cases of the further properties *)

Module Cases.

(** Two registered stacks; "top" holds one message. *)
Definition two_stacks : State :=
  AddMessage Scenario.Typeless "hello" 3000 0 None "top" false 1 0
    (AddMessageStack 5 7 Upward true false "top"
       (AddMessageStack 0 0 Leftward false false "side" initial_state)).

(** A stack registered under the empty name, with one message in it and one
    in the default stack. *)
Definition homonyms : State :=
  AddMessage Scenario.Typeless "default" 3000 0 None "other" false 1 0
    (AddMessage Scenario.Typeless "registered" 3000 0 None "" false 1 0
       Scenario.unnamed_registered).



(** "Saved" (2000 ms) drawn at clock 0, and its visit at clock 1700. *)
Definition saved_drawn : State :=
  fst (DrawMessages (Scenario.frame true true 0) Scenario.saved).

Definition fading_visit : Visit :=
  hd (mkVisit 0 (Message_new "" 0 0 None 1 0) Discarded)
     (snd (DrawMessages_stack (Scenario.frame true true 1700) saved_drawn
             (s_defaultMessageStack saved_drawn))).

(** Messages of tag 3, of tag 0 and without a tag ([Scenario.Typeless] is
    2), added in this order to the default stack. *)
Definition mixed_tags : State :=
  AddMessage Scenario.Typeless "b1" 4000 0 None "" false 1 2
    (AddTypedMessage Scenario.Typeless 0 "a" 4000 0 None "" false 1 1
       (AddTypedMessage Scenario.Typeless 3 "c" 4000 0 None "" false 1 0
          initial_state)).

(** A message with a 2 x 1 icon, drawn once by a backend that makes the
    texture. *)
Definition with_icon : State :=
  fst (DrawMessages (Scenario.frame true true 0)
         (AddMessage Scenario.Typeless "pic" 3000 0
            (Some (mkIcon 2 1 [255; 16711680])) "" false 1 0
            initial_state)).

End Cases.

(** * Properties *)

(** ** Integer conversions *)

Lemma TimeRemaining_exact (now_ms : Z) (m : Message) :
  0 <= duration m <= u32_max ->
  0 <= now_ms - timer m < 2 ^ 63 ->
  TimeRemaining now_ms m = duration m - (now_ms - timer m).
Proof.
  unfold TimeRemaining, ElapsedMs, u64_wrap, s64_of_u64, u32_max.
  intros Hd He.
  rewrite (Z.mod_small (now_ms - timer m)) by lia.
  destruct (Z.ltb_spec ((duration m - (now_ms - timer m)) mod 2 ^ 64) (2 ^ 63));
    Z.div_mod_to_equations; lia.
Qed.

Lemma int_of_s64_small (z : Z) :
  - 2 ^ 31 <= z < 2 ^ 31 -> int_of_s64 z = z.
Proof.
  unfold int_of_s64. intros H.
  destruct (Z.ltb_spec (z mod 2 ^ 32) (2 ^ 31));
    Z.div_mod_to_equations; lia.
Qed.

(** The conversion of an [s64] to [float] is monotone and 5000 is a float:
    the comparison with [MESSAGE_DROP_TIME] is the comparison of integers. *)
Lemma drop_time_reached (z : Z) :
  Qle_bool MESSAGE_DROP_TIME (inject_Z z) = true <-> 5000 <= z.
Proof.
  rewrite Qle_bool_iff. change MESSAGE_DROP_TIME with (inject_Z 5000).
  rewrite <- Zle_Qle. reflexivity.
Qed.

Lemma expired_iff (time_left : Z) (m : Message) :
  expired time_left m = true <->
  time_left <= 0 /\ (ever_drawn m = true \/ 5000 <= - time_left).
Proof.
  unfold expired.
  rewrite andb_true_iff, orb_true_iff, Z.leb_le, drop_time_reached.
  reflexivity.
Qed.

(** ** The loop of a pass *)

Lemma draw_loop_survivors (e : Env) (st : OSDMessageStack) (l : multimap) :
  forall c, fst (fst (draw_loop e st l c))
            = survivors (snd (fst (draw_loop e st l c))).
Proof.
  induction l as [|[ty msg] rest IH]; intros c; simpl; [reflexivity|].
  destruct (should_discard msg).
  - specialize (IH c). destruct (draw_loop e st rest c) as [[kept tr] c'].
    simpl in *. exact IH.
  - destruct (expired (TimeRemaining (now e) msg) msg).
    + specialize (IH c). destruct (draw_loop e st rest c) as [[kept tr] c'].
      simpl in *. exact IH.
    + destruct (draw_messages e).
      * destruct (DrawMessage e (index c) msg _ _ st) as [[msg' sz] rec].
        specialize (IH (advance st sz c)).
        destruct (draw_loop e st rest (advance st sz c)) as [[kept tr] c'].
        simpl in *. now rewrite IH.
      * specialize (IH c).
        destruct (draw_loop e st rest c) as [[kept tr] c'].
        simpl in *. now rewrite IH.
Qed.

(** Every entry is met exactly once, in the order of the iterator. *)
Lemma draw_loop_entries (e : Env) (st : OSDMessageStack) (l : multimap) :
  forall c, map entry_of (snd (fst (draw_loop e st l c))) = l.
Proof.
  induction l as [|[ty msg] rest IH]; intros c; simpl; [reflexivity|].
  destruct (should_discard msg).
  - specialize (IH c). destruct (draw_loop e st rest c) as [[kept tr] c'].
    simpl in *. now rewrite IH.
  - destruct (expired (TimeRemaining (now e) msg) msg).
    + specialize (IH c). destruct (draw_loop e st rest c) as [[kept tr] c'].
      simpl in *. now rewrite IH.
    + destruct (draw_messages e).
      * destruct (DrawMessage e (index c) msg _ _ st) as [[msg' sz] rec].
        specialize (IH (advance st sz c)).
        destruct (draw_loop e st rest (advance st sz c)) as [[kept tr] c'].
        simpl in *. now rewrite IH.
      * specialize (IH c).
        destruct (draw_loop e st rest c) as [[kept tr] c'].
        simpl in *. now rewrite IH.
Qed.

(** Every visit is the loop body run on the message it met. *)
Lemma draw_loop_visits (e : Env) (st : OSDMessageStack) (l : multimap) :
  forall c v, In v (snd (fst (draw_loop e st l c))) ->
              exists c', v_outcome v = visit_outcome e st c' (v_msg v).
Proof.
  induction l as [|[ty msg] rest IH]; intros c v; simpl; [contradiction|].
  destruct (should_discard msg) eqn:Hd.
  - specialize (IH c v). destruct (draw_loop e st rest c) as [[kept tr] c'].
    simpl in *. intros [<-|Hin]; [|now apply IH].
    exists c. unfold visit_outcome. simpl. now rewrite Hd.
  - destruct (expired (TimeRemaining (now e) msg) msg) eqn:Hx.
    + specialize (IH c v). destruct (draw_loop e st rest c) as [[kept tr] c'].
      simpl in *. intros [<-|Hin]; [|now apply IH].
      exists c. unfold visit_outcome. simpl. now rewrite Hd, Hx.
    + destruct (draw_messages e) eqn:Hm.
      * destruct (DrawMessage e (index c) msg _ _ st) as [[msg' sz] rec] eqn:Hdm.
        specialize (IH (advance st sz c) v).
        destruct (draw_loop e st rest (advance st sz c)) as [[kept tr] c'].
        simpl in *. intros [<-|Hin]; [|now apply IH].
        exists c. unfold visit_outcome. simpl. now rewrite Hd, Hx, Hm, Hdm.
      * specialize (IH c v).
        destruct (draw_loop e st rest c) as [[kept tr] c'].
        simpl in *. intros [<-|Hin]; [|now apply IH].
        exists c. unfold visit_outcome. simpl. now rewrite Hd, Hx, Hm.
Qed.

Lemma DrawMessages_stack_trace (e : Env) (s : State) (st : OSDMessageStack) :
  map entry_of (snd (DrawMessages_stack e s st))
  = visit_order st (messages st).
Proof.
  unfold DrawMessages_stack, visit_order.
  destruct (reversed st).
  - pose proof (draw_loop_entries e st (rev (messages st))
                                  (start_cursor e s st)) as H.
    destruct (draw_loop e st (rev (messages st)) _) as [[kept tr] c'].
    exact H.
  - pose proof (draw_loop_entries e st (messages st)
                                  (start_cursor e s st)) as H.
    destruct (draw_loop e st (messages st) _) as [[kept tr] c'].
    exact H.
Qed.

(** What a pass leaves in the container is what its visits left behind. *)
Lemma DrawMessages_stack_messages (e : Env) (s : State)
    (st : OSDMessageStack) :
  visit_order st (messages (fst (DrawMessages_stack e s st)))
  = survivors (snd (DrawMessages_stack e s st)).
Proof.
  unfold DrawMessages_stack, visit_order.
  destruct (reversed st).
  - pose proof (draw_loop_survivors e st (rev (messages st))
                                    (start_cursor e s st)) as H.
    destruct (draw_loop e st (rev (messages st)) _) as [[kept tr] c'].
    simpl in *. now rewrite rev_involutive.
  - pose proof (draw_loop_survivors e st (messages st)
                                    (start_cursor e s st)) as H.
    destruct (draw_loop e st (messages st) _) as [[kept tr] c'].
    exact H.
Qed.

Lemma DrawMessages_stack_visits (e : Env) (s : State) (st : OSDMessageStack)
    (v : Visit) :
  In v (snd (DrawMessages_stack e s st)) ->
  exists c, v_outcome v = visit_outcome e st c (v_msg v).
Proof.
  unfold DrawMessages_stack.
  destruct (reversed st).
  - pose proof (draw_loop_visits e st (rev (messages st))
                                 (start_cursor e s st) v) as H.
    destruct (draw_loop e st (rev (messages st)) _) as [[kept tr] c'].
    exact H.
  - pose proof (draw_loop_visits e st (messages st)
                                 (start_cursor e s st) v) as H.
    destruct (draw_loop e st (messages st) _) as [[kept tr] c'].
    exact H.
Qed.

(** ** The loop body *)

Lemma DrawMessage_message (e : Env) (i : Z) (m : Message) (p : ImVec2)
    (tl : Z) (st : OSDMessageStack) :
  exists ic tx, fst (fst (DrawMessage e i m p tl st)) = set_drawn ic tx m.
Proof.
  unfold DrawMessage.
  destruct (begin_visible (backend e (name st) i)).
  - destruct (icon m) as [ic|].
    + destruct (texture m) as [t|].
      * now exists (Some ic), (Some t).
      * destruct (create_texture_ok (backend e (name st) i)).
        -- now eexists _, _.
        -- now exists None, None.
    + now exists None, (texture m).
  - now exists (icon m), (texture m).
Qed.

Lemma visit_outcome_removed (e : Env) (st : OSDMessageStack) (c : Cursor)
    (m : Message) :
  removed (visit_outcome e st c m)
  = should_discard m || expired (TimeRemaining (now e) m) m.
Proof.
  unfold visit_outcome.
  destruct (should_discard m); [reflexivity|].
  destruct (expired (TimeRemaining (now e) m) m); [reflexivity|].
  destruct (draw_messages e); [|reflexivity].
  now destruct (DrawMessage e (index c) m _ _ st) as [[msg' sz] rec].
Qed.

Lemma visit_outcome_survived (e : Env) (st : OSDMessageStack) (c : Cursor)
    (m : Message) :
  should_discard m = false ->
  expired (TimeRemaining (now e) m) m = false ->
  exists d after,
    visit_outcome e st c m = Survived (TimeRemaining (now e) m) d after
    /\ (d = None <-> draw_messages e = false)
    /\ (draw_messages e = false -> after = m)
    /\ (draw_messages e = true -> exists ic tx, after = set_drawn ic tx m).
Proof.
  intros Hd Hx. unfold visit_outcome. rewrite Hd, Hx.
  destruct (draw_messages e).
  - destruct (DrawMessage_message e (index c) m
                (mkImVec2 (current_x c) (current_y c))
                (int_of_s64 (TimeRemaining (now e) m)) st) as (ic & tx & Hm).
    destruct (DrawMessage e (index c) m _ _ st) as [[msg' sz] rec].
    simpl in Hm. subst msg'.
    exists (Some rec), (set_drawn ic tx m).
    repeat split; try discriminate. intros _. now exists ic, tx.
  - exists None, m. repeat split; try discriminate; auto.
Qed.


(** ** Rounding to [float] *)

Lemma round_half_even_bounds (q : Q) :
  Qfloor q <= round_half_even q <= Qfloor q + 1.
Proof.
  unfold round_half_even.
  destruct (q - inject_Z (Qfloor q) ?= 1 # 2)%Q; [destruct (Z.even _)| |];
    lia.
Qed.

(** The rounded integer is at most one half away. *)
Lemma round_half_even_error (q : Q) :
  (inject_Z (round_half_even q) - (1 # 2) <= q
   <= inject_Z (round_half_even q) + (1 # 2))%Q.
Proof.
  pose proof (Qfloor_le q) as Hlo. pose proof (Qlt_floor q) as Hhi.
  rewrite inject_Z_plus in Hhi. change (inject_Z 1) with 1%Q in Hhi.
  unfold round_half_even.
  destruct (Qcompare_spec (q - inject_Z (Qfloor q)) (1 # 2)) as [H|H|H].
  - destruct (Z.even (Qfloor q)); rewrite ?inject_Z_plus;
      change (inject_Z 1) with 1%Q; lra.
  - lra.
  - rewrite inject_Z_plus. change (inject_Z 1) with 1%Q. lra.
Qed.

Lemma round_half_even_Z (n : Z) : round_half_even (inject_Z n) = n.
Proof.
  unfold round_half_even. rewrite Qfloor_Z.
  destruct (Qcompare_spec (inject_Z n - inject_Z n) (1 # 2)) as [H|H|H];
    [lra|reflexivity|lra].
Qed.

Lemma round_half_even_mono (q1 q2 : Q) :
  (q1 <= q2)%Q -> round_half_even q1 <= round_half_even q2.
Proof.
  intros Hle. pose proof (Qfloor_resp_le _ _ Hle) as Hf.
  pose proof (round_half_even_bounds q1) as B1.
  pose proof (round_half_even_bounds q2) as B2.
  destruct (Z.eq_dec (Qfloor q1) (Qfloor q2)) as [E|N]; [|lia].
  unfold round_half_even. rewrite <- E.
  destruct (Qcompare_spec (q1 - inject_Z (Qfloor q1)) (1 # 2)) as [H1|H1|H1];
    destruct (Qcompare_spec (q2 - inject_Z (Qfloor q1)) (1 # 2))
      as [H2|H2|H2];
    try destruct (Z.even (Qfloor q1)); try lia; lra.
Qed.

Lemma round_half_even_comp (q1 q2 : Q) :
  q1 == q2 -> round_half_even q1 = round_half_even q2.
Proof.
  intros E. apply Z.le_antisymm; apply round_half_even_mono; rewrite E;
    apply Qle_refl.
Qed.

Lemma two_power_pos (k : Z) : (0 < 2 ^ k)%Q.
Proof. apply Qpower_0_lt. reflexivity. Qed.

Lemma two_power_succ (k : Z) : (2 ^ (k + 1) == 2 * 2 ^ k)%Q.
Proof.
  rewrite Qpower_plus by discriminate. rewrite Qpower_1_r. ring.
Qed.

Lemma two_power_le (a b : Z) : a <= b -> (2 ^ a <= 2 ^ b)%Q.
Proof. intros H. apply Qpower_le_compat_l; [exact H|discriminate]. Qed.

(** [Qlog2] is the binary exponent of a positive rational. *)
Lemma Qlog2_spec (q : Q) :
  (0 < q)%Q -> (2 ^ Qlog2 q <= q < 2 ^ (Qlog2 q + 1))%Q.
Proof.
  intros Hq. unfold Qlog2.
  destruct q as [n d]. simpl Qnum. simpl Qden.
  assert (Hn : 0 < n) by (unfold Qlt in Hq; simpl in Hq; lia).
  set (a := Z.log2 n). set (b := Z.log2 (Z.pos d)).
  assert (Ha : 0 <= a) by apply Z.log2_nonneg.
  assert (Hb : 0 <= b) by apply Z.log2_nonneg.
  destruct (Z.log2_spec n Hn) as [Ha1 Ha2]. fold a in Ha1, Ha2.
  destruct (Z.log2_spec (Z.pos d) (Pos2Z.is_pos d)) as [Hb1 Hb2].
  fold b in Hb1, Hb2.
  assert (Hq' : n # d == inject_Z n / inject_Z (Z.pos d)).
  { rewrite (Qmake_Qdiv n d). reflexivity. }
  assert (Qa1 : (2 ^ a <= inject_Z n)%Q).
  { change 2%Q with (inject_Z 2). rewrite <- Zpower_Qpower by lia.
    now rewrite <- Zle_Qle. }
  assert (Qa2 : (inject_Z n < 2 * 2 ^ a)%Q).
  { rewrite <- two_power_succ.
    change 2%Q with (inject_Z 2). rewrite <- Zpower_Qpower by lia.
    rewrite <- Zlt_Qlt. replace (a + 1) with (Z.succ a) by lia. exact Ha2. }
  assert (Qb1 : (2 ^ b <= inject_Z (Z.pos d))%Q).
  { change 2%Q with (inject_Z 2). rewrite <- Zpower_Qpower by lia.
    now rewrite <- Zle_Qle. }
  assert (Qb2 : (inject_Z (Z.pos d) < 2 * 2 ^ b)%Q).
  { rewrite <- two_power_succ.
    change 2%Q with (inject_Z 2). rewrite <- Zpower_Qpower by lia.
    rewrite <- Zlt_Qlt. replace (b + 1) with (Z.succ b) by lia. exact Hb2. }
  assert (Hd : (0 < inject_Z (Z.pos d))%Q) by reflexivity.
  pose proof (two_power_pos a) as Pa. pose proof (two_power_pos b) as Pb.
  pose proof (two_power_pos (a - b)) as Pk.
  assert (Hk : (2 ^ (a - b) * 2 ^ b == 2 ^ a)%Q).
  { rewrite <- Qpower_plus by discriminate.
    now replace (a - b + b) with a by lia. }
  destruct (Qle_bool (2 ^ (a - b)) (n # d)) eqn:Ht.
  - apply Qle_bool_iff in Ht. split; [exact Ht|].
    rewrite two_power_succ, Hq'.
    apply Qlt_shift_div_r; [exact Hd|]. nra.
  - assert (Hlt : (n # d < 2 ^ (a - b))%Q).
    { apply Qnot_le_lt. intros H. apply Qle_bool_iff in H. congruence. }
    replace (a - b - 1 + 1) with (a - b) by lia.
    split; [|exact Hlt].
    assert (Hh : (2 * 2 ^ (a - b - 1) == 2 ^ (a - b))%Q).
    { rewrite <- two_power_succ.
      now replace (a - b - 1 + 1) with (a - b) by lia. }
    pose proof (two_power_pos (a - b - 1)) as Pk1.
    rewrite Hq'. apply Qle_shift_div_l; [exact Hd|]. nra.
Qed.

Lemma Qlog2_mono (q1 q2 : Q) :
  (0 < q1)%Q -> (q1 <= q2)%Q -> Qlog2 q1 <= Qlog2 q2.
Proof.
  intros H0 Hle.
  destruct (Qlog2_spec q1 H0) as [S1 _].
  destruct (Qlog2_spec q2 ltac:(lra)) as [_ T2].
  destruct (Z_le_gt_dec (Qlog2 q1) (Qlog2 q2)) as [?|G]; [assumption|].
  pose proof (two_power_le (Qlog2 q2 + 1) (Qlog2 q1) ltac:(lia)). lra.
Qed.

Lemma float_round_value (q : Q) :
  float_round q
  == inject_Z (round_half_even (q / 2 ^ float_exponent q))
     * 2 ^ float_exponent q.
Proof. unfold float_round. apply Qred_correct. Qed.

(** The significand has at most 24 bits (it is [2 ^ 24] when the rounding
    carries into the next binade). *)
Lemma scaled_below (q : Q) :
  (0 < q)%Q -> (q / 2 ^ float_exponent q < inject_Z (2 ^ 24))%Q.
Proof.
  intros Hq. destruct (Qlog2_spec q Hq) as [_ S2].
  pose proof (two_power_pos (float_exponent q)) as Pe.
  apply Qlt_shift_div_r; [exact Pe|].
  rewrite Zpower_Qpower by lia. change (inject_Z 2) with 2%Q.
  rewrite <- Qpower_plus by discriminate.
  apply Qlt_le_trans with (1 := S2). apply two_power_le.
  unfold float_exponent. lia.
Qed.

Lemma scaled_above (q : Q) :
  (0 < q)%Q -> float_exponent q = Qlog2 q - 23 ->
  (inject_Z (2 ^ 23) <= q / 2 ^ float_exponent q)%Q.
Proof.
  intros Hq He. destruct (Qlog2_spec q Hq) as [S1 _].
  pose proof (two_power_pos (float_exponent q)) as Pe.
  apply Qle_shift_div_l; [exact Pe|].
  rewrite Zpower_Qpower by lia. change (inject_Z 2) with 2%Q.
  rewrite <- Qpower_plus by discriminate.
  rewrite He. now replace (23 + (Qlog2 q - 23)) with (Qlog2 q) by lia.
Qed.

Lemma float_round_nonneg (q : Q) : (0 < q)%Q -> (0 <= float_round q)%Q.
Proof.
  intros Hq. rewrite float_round_value.
  pose proof (two_power_pos (float_exponent q)) as Pe.
  apply Qmult_le_0_compat; [|lra].
  assert (H : 0 <= round_half_even (q / 2 ^ float_exponent q)).
  { rewrite <- (round_half_even_Z 0) at 1. apply round_half_even_mono.
    apply Qle_shift_div_l; [exact Pe|]. change (inject_Z 0) with 0%Q. lra. }
  rewrite Zle_Qle in H. exact H.
Qed.

(** Rounding is monotone, also across binades. *)
Lemma float_round_mono (q1 q2 : Q) :
  (0 < q1)%Q -> (q1 <= q2)%Q -> (float_round q1 <= float_round q2)%Q.
Proof.
  intros H0 Hle. assert (H2 : (0 < q2)%Q) by lra.
  rewrite !float_round_value.
  pose proof (Qlog2_mono q1 q2 H0 Hle) as Hk.
  set (e1 := float_exponent q1). set (e2 := float_exponent q2).
  pose proof (two_power_pos e1) as P1. pose proof (two_power_pos e2) as P2.
  assert (He : e1 <= e2) by (unfold e1, e2, float_exponent; lia).
  destruct (Z.eq_dec e1 e2) as [E|N].
  - rewrite <- E. apply Qmult_le_compat_r; [|lra].
    rewrite <- Zle_Qle. apply round_half_even_mono.
    apply Qle_shift_div_l; [exact P1|].
    unfold Qdiv.
    rewrite <- Qmult_assoc, (Qmult_comm (/ _)), Qmult_inv_r, Qmult_1_r
      by lra.
    exact Hle.
  - assert (Hlt : e1 + 1 <= e2) by lia.
    assert (He2 : e2 = Qlog2 q2 - 23)
      by (unfold e1, e2, float_exponent in *; lia).
    pose proof (scaled_below q1 H0) as B1. fold e1 in B1.
    pose proof (scaled_above q2 H2 He2) as B2. fold e2 in B2.
    assert (R1 : round_half_even (q1 / 2 ^ e1) <= 2 ^ 24).
    { rewrite <- (round_half_even_Z (2 ^ 24)).
      apply round_half_even_mono. lra. }
    assert (R2 : 2 ^ 23 <= round_half_even (q2 / 2 ^ e2)).
    { rewrite <- (round_half_even_Z (2 ^ 23)).
      now apply round_half_even_mono. }
    rewrite Zle_Qle in R1, R2.
    pose proof (two_power_le (e1 + 1) e2 Hlt) as Hp.
    rewrite two_power_succ in Hp.
    change (inject_Z (2 ^ 24)) with (2 * inject_Z (2 ^ 23))%Q in R1.
    set (m1 := inject_Z (round_half_even (q1 / 2 ^ e1))) in *.
    set (m2 := inject_Z (round_half_even (q2 / 2 ^ e2))) in *.
    assert (X : (0 < inject_Z (2 ^ 23))%Q) by reflexivity.
    apply Qle_trans with (2 * inject_Z (2 ^ 23) * 2 ^ e1)%Q.
    + apply Qmult_le_compat_r; lra.
    + apply Qle_trans with (inject_Z (2 ^ 23) * 2 ^ e2)%Q.
      * nra.
      * apply Qmult_le_compat_r; lra.
Qed.

Lemma Qnum_sign (q : Q) :
  match Qnum q with
  | Z0 => q == 0
  | Zpos _ => (0 < q)%Q
  | Zneg _ => (q < 0)%Q
  end.
Proof.
  destruct q as [[|p|p] d]; unfold Qeq, Qlt; simpl; lia.
Qed.

Lemma to_float_mono (q1 q2 : Q) :
  (q1 <= q2)%Q -> (to_float q1 <= to_float q2)%Q.
Proof.
  intros Hle. unfold to_float.
  pose proof (Qnum_sign q1) as S1. pose proof (Qnum_sign q2) as S2.
  destruct (Qnum q1); destruct (Qnum q2); try lra.
  - pose proof (float_round_nonneg q2 S2). lra.
  - now apply float_round_mono.
  - pose proof (float_round_nonneg (- q1) ltac:(lra)). lra.
  - pose proof (float_round_nonneg (- q1) ltac:(lra)).
    pose proof (float_round_nonneg q2 S2). lra.
  - pose proof (float_round_mono (- q2) (- q1) ltac:(lra) ltac:(lra)). lra.
Qed.

(** The result depends on the value only, not on the fraction that
    represents it. *)
Lemma to_float_comp (q1 q2 : Q) : q1 == q2 -> to_float q1 == to_float q2.
Proof.
  intros E. apply Qle_antisym; apply to_float_mono; lra.
Qed.

(** Integers of at most 24 bits are floats. *)
Lemma to_float_Z (n : Z) :
  - 2 ^ 24 <= n <= 2 ^ 24 -> to_float (inject_Z n) == inject_Z n.
Proof.
  assert (Hpos : forall m, 0 < m <= 2 ^ 24 ->
                           float_round (inject_Z m) == inject_Z m).
  { intros m Hm. rewrite float_round_value.
    assert (Hq : (0 < inject_Z m)%Q).
    { change 0%Q with (inject_Z 0). rewrite <- Zlt_Qlt. lia. }
    destruct (Qlog2_spec _ Hq) as [S1 S2].
    set (k := Qlog2 (inject_Z m)) in *.
    assert (Hk : 0 <= k <= 24).
    { split.
      - destruct (Z_le_gt_dec 0 k) as [?|G]; [assumption|exfalso].
        pose proof (two_power_le (k + 1) 0 ltac:(lia)) as P.
        assert ((1 <= inject_Z m)%Q).
        { change 1%Q with (inject_Z 1). rewrite <- Zle_Qle. lia. }
        change (2 ^ 0)%Q with 1%Q in P. lra.
      - destruct (Z_le_gt_dec k 24) as [?|G]; [assumption|exfalso].
        pose proof (two_power_le 25 k ltac:(lia)) as P.
        assert ((inject_Z m <= inject_Z (2 ^ 24))%Q).
        { rewrite <- Zle_Qle. lia. }
        change (2 ^ 25)%Q with (2 * inject_Z (2 ^ 24))%Q in P.
        assert (X : (0 < inject_Z (2 ^ 24))%Q) by reflexivity. lra. }
    unfold float_exponent. fold k.
    replace (Z.max (k - 23) (-149)) with (k - 23) by lia.
    destruct (Z.eq_dec k 24) as [E24|N24].
    - assert (Em : m = 2 ^ 24).
      { rewrite E24 in S1. change (2 ^ 24)%Q with (inject_Z (2 ^ 24)) in S1.
        rewrite <- Zle_Qle in S1. lia. }
      rewrite E24, Em. reflexivity.
    - assert (Ex : inject_Z m / 2 ^ (k - 23) == inject_Z (m * 2 ^ (23 - k))).
      { rewrite inject_Z_mult, Zpower_Qpower by lia.
        change (inject_Z 2) with 2%Q.
        replace (k - 23) with (- (23 - k)) by lia.
        rewrite Qpower_opp. field.
        apply Qpower_not_0. discriminate. }
      rewrite (round_half_even_comp _ _ Ex), round_half_even_Z.
      rewrite inject_Z_mult, Zpower_Qpower by lia.
      change (inject_Z 2) with 2%Q.
      rewrite <- Qmult_assoc, <- Qpower_plus by discriminate.
      replace (23 - k + (k - 23)) with 0 by lia. apply Qmult_1_r. }
  intros Hn. unfold to_float.
  destruct n as [|p|p].
  - reflexivity.
  - change (float_round (inject_Z (Z.pos p)) == inject_Z (Z.pos p)).
    apply Hpos. lia.
  - change (- float_round (inject_Z (Z.pos p)) == - inject_Z (Z.pos p)).
    pose proof (Hpos (Z.pos p) ltac:(lia)) as H. lra.
Qed.

(** Below 1 the rounding moves a value by at most [2 ^ -25]. *)
Lemma to_float_error (q : Q) :
  (0 < q < 1)%Q -> (Qabs (to_float q - q) <= 1 # 2 ^ 25)%Q.
Proof.
  intros [H0 H1].
  assert (E : to_float q == float_round q).
  { unfold to_float. pose proof (Qnum_sign q) as S.
    destruct (Qnum q); [lra|reflexivity|lra]. }
  rewrite E, float_round_value.
  destruct (Qlog2_spec q H0) as [S1 _].
  set (e := float_exponent q).
  assert (He : e <= -24).
  { unfold e, float_exponent.
    destruct (Z_le_gt_dec 0 (Qlog2 q)) as [G|?]; [exfalso|lia].
    pose proof (two_power_le 0 (Qlog2 q) G) as P.
    change (2 ^ 0)%Q with 1%Q in P. lra. }
  pose proof (two_power_pos e) as Pe.
  pose proof (two_power_le e (-24) He) as P24.
  change (2 ^ (-24))%Q with (1 # 2 ^ 24)%Q in P24.
  pose proof (round_half_even_error (q / 2 ^ e)) as [R1 R2].
  set (m := inject_Z (round_half_even (q / 2 ^ e))) in *.
  assert (Eq' : q == q / 2 ^ e * 2 ^ e) by (field; lra).
  set (x := (q / 2 ^ e)%Q) in *.
  assert (E25 : (1 # 2 ^ 25) == (1 # 2) * (1 # 2 ^ 24)) by reflexivity.
  apply Qabs_Qle_condition. split.
  - rewrite Eq'.
    assert ((- (1 # 2)) * 2 ^ e <= (m - x) * 2 ^ e)%Q
      by (apply Qmult_le_compat_r; lra).
    nra.
  - rewrite Eq'.
    assert ((m - x) * 2 ^ e <= (1 # 2) * 2 ^ e)%Q
      by (apply Qmult_le_compat_r; lra).
    nra.
Qed.

(** ** The registry and the stack pointer *)

Lemma map_contains_store (k k' : string) (st : OSDMessageStack)
    (m : stack_map) :
  map_contains k' (map_store k st m) = map_contains k' m.
Proof.
  induction m as [|[k0 v0] tl IH]; simpl; [reflexivity|].
  destruct (String.eqb k k0); simpl; [reflexivity|].
  now rewrite IH.
Qed.

Lemma map_find_store (k : string) (st : OSDMessageStack) (m : stack_map) :
  map_contains k m = true -> map_find k (map_store k st m) = Some st.
Proof.
  induction m as [|[k0 v0] tl IH]; simpl; [discriminate|].
  destruct (String.eqb k k0) eqn:E; simpl.
  - now rewrite E.
  - rewrite E. exact IH.
Qed.

Lemma map_find_store_other (k k' : string) (st : OSDMessageStack)
    (m : stack_map) :
  k' <> k -> map_find k' (map_store k st m) = map_find k' m.
Proof.
  intros Hne. induction m as [|[k0 v0] tl IH]; simpl; [reflexivity|].
  destruct (String.eqb k k0) eqn:E; simpl.
  - apply String.eqb_eq in E. subst k0.
    destruct (String.eqb k' k) eqn:E'; [|reflexivity].
    apply String.eqb_eq in E'. contradiction.
  - now rewrite IH.
Qed.

Lemma deref_assign (n : string) (st : OSDMessageStack) (s : State) :
  deref (resolve n s) (assign (resolve n s) st s) = st.
Proof.
  unfold resolve. destruct (map_contains n (messageStacks s)) eqn:E; simpl.
  - now rewrite map_find_store.
  - reflexivity.
Qed.

Lemma deref_assign_other (r r' : StackRef) (st : OSDMessageStack)
    (s : State) :
  r' <> r -> deref r' (assign r st s) = deref r' s.
Proof.
  intros Hne. destruct r as [|k], r' as [|k']; simpl; try reflexivity.
  - contradiction.
  - rewrite map_find_store_other; [reflexivity|]. congruence.
Qed.

Lemma resolve_unregistered (n : string) (s : State) :
  map_contains n (messageStacks s) = false -> resolve n s = DefaultStack.
Proof.
  unfold resolve. now intros ->.
Qed.

Lemma resolve_registered (n : string) (s : State) :
  map_contains n (messageStacks s) = true -> resolve n s = NamedStack n.
Proof.
  unfold resolve. now intros ->.
Qed.

(** ** The multimap *)

Lemma HasMessage_iff (st : OSDMessageStack) (message : string)
    (type : MessageType) :
  HasMessage st message type = true <->
  exists m, In (type, m) (messages st) /\ text m = message.
Proof.
  unfold HasMessage. rewrite existsb_exists. split.
  - intros ([ty m] & Hin & H). simpl in H.
    apply andb_true_iff in H as [Ht Hs].
    apply Z.eqb_eq in Ht. apply String.eqb_eq in Hs. subst.
    now exists m.
  - intros (m & Hin & Hs). exists (type, m). split; [exact Hin|].
    simpl. rewrite Z.eqb_refl. simpl. apply String.eqb_eq. now symmetry.
Qed.

(** Where [emplace] puts the new entry. *)
Lemma emplace_split (type : MessageType) (msg : Message) (l : multimap) :
  exists l1 l2,
    emplace type msg l = l1 ++ (type, msg) :: l2
    /\ l = l1 ++ l2
    /\ Forall (fun en => fst en <= type) l1
    /\ (key_sorted l -> Forall (fun en => type < fst en) l2).
Proof.
  induction l as [|en tl IH]; simpl.
  - exists [], []. repeat split; constructor.
  - destruct (Z.ltb_spec type (fst en)) as [Hlt|Hge].
    + exists [], (en :: tl). repeat split; [constructor|].
      intros Hs. constructor; [exact Hlt|].
      apply Forall_forall. intros b Hb.
      apply in_split in Hb as (t1 & t2 & ->).
      specialize (Hs [] en t1 b t2 eq_refl). simpl in *. lia.
    + destruct IH as (l1 & l2 & He & Hl & H1 & H2).
      exists (en :: l1), l2. rewrite He, Hl. repeat split.
      * constructor; assumption.
      * intros Hs. apply H2. intros a1 a a2 b a3 Heq.
        apply (Hs (en :: a1) a a2 b a3). simpl. rewrite <- Hl. now f_equal.
Qed.

Lemma emplace_length (type : MessageType) (msg : Message) (l : multimap) :
  List.length (emplace type msg l) = S (List.length l).
Proof.
  induction l as [|en tl IH]; simpl; [reflexivity|].
  destruct (type <? fst en); simpl; [reflexivity|]. now rewrite IH.
Qed.

Lemma discard_range_keys (type : MessageType) (l : multimap) :
  map fst (discard_range type l) = map fst l.
Proof.
  unfold discard_range. rewrite map_map. apply map_ext.
  intros [ty m]. simpl. now destruct (ty =? type).
Qed.

Lemma key_sorted_keys (l l' : multimap) :
  map fst l = map fst l' -> key_sorted l -> key_sorted l'.
Proof.
  intros Hk Hs l1 a l2 b l3 ->.
  rewrite map_app in Hk. simpl in Hk. rewrite map_app in Hk. simpl in Hk.
  apply map_eq_app in Hk as (m1 & r1 & -> & H1 & Hr1).
  destruct r1 as [|a' r1]; [discriminate|]. simpl in Hr1.
  injection Hr1 as Ha Hr1.
  apply map_eq_app in Hr1 as (m2 & r2 & -> & H2 & Hr2).
  destruct r2 as [|b' r2]; [discriminate|]. simpl in Hr2.
  injection Hr2 as Hb Hr2.
  specialize (Hs m1 a' m2 b' r2 eq_refl). lia.
Qed.

(** ** [AddTypedMessage] *)

Section AddTypedMessage_facts.

Variable Typeless : MessageType.

Lemma AddTypedMessage_suppressed (type : MessageType) (message : string)
    (ms argb : Z) (ic : option Icon) (stack : string) (sc : Q) (t : Z)
    (s : State) :
  HasMessage (deref (resolve stack s) s) message type = true ->
  AddTypedMessage Typeless type message ms argb ic stack true sc t s = s.
Proof.
  intros H. unfold AddTypedMessage. now rewrite H.
Qed.

(** The stack the call works on, after a call that is not suppressed. *)
Lemma AddTypedMessage_target (type : MessageType) (message : string)
    (ms argb : Z) (ic : option Icon) (stack : string) (pd : bool) (sc : Q)
    (t : Z) (s : State) :
  pd && HasMessage (deref (resolve stack s) s) message type = false ->
  let old := messages (deref (resolve stack s) s) in
  deref (resolve stack s)
        (AddTypedMessage Typeless type message ms argb ic stack pd sc t s)
  = set_messages
      (emplace type (Message_new message ms argb ic sc t)
               (if negb (type =? Typeless) then discard_range type old
                else old))
      (deref (resolve stack s) s).
Proof.
  intros H. unfold AddTypedMessage. rewrite H. simpl.
  apply deref_assign.
Qed.

(** The call leaves every other stack as it is. *)
Lemma AddTypedMessage_frame (type : MessageType) (message : string)
    (ms argb : Z) (ic : option Icon) (stack : string) (pd : bool) (sc : Q)
    (t : Z) (s : State) (r' : StackRef) :
  r' <> resolve stack s ->
  deref r' (AddTypedMessage Typeless type message ms argb ic stack pd sc t s)
  = deref r' s.
Proof.
  intros Hne. unfold AddTypedMessage.
  destruct (pd && HasMessage _ message type); [reflexivity|].
  now apply deref_assign_other.
Qed.

End AddTypedMessage_facts.

(** ** What a pass leaves in the container *)

Lemma Forall2_rev {A B : Type} (R : A -> B -> Prop) (l : list A)
    (l' : list B) :
  Forall2 R l l' -> Forall2 R (rev l) (rev l').
Proof.
  induction 1 as [|a b l l' Hab _ IH]; simpl; [constructor|].
  apply Forall2_app; [exact IH|]. constructor; [exact Hab|constructor].
Qed.

Lemma draw_loop_kept (e : Env) (st : OSDMessageStack) (l : multimap) :
  forall c, Forall2 (drawn_from e) (filter (stays e) l)
                    (fst (fst (draw_loop e st l c))).
Proof.
  induction l as [|[ty msg] rest IH]; intros c; simpl; [constructor|].
  unfold stays at 1. simpl.
  destruct (should_discard msg); simpl.
  - specialize (IH c). destruct (draw_loop e st rest c) as [[kept tr] c'].
    exact IH.
  - destruct (expired (TimeRemaining (now e) msg) msg); simpl.
    + specialize (IH c). destruct (draw_loop e st rest c) as [[kept tr] c'].
      exact IH.
    + destruct (draw_messages e) eqn:Hm.
      * destruct (DrawMessage_message e (index c) msg
                    (mkImVec2 (current_x c) (current_y c))
                    (int_of_s64 (TimeRemaining (now e) msg)) st)
          as (ic & tx & Hmsg).
        destruct (DrawMessage e (index c) msg _ _ st) as [[msg' sz] rec].
        simpl in Hmsg. subst msg'.
        specialize (IH (advance st sz c)).
        destruct (draw_loop e st rest (advance st sz c)) as [[kept tr] c'].
        simpl in *. constructor; [|exact IH].
        unfold drawn_from. rewrite Hm. simpl. split; [reflexivity|].
        now exists ic, tx.
      * specialize (IH c).
        destruct (draw_loop e st rest c) as [[kept tr] c'].
        simpl in *. constructor; [|exact IH].
        unfold drawn_from. rewrite Hm. now split.
Qed.

(** The entries that stay keep their order; a pass with drawing enabled
    draws each of them. *)
Lemma DrawMessages_stack_kept (e : Env) (s : State) (st : OSDMessageStack) :
  Forall2 (drawn_from e) (filter (stays e) (messages st))
          (messages (fst (DrawMessages_stack e s st))).
Proof.
  unfold DrawMessages_stack.
  destruct (reversed st).
  - pose proof (draw_loop_kept e st (rev (messages st))
                               (start_cursor e s st)) as H.
    destruct (draw_loop e st (rev (messages st)) _) as [[kept tr] c'].
    simpl in *. apply Forall2_rev in H.
    now rewrite filter_rev, rev_involutive in H.
  - pose proof (draw_loop_kept e st (messages st)
                               (start_cursor e s st)) as H.
    destruct (draw_loop e st (messages st) _) as [[kept tr] c'].
    exact H.
Qed.

Lemma drawn_from_fields (e : Env) (en0 en : MessageType * Message) :
  drawn_from e en0 en ->
  fst en = fst en0
  /\ text (snd en) = text (snd en0)
  /\ timer (snd en) = timer (snd en0)
  /\ duration (snd en) = duration (snd en0)
  /\ color (snd en) = color (snd en0)
  /\ scale (snd en) = scale (snd en0)
  /\ should_discard (snd en) = should_discard (snd en0)
  /\ ever_drawn (snd en) = (draw_messages e || ever_drawn (snd en0)).
Proof.
  intros [Hk H]. split; [exact Hk|].
  destruct (draw_messages e).
  - destruct H as (ic & tx & ->). simpl. tauto.
  - rewrite H. simpl. tauto.
Qed.

Lemma Forall2_In_r {A B : Type} (R : A -> B -> Prop) (l : list A)
    (l' : list B) (b : B) :
  Forall2 R l l' -> In b l' -> exists a, In a l /\ R a b.
Proof.
  induction 1 as [|a0 b0 l l' Hab _ IH]; simpl; [contradiction|].
  intros [<-|Hin].
  - exists a0. now split; [left|].
  - destruct (IH Hin) as (a & Ha & HR). exists a. now split; [right|].
Qed.

(** Every entry left by a pass comes from an entry that stays. *)
Lemma DrawMessages_stack_origin (e : Env) (s : State) (st : OSDMessageStack)
    (en : MessageType * Message) :
  In en (messages (fst (DrawMessages_stack e s st))) ->
  exists en0, In en0 (messages st) /\ stays e en0 = true
              /\ drawn_from e en0 en.
Proof.
  intros Hin.
  destruct (Forall2_In_r _ _ _ _ (DrawMessages_stack_kept e s st) Hin)
    as (en0 & H0 & HR).
  apply filter_In in H0 as [H0 Hs]. now exists en0.
Qed.

Lemma Forall2_keys (e : Env) (l l' : multimap) :
  Forall2 (drawn_from e) l l' -> map fst l' = map fst l.
Proof.
  induction 1 as [|a b l l' [Hk _] _ IH]; simpl; [reflexivity|].
  now rewrite Hk, IH.
Qed.

Lemma filter_key_length (f : MessageType -> bool) (l l' : multimap) :
  map fst l' = map fst l ->
  List.length (filter (fun en => f (fst en)) l')
  = List.length (filter (fun en => f (fst en)) l).
Proof.
  revert l'. induction l as [|a l IH]; intros [|b l'] H; simpl in *;
    try discriminate; [reflexivity|].
  injection H as Hk H. rewrite Hk.
  destruct (f (fst a)); simpl; now rewrite (IH l' H).
Qed.

Lemma key_sorted_filter (f : MessageType * Message -> bool) (l : multimap) :
  key_sorted l -> key_sorted (filter f l).
Proof.
  intros Hs l1 a l2 b l3 Heq.
  assert (Hsub : forall (k : multimap) p q r x y,
             filter f k = p ++ x :: q ++ y :: r ->
             exists p' q' r', k = p' ++ x :: q' ++ y :: r').
  { clear. induction k as [|z k IH]; intros p q r x y H; simpl in H.
    - destruct p; discriminate.
    - destruct (f z).
      + destruct p as [|z' p]; simpl in H.
        * injection H as -> H.
          assert (Hy : In y (filter f k)).
          { rewrite H. apply in_or_app. right. now left. }
          apply filter_In in Hy as [Hy _].
          apply in_split in Hy as (q' & r' & ->).
          now exists [], q', r'.
        * injection H as -> H.
          destruct (IH _ _ _ _ _ H) as (p' & q' & r' & ->).
          now exists (z' :: p'), q', r'.
      + destruct (IH _ _ _ _ _ H) as (p' & q' & r' & ->).
        now exists (z :: p'), q', r'. }
  destruct (Hsub _ _ _ _ _ _ Heq) as (p' & q' & r' & Hl).
  exact (Hs _ _ _ _ _ Hl).
Qed.

Lemma DrawMessages_stack_sorted (e : Env) (s : State)
    (st : OSDMessageStack) :
  key_sorted (messages st) ->
  key_sorted (messages (fst (DrawMessages_stack e s st))).
Proof.
  intros Hs.
  apply (key_sorted_keys (filter (stays e) (messages st))).
  - symmetry. apply (Forall2_keys e), DrawMessages_stack_kept.
  - now apply key_sorted_filter.
Qed.

(** ** The containers of a reachable state are ordered by key *)

Lemma key_sorted_nil : key_sorted [].
Proof.
  intros l1 a l2 b l3 H. destruct l1; discriminate.
Qed.

Lemma key_sorted_cons (a : MessageType * Message) (l : multimap) :
  key_sorted (a :: l) <->
  Forall (fun b => fst a <= fst b) l /\ key_sorted l.
Proof.
  split.
  - intros Hs. split.
    + apply Forall_forall. intros b Hb.
      apply in_split in Hb as (l2 & l3 & ->).
      exact (Hs [] a l2 b l3 eq_refl).
    + intros l1 x l2 y l3 ->. exact (Hs (a :: l1) x l2 y l3 eq_refl).
  - intros [Hall Hs] l1 x l2 y l3 Heq.
    destruct l1 as [|a' l1]; simpl in Heq; injection Heq as -> ->.
    + rewrite Forall_forall in Hall. apply Hall.
      apply in_or_app. right. now left.
    + exact (Hs l1 x l2 y l3 eq_refl).
Qed.

Lemma key_sorted_prefix (p1 p2 : multimap) (a : MessageType * Message) :
  key_sorted (p1 ++ a :: p2) -> Forall (fun en => fst en <= fst a) p1.
Proof.
  intros Hs. apply Forall_forall. intros en Hen.
  apply in_split in Hen as (x & y & ->).
  apply (Hs x en y a p2). now rewrite <- app_assoc.
Qed.

Lemma emplace_In (type : MessageType) (msg : Message) (l : multimap)
    (en : MessageType * Message) :
  In en (emplace type msg l) <-> en = (type, msg) \/ In en l.
Proof.
  induction l as [|a l IH]; simpl.
  - intuition congruence.
  - destruct (type <? fst a); simpl; [intuition congruence|].
    rewrite IH. intuition congruence.
Qed.

Lemma emplace_sorted (type : MessageType) (msg : Message) (l : multimap) :
  key_sorted l -> key_sorted (emplace type msg l).
Proof.
  induction l as [|a l IH]; simpl; intros Hs.
  - apply key_sorted_cons. split; [constructor|apply key_sorted_nil].
  - pose proof Hs as Hs0. apply key_sorted_cons in Hs as [Hall Hs].
    destruct (Z.ltb_spec type (fst a)) as [Hlt|Hge].
    + apply key_sorted_cons. split; [|exact Hs0].
      constructor; [simpl; lia|].
      rewrite Forall_forall in *. intros b Hb. specialize (Hall b Hb).
      simpl. lia.
    + apply key_sorted_cons. split; [|now apply IH].
      apply Forall_forall. intros b Hb.
      apply emplace_In in Hb as [->|Hb]; [exact Hge|].
      rewrite Forall_forall in Hall. now apply Hall.
Qed.

Lemma emplace_app_le (type : MessageType) (msg : Message)
    (l1 l2 : multimap) :
  Forall (fun en => fst en <= type) l1 ->
  emplace type msg (l1 ++ l2) = l1 ++ emplace type msg l2.
Proof.
  induction 1 as [|a l1 Ha _ IH]; simpl; [reflexivity|].
  destruct (Z.ltb_spec type (fst a)); [lia|]. now rewrite IH.
Qed.

Lemma wf_state_deref (r : StackRef) (s : State) :
  wf_state s -> key_sorted (messages (deref r s)).
Proof.
  intros [Hd Hm]. destruct r as [|k]; simpl; [exact Hd|].
  induction (messageStacks s) as [|[k0 v0] tl IH]; simpl.
  - apply key_sorted_nil.
  - apply Forall_cons_iff in Hm as [H0 Hm].
    destruct (String.eqb k k0); [exact H0|now apply IH].
Qed.

Lemma wf_state_assign (r : StackRef) (st : OSDMessageStack) (s : State) :
  wf_state s -> key_sorted (messages st) -> wf_state (assign r st s).
Proof.
  intros [Hd Hm] Hst. destruct r as [|k]; split; simpl; auto.
  induction (messageStacks s) as [|[k0 v0] tl IH]; simpl; [constructor|].
  apply Forall_cons_iff in Hm as [H0 Hm].
  destruct (String.eqb k k0); constructor; auto.
Qed.

Lemma wf_state_AddTypedMessage (Typeless type : MessageType)
    (message : string) (ms argb : Z) (ic : option Icon) (stack : string)
    (pd : bool) (sc : Q) (t : Z) (s : State) :
  wf_state s ->
  wf_state (AddTypedMessage Typeless type message ms argb ic stack pd sc t s).
Proof.
  intros Hwf. unfold AddTypedMessage.
  destruct (pd && HasMessage _ message type); [exact Hwf|].
  apply wf_state_assign; [exact Hwf|]. simpl.
  apply emplace_sorted.
  pose proof (wf_state_deref (resolve stack s) s Hwf) as Hs.
  destruct (negb (type =? Typeless)); [|exact Hs].
  apply (key_sorted_keys (messages (deref (resolve stack s) s)));
    [|exact Hs].
  symmetry. apply discard_range_keys.
Qed.

Lemma wf_state_AddMessageStack (x y : Q) (d : MessageStackDirection)
    (c r : bool) (n : string) (s : State) :
  wf_state s -> wf_state (AddMessageStack x y d c r n s).
Proof.
  intros [Hd Hm]. split; [exact Hd|]. simpl.
  induction (messageStacks s) as [|[k0 v0] tl IH]; simpl.
  - constructor; [apply key_sorted_nil|constructor].
  - pose proof Hm as Hm0. apply Forall_cons_iff in Hm as [H0 Hm].
    destruct (String.compare n k0).
    + exact Hm0.
    + constructor; [apply key_sorted_nil|exact Hm0].
    + constructor; [exact H0|now apply IH].
Qed.

Lemma wf_state_DrawMessages (e : Env) (s : State) :
  wf_state s -> wf_state (fst (DrawMessages e s)).
Proof.
  intros [Hd Hm]. unfold DrawMessages.
  pose proof (DrawMessages_stack_sorted e s (s_defaultMessageStack s) Hd)
    as Hd'.
  destruct (DrawMessages_stack e s (s_defaultMessageStack s)) as [d' tr].
  assert (Hn : Forall (fun kv => key_sorted (messages (snd kv)))
                      (fst (draw_named e s (messageStacks s)))).
  { induction (messageStacks s) as [|[k0 v0] tl IH]; simpl; [constructor|].
    apply Forall_cons_iff in Hm as [H0 Hm].
    pose proof (DrawMessages_stack_sorted e s v0 H0) as H0'.
    destruct (DrawMessages_stack e s v0) as [st' tr0].
    specialize (IH Hm). destruct (draw_named e s tl) as [tl' trs].
    constructor; assumption. }
  destruct (draw_named e s (messageStacks s)) as [m' trs].
  split; assumption.
Qed.

Lemma wf_state_ClearMessages (s : State) : wf_state (ClearMessages s).
Proof.
  split; simpl; [apply key_sorted_nil|].
  apply Forall_forall. intros kv Hin. apply in_map_iff in Hin as (x & <- & _).
  apply key_sorted_nil.
Qed.

Lemma reachable_wf (Typeless : MessageType) (s : State) :
  reachable Typeless s -> wf_state s.
Proof.
  induction 1 as [|o s _ IH].
  - split; [apply key_sorted_nil|constructor].
  - destruct o; simpl.
    + now apply wf_state_AddTypedMessage.
    + now apply wf_state_AddTypedMessage.
    + now apply wf_state_AddMessageStack.
    + now apply wf_state_DrawMessages.
    + apply wf_state_ClearMessages.
    + exact IH.
    + exact IH.
Qed.

(** ** The model on concrete inputs *)

(** Equal keys keep their insertion order, smaller keys come first. *)
Example emplace_by_key_then_insertion :
  map (fun en => (fst en, text (snd en)))
      (messages (s_defaultMessageStack Scenario.echoes))
  = [(0, "hi"%string); (0, "bye"%string); (1, "hi"%string)].
Proof. reflexivity. Qed.

(** After 500 ms "Saved" has 1500 ms left and, once drawn, alpha 1; with
    drawing enabled throughout it is removed by the pass at 2500 ms. *)
Example saved_scenario :
  let drawn := fst (DrawMessages (Scenario.frame true true 0)
                                 Scenario.saved) in
  let at_500 := DrawMessages (Scenario.frame true true 500) drawn in
  let at_2500 := DrawMessages (Scenario.frame true true 2500) (fst at_500) in
  map (fun v => TimeRemaining 500 (v_msg v))
      (snd (DrawMessages_stack (Scenario.frame true true 500) drawn
              (s_defaultMessageStack drawn)))
  = [1500]
  /\ map d_alpha
         (draws (snd (DrawMessages_stack (Scenario.frame true true 500) drawn
                        (s_defaultMessageStack drawn))))
     = [1%Q]
  /\ messages (s_defaultMessageStack (fst at_500)) <> []
  /\ messages (s_defaultMessageStack (fst at_2500)) = [].
Proof.
  vm_compute. repeat split. discriminate.
Qed.

(** The colour 0xFF00FF00 is opaque green; the components of 0x80402010
    are the floats nearest to 64/255, 32/255, 16/255 and 128/255. *)
Example opaque_green :
  ARGBToImVec4 4278255360 = mkImVec4 0 1 0 1
  /\ ARGBToImVec4 2151686160
     = mkImVec4 (8421505 # 2 ^ 25) (8421505 # 2 ^ 26) (8421505 # 2 ^ 27)
                (8421505 # 2 ^ 24).
Proof. split; reflexivity. Qed.

(** A message that outlives the fade window fades over its last second. *)
Example fading_alpha :
  spec_alpha 2000 250 = (250 # 1000)%Q /\ spec_alpha 300 150 = (150 # 300)%Q.
Proof. split; reflexivity. Qed.

(** ** Expiry (C1) *)

(** C1, as stated, fails: the pass also erases every entry marked
    [should_discard], whatever its remaining time.  In [Scenario.replaced]
    the message "old" is erased at clock 100 with 9900 ms left. *)
Lemma C1_marked_entry_removed_with_time_left :
  ~ (forall (e : Env) (s : State) (st : OSDMessageStack) (v : Visit),
        In v (snd (DrawMessages_stack e s st)) ->
        0 <= duration (v_msg v) <= u32_max ->
        0 <= now e - timer (v_msg v) < 2 ^ 63 ->
        let timeLeft := duration (v_msg v) - (now e - timer (v_msg v)) in
        removed (v_outcome v) = true <->
        timeLeft <= 0
        /\ (ever_drawn (v_msg v) = true \/ 5000 <= - timeLeft)).
Proof.
  intros H.
  specialize (H (Scenario.frame true true 100) Scenario.replaced
                (s_defaultMessageStack Scenario.replaced)
                Scenario.visit_old).
  assert (Hin : In Scenario.visit_old
                   (snd (DrawMessages_stack (Scenario.frame true true 100)
                           Scenario.replaced
                           (s_defaultMessageStack Scenario.replaced)))).
  { vm_compute. left. reflexivity. }
  specialize (H Hin). simpl in H.
  assert (Hd : 0 <= 10000 <= u32_max) by (unfold u32_max; lia).
  assert (He : 0 <= 100 - 0 < 2 ^ 63) by lia.
  destruct (H Hd He) as [H1 _].
  destruct (H1 eq_refl) as [Hle _]. lia.
Qed.

(** C1, amended: a visited message is removed exactly when it is marked
    [should_discard], or its remaining time [timeLeft = duration - elapsed]
    is [<= 0] and either [ever_drawn] holds or [-timeLeft >= 5000].  What the
    pass leaves in the stack is what the visits left behind.  For an unmarked
    message with [duration = 0]: before 5000 ms it survives the pass, and is
    drawn (and becomes [ever_drawn]) exactly when drawing is enabled; once
    drawn it is removed by the next visit; never drawn, it is removed by the
    first visit at which 5000 ms have elapsed. *)
Theorem C1_removal_rule (e : Env) (s : State) (st : OSDMessageStack)
    (v : Visit) :
  In v (snd (DrawMessages_stack e s st)) ->
  0 <= duration (v_msg v) <= u32_max ->
  0 <= now e - timer (v_msg v) < 2 ^ 63 ->
  let m := v_msg v in
  let timeLeft := duration m - (now e - timer m) in
  visit_order st (messages (fst (DrawMessages_stack e s st)))
  = survivors (snd (DrawMessages_stack e s st))
  /\ (removed (v_outcome v) = true <->
      should_discard m = true
      \/ (timeLeft <= 0 /\ (ever_drawn m = true \/ 5000 <= - timeLeft)))
  /\ (duration m = 0 -> should_discard m = false -> ever_drawn m = false ->
      now e - timer m < 5000 ->
      exists d after,
        v_outcome v = Survived timeLeft d after
        /\ (d = None <-> draw_messages e = false)
        /\ ever_drawn after = draw_messages e)
  /\ (duration m = 0 -> ever_drawn m = true -> removed (v_outcome v) = true)
  /\ (duration m = 0 -> 5000 <= now e - timer m ->
      removed (v_outcome v) = true).
Proof.
  intros Hin Hd He m timeLeft.
  destruct (DrawMessages_stack_visits e s st v Hin) as [c Hc].
  pose proof (TimeRemaining_exact (now e) m Hd He) as Htl.
  fold timeLeft in Htl.
  assert (Hrem : removed (v_outcome v) = true <->
                 should_discard m = true
                 \/ (timeLeft <= 0
                     /\ (ever_drawn m = true \/ 5000 <= - timeLeft))).
  { rewrite Hc, visit_outcome_removed. fold m. rewrite Htl.
    rewrite orb_true_iff, expired_iff. reflexivity. }
  split; [apply DrawMessages_stack_messages|].
  split; [exact Hrem|].
  split; [|split].
  - intros H0 Hsd Hed Hlt.
    assert (Hx : expired (TimeRemaining (now e) m) m = false).
    { apply not_true_is_false. rewrite Htl, expired_iff.
      intros [_ [Hk|Hk]]; [congruence|]. unfold timeLeft, m in *. lia. }
    destruct (visit_outcome_survived e st c m Hsd Hx)
      as (d & after & Ho & Hnone & Hoff & Hon).
    exists d, after. rewrite Hc. fold m. rewrite Ho, Htl.
    split; [reflexivity|]. split; [exact Hnone|].
    destruct (draw_messages e).
    + destruct (Hon eq_refl) as (ic & tx & ->). reflexivity.
    + rewrite (Hoff eq_refl). exact Hed.
  - intros H0 Hed. apply Hrem. right. unfold timeLeft, m in *.
    split; [lia|]. now left.
  - intros H0 Hlate. apply Hrem. right. unfold timeLeft, m in *.
    split; [lia|]. right. lia.
Qed.

(** An instance: the 0 ms message of [Scenario.flash], never drawn, is
    removed by the pass at clock 5000. *)
Lemma C1_removal_rule_witness :
  In Scenario.visit_flash_late
     (snd (DrawMessages_stack (Scenario.frame false true 5000) Scenario.flash
             (s_defaultMessageStack Scenario.flash)))
  /\ removed (v_outcome Scenario.visit_flash_late) = true.
Proof.
  assert (Hin : In Scenario.visit_flash_late
                   (snd (DrawMessages_stack (Scenario.frame false true 5000)
                           Scenario.flash
                           (s_defaultMessageStack Scenario.flash)))).
  { vm_compute. left. reflexivity. }
  split; [exact Hin|].
  assert (Hd : 0 <= duration (v_msg Scenario.visit_flash_late) <= u32_max).
  { vm_compute. split; discriminate. }
  assert (He : 0 <= now (Scenario.frame false true 5000)
                    - timer (v_msg Scenario.visit_flash_late) < 2 ^ 63).
  { vm_compute. split; [discriminate|reflexivity]. }
  destruct (C1_removal_rule _ _ _ _ Hin Hd He) as (_ & _ & _ & _ & Hlate).
  apply Hlate; [reflexivity|]. vm_compute. discriminate.
Defined.

(** ** Fade factor (C2) *)

Lemma Qle_bool_inject_Z (a b : Z) :
  Qle_bool (inject_Z a) (inject_Z b) = (a <=? b).
Proof.
  unfold Qle_bool, inject_Z. simpl. now rewrite !Z.mul_1_r.
Qed.

(** [max(min(MESSAGE_FADE_TIME, duration), 1)] is
    [clamp(duration, 1, MESSAGE_FADE_TIME)]. *)
Lemma fade_time_is_clamp (d : Z) :
  std_max (std_min MESSAGE_FADE_TIME (inject_Z d)) 1
  = std_clamp (inject_Z d) 1 MESSAGE_FADE_TIME.
Proof.
  unfold std_max, std_min, std_clamp, fltb.
  change MESSAGE_FADE_TIME with (inject_Z 1000).
  change 1%Q with (inject_Z 1).
  repeat (rewrite ?Qle_bool_inject_Z;
          match goal with
          | |- context [?a <=? ?b] => destruct (Z.leb_spec a b)
          end; cbn [negb]);
    try reflexivity; try lia.
  f_equal. lia.
Qed.

Lemma DrawMessage_alpha (e : Env) (i : Z) (m : Message) (p : ImVec2)
    (tl : Z) (st : OSDMessageStack) :
  d_alpha (snd (DrawMessage e i m p tl st))
  = if ever_drawn m
    then std_clamp
           (to_float
              (to_float (inject_Z tl)
               / std_max
                   (std_min MESSAGE_FADE_TIME
                            (to_float (inject_Z (duration m)))) 1))
           0 1
    else 1%Q.
Proof.
  unfold DrawMessage.
  destruct (begin_visible (backend e (name st) i)); [|reflexivity].
  destruct (icon m) as [ic|]; [|reflexivity].
  destruct (texture m) as [t|]; [reflexivity|].
  now destruct (create_texture_ok (backend e (name st) i)).
Qed.

Lemma visit_outcome_drawn (e : Env) (st : OSDMessageStack) (c : Cursor)
    (m : Message) (tl : Z) (d : DrawRecord) (after : Message) :
  visit_outcome e st c m = Survived tl (Some d) after ->
  tl = TimeRemaining (now e) m
  /\ draw_messages e = true
  /\ DrawMessage e (index c) m (mkImVec2 (current_x c) (current_y c))
                 (int_of_s64 tl) st
     = (after, d_size d, d)
  /\ should_discard m = false
  /\ expired tl m = false.
Proof.
  unfold visit_outcome.
  destruct (should_discard m); [discriminate|].
  destruct (expired (TimeRemaining (now e) m) m) eqn:Hx; [discriminate|].
  destruct (draw_messages e); [|discriminate].
  destruct (DrawMessage e (index c) m _ _ st) as [[msg' sz] rec] eqn:Hdm.
  intros H. injection H as <- <- <-.
  repeat split; auto.
  rewrite Hdm. f_equal. f_equal.
  unfold DrawMessage in Hdm.
  destruct (begin_visible (backend e (name st) (index c))).
  - destruct (icon m) as [ic|].
    + destruct (texture m) as [t|].
      * injection Hdm as _ <- <-. reflexivity.
      * destruct (create_texture_ok (backend e (name st) (index c)));
          injection Hdm as _ <- <-; reflexivity.
    + injection Hdm as _ <- <-. reflexivity.
  - injection Hdm as _ <- <-. reflexivity.
Qed.

(** The fade window of the code: [(float)duration] is rounded, but not below
    1000 once the duration exceeds it, and exactly otherwise. *)
Lemma fade_time_value (d : Z) :
  0 <= d ->
  std_max (std_min MESSAGE_FADE_TIME (to_float (inject_Z d))) 1
  == inject_Z (Z.max 1 (Z.min 1000 d)).
Proof.
  intros Hd. unfold std_max, std_min, fltb, MESSAGE_FADE_TIME.
  destruct (Z_le_gt_dec d 1000) as [Hs|Hl].
  - pose proof (to_float_Z d ltac:(lia)) as E.
    assert (Hq : (inject_Z d <= 1000)%Q).
    { change 1000%Q with (inject_Z 1000). rewrite <- Zle_Qle. exact Hs. }
    destruct (Qle_bool 1000 (to_float (inject_Z d))) eqn:H1; simpl.
    + apply Qle_bool_iff in H1.
      assert (d = 1000).
      { apply Z.le_antisymm; [exact Hs|].
        rewrite Zle_Qle. change (inject_Z 1000) with 1000%Q. lra. }
      subst d. reflexivity.
    + destruct (Qle_bool 1 (to_float (inject_Z d))) eqn:H2; simpl.
      * apply Qle_bool_iff in H2. rewrite E.
        assert (1 <= d).
        { rewrite Zle_Qle. change (inject_Z 1) with 1%Q. lra. }
        now replace (Z.max 1 (Z.min 1000 d)) with d by lia.
      * assert (Hlt : (to_float (inject_Z d) < 1)%Q).
        { apply Qnot_le_lt. intros H. apply Qle_bool_iff in H. congruence. }
        assert (d < 1).
        { rewrite Zlt_Qlt. change (inject_Z 1) with 1%Q. lra. }
        now replace (Z.max 1 (Z.min 1000 d)) with 1 by lia.
  - assert (Hge : (1000 <= to_float (inject_Z d))%Q).
    { rewrite <- (to_float_Z 1000) by lia. apply to_float_mono.
      rewrite <- Zle_Qle. lia. }
    apply Qle_bool_iff in Hge. rewrite Hge. simpl.
    now replace (Z.max 1 (Z.min 1000 d)) with 1000 by lia.
Qed.

Lemma to_float_quotient (a b b' : Q) :
  b == b' -> to_float (a / b) == to_float (a / b').
Proof.
  intros E. apply to_float_comp. now rewrite E.
Qed.

(** The alpha the code computes for a remaining time [tl] (as the [int]
    that [DrawMessage] receives) and a fade window of [fade] ms: 1 from the
    window upwards, 0 from 0 downwards, and in between the float nearest to
    [tl / fade], which is strictly between 0 and 1 and at most [2 ^ -25]
    away from the quotient. *)
Lemma alpha_value (tl fade : Z) (ft : Q) :
  1 <= fade <= 1000 -> ft == inject_Z fade ->
  let a := std_clamp (to_float (to_float (inject_Z tl) / ft)) 0 1 in
  (fade <= tl -> a == 1)
  /\ (tl <= 0 -> a == 0)
  /\ (0 < tl < fade ->
      a == to_float (inject_Z tl / inject_Z fade)
      /\ (0 < a < 1)%Q
      /\ (Qabs (a - inject_Z tl / inject_Z fade) <= 1 # 2 ^ 25)%Q).
Proof.
  intros Hf Eft a.
  assert (Hfq : (1 <= inject_Z fade)%Q).
  { change 1%Q with (inject_Z 1). rewrite <- Zle_Qle. lia. }
  assert (Hfq' : (inject_Z fade <= 1000)%Q).
  { change 1000%Q with (inject_Z 1000). rewrite <- Zle_Qle. lia. }
  assert (Ea : to_float (to_float (inject_Z tl) / ft)
               == to_float (to_float (inject_Z tl) / inject_Z fade)).
  { now apply to_float_quotient. }
  assert (E1 : to_float 1 == 1) by reflexivity.
  assert (E0 : to_float 0 == 0) by reflexivity.
  unfold a, std_clamp, fltb.
  set (x := to_float (to_float (inject_Z tl) / ft)) in *.
  split; [|split].
  - intros Hge.
    assert (Hx : (1 <= x)%Q).
    { rewrite Ea, <- E1. apply to_float_mono.
      apply Qle_shift_div_l; [lra|]. rewrite Qmult_1_l.
      rewrite <- (to_float_Z fade) by lia. apply to_float_mono.
      rewrite <- Zle_Qle. exact Hge. }
    assert (H0 : Qle_bool 0 x = true) by (apply Qle_bool_iff; lra).
    rewrite H0. cbn [negb].
    destruct (Qle_bool x 1) eqn:H1; cbn [negb]; [|reflexivity].
    apply Qle_bool_iff in H1. lra.
  - intros Hle.
    assert (Hx : (x <= 0)%Q).
    { rewrite Ea, <- E0. apply to_float_mono.
      assert (Ht : (to_float (inject_Z tl) <= 0)%Q).
      { rewrite <- E0. apply to_float_mono.
        change 0%Q with (inject_Z 0). rewrite <- Zle_Qle. exact Hle. }
      unfold Qdiv.
      assert (Hi : (0 < / inject_Z fade)%Q) by (apply Qinv_lt_0_compat; lra).
      nra. }
    destruct (Qle_bool 0 x) eqn:H0; cbn [negb]; [|reflexivity].
    apply Qle_bool_iff in H0.
    assert (H1 : Qle_bool x 1 = true) by (apply Qle_bool_iff; lra).
    rewrite H1. cbn [negb]. lra.
  - intros [Hpos Hlt].
    assert (Et : to_float (inject_Z tl) == inject_Z tl)
      by (apply to_float_Z; lia).
    assert (Ex : x == to_float (inject_Z tl / inject_Z fade)).
    { rewrite Ea. apply to_float_comp. now rewrite Et. }
    set (q := (inject_Z tl / inject_Z fade)%Q) in *.
    assert (Hi : (0 < / inject_Z fade)%Q) by (apply Qinv_lt_0_compat; lra).
    assert (Hq1 : (1 # 1000 <= q)%Q).
    { unfold q. apply Qle_shift_div_l; [lra|].
      assert ((1 <= inject_Z tl)%Q).
      { change 1%Q with (inject_Z 1). rewrite <- Zle_Qle. lia. }
      lra. }
    assert (Hq2 : (q <= 999 # 1000)%Q).
    { unfold q. apply Qle_shift_div_r; [lra|].
      assert (H : tl + 1 <= fade) by lia.
      rewrite Zle_Qle, inject_Z_plus in H.
      change (inject_Z 1) with 1%Q in H. lra. }
    pose proof (to_float_mono _ _ Hq1) as L.
    pose proof (to_float_mono _ _ Hq2) as U.
    assert (Lv : (0 < to_float (1 # 1000))%Q) by reflexivity.
    assert (Uv : (to_float (999 # 1000) < 1)%Q) by reflexivity.
    assert (Hx : (0 < x < 1)%Q) by (rewrite Ex; lra).
    assert (H0 : Qle_bool 0 x = true) by (apply Qle_bool_iff; lra).
    assert (H1 : Qle_bool x 1 = true) by (apply Qle_bool_iff; lra).
    rewrite H0, H1. cbn [negb].
    split; [exact Ex|]. split; [exact Hx|].
    pose proof (to_float_error q ltac:(lra)) as Herr.
    apply Qabs_Qle_condition in Herr. apply Qabs_Qle_condition.
    change (1 # 2 ^ 25) with (1 # 33554432) in *. lra.
Qed.

(** As long as the remaining time fits the [int] parameter of [DrawMessage],
    the alpha of a draw is the fade factor of the specification up to the
    rounding of the quotient ([2 ^ -25] at most), and 1 on the first
    draw. *)
Lemma alpha_within_int_range (e : Env) (s : State) (st : OSDMessageStack)
    (v : Visit) (tl : Z) (d : DrawRecord) (after : Message) :
  In v (snd (DrawMessages_stack e s st)) ->
  v_outcome v = Survived tl (Some d) after ->
  0 <= duration (v_msg v) <= u32_max ->
  0 <= now e - timer (v_msg v) < 2 ^ 63 ->
  duration (v_msg v) - (now e - timer (v_msg v)) < 2 ^ 31 ->
  (Qabs (d_alpha d
         - (if ever_drawn (v_msg v)
            then spec_alpha (duration (v_msg v))
                            (duration (v_msg v) - (now e - timer (v_msg v)))
            else 1))
   <= 1 # 2 ^ 25)%Q.
Proof.
  intros Hin Ho Hd He Hint.
  destruct (DrawMessages_stack_visits e s st v Hin) as [c Hc].
  rewrite Ho in Hc. symmetry in Hc.
  destruct (visit_outcome_drawn _ _ _ _ _ _ _ Hc) as (Htl & _ & Hdm & _ & Hx).
  rewrite (TimeRemaining_exact _ _ Hd He) in Htl.
  assert (Hlow : - 5000 < tl).
  { destruct (Z_lt_le_dec (- 5000) tl) as [?|Hle]; [assumption|].
    assert (expired tl (v_msg v) = true); [|congruence].
    apply expired_iff. split; [lia|]. right. lia. }
  replace d with (snd (DrawMessage e (index c) (v_msg v)
                         (mkImVec2 (current_x c) (current_y c))
                         (int_of_s64 tl) st)) by now rewrite Hdm.
  rewrite DrawMessage_alpha.
  destruct (ever_drawn (v_msg v)) eqn:Hed.
  2:{ apply Qabs_Qle_condition. split; vm_compute; discriminate. }
  rewrite int_of_s64_small by lia. rewrite <- Htl.
  assert (Hpos : 0 < tl).
  { destruct (Z_lt_le_dec 0 tl) as [?|Hle]; [assumption|].
    assert (expired tl (v_msg v) = true); [|congruence].
    apply expired_iff. split; [exact Hle|]. now left. }
  set (fade := Z.max 1 (Z.min 1000 (duration (v_msg v)))).
  assert (Hf : 1 <= fade <= 1000) by (unfold fade; lia).
  pose proof (fade_time_value (duration (v_msg v)) (proj1 Hd)) as Eft.
  fold fade in Eft.
  destruct (alpha_value tl fade _ Hf Eft) as (A1 & _ & A3).
  assert (Es : spec_alpha (duration (v_msg v)) tl
               == std_clamp (inject_Z tl / inject_Z fade) 0 1).
  { unfold spec_alpha.
    replace (std_clamp (inject_Z (duration (v_msg v))) 1 MESSAGE_FADE_TIME)
      with (inject_Z fade); [reflexivity|].
    unfold std_clamp, fltb, fade.
    change MESSAGE_FADE_TIME with (inject_Z 1000).
    change 1%Q with (inject_Z 1).
    rewrite !Qle_bool_inject_Z.
    destruct (Z.leb_spec 1 (duration (v_msg v))); simpl.
    - destruct (Z.leb_spec (duration (v_msg v)) 1000); simpl; f_equal; lia.
    - f_equal. lia. }
  assert (Hfq : (1 <= inject_Z fade)%Q).
  { change 1%Q with (inject_Z 1). rewrite <- Zle_Qle. lia. }
  assert (Hi : (0 < / inject_Z fade)%Q) by (apply Qinv_lt_0_compat; lra).
  assert (Htq : (0 < inject_Z tl)%Q).
  { change 0%Q with (inject_Z 0). rewrite <- Zlt_Qlt. exact Hpos. }
  destruct (Z_le_gt_dec fade tl) as [Hge|Hlt].
  - rewrite (A1 Hge), Es.
    assert (Hq : (1 <= inject_Z tl / inject_Z fade)%Q).
    { apply Qle_shift_div_l; [lra|]. rewrite Qmult_1_l.
      rewrite <- Zle_Qle. exact Hge. }
    unfold std_clamp, fltb.
    assert (H0 : Qle_bool 0 (inject_Z tl / inject_Z fade) = true)
      by (apply Qle_bool_iff; lra).
    rewrite H0. cbn [negb].
    destruct (Qle_bool (inject_Z tl / inject_Z fade) 1) eqn:H1; cbn [negb].
    + apply Qle_bool_iff in H1.
      apply Qabs_Qle_condition.
      change (1 # 2 ^ 25) with (1 # 33554432). lra.
    + apply Qabs_Qle_condition. split; vm_compute; discriminate.
  - destruct (A3 ltac:(lia)) as (_ & _ & Herr).
    rewrite Es.
    assert (Hq : (0 < inject_Z tl / inject_Z fade < 1)%Q).
    { split.
      - unfold Qdiv. nra.
      - apply Qlt_shift_div_r; [lra|]. rewrite Qmult_1_l.
        rewrite <- Zlt_Qlt. lia. }
    unfold std_clamp at 2. unfold fltb.
    assert (H0 : Qle_bool 0 (inject_Z tl / inject_Z fade) = true)
      by (apply Qle_bool_iff; lra).
    assert (H1 : Qle_bool (inject_Z tl / inject_Z fade) 1 = true)
      by (apply Qle_bool_iff; lra).
    rewrite H0, H1. cbn [negb]. exact Herr.
Qed.

(** C2 fails on the code for a remaining time of 2^31 ms or more: the [s64]
    is narrowed to the [int] parameter of [DrawMessage] and turns negative.
    The message of [Scenario.long_lived] (duration 3000000000 ms, already
    drawn once) is drawn at clock 16 with alpha 0, where the fade factor
    [clamp(timeLeft / clamp(duration, 1, 1000), 0, 1)] is 1. *)
Theorem C2_alpha_lost_by_narrowing :
  map (fun v => (ever_drawn (v_msg v), duration (v_msg v),
                 TimeRemaining 16 (v_msg v)))
      (snd (DrawMessages_stack (Scenario.frame true true 16)
              Scenario.long_lived
              (s_defaultMessageStack Scenario.long_lived)))
  = [(true, 3000000000, 2999999984)]
  /\ map d_alpha
         (draws (snd (DrawMessages_stack (Scenario.frame true true 16)
                        Scenario.long_lived
                        (s_defaultMessageStack Scenario.long_lived))))
     = [0%Q]
  /\ spec_alpha 3000000000 2999999984 = 1%Q
  /\ int_of_s64 2999999984 = -1294967312.
Proof.
  vm_compute. repeat split; reflexivity.
Qed.

(** ** Replacement of typed messages (C3) *)

Lemma discard_range_none_stays (e : Env) (type : MessageType)
    (l : multimap) (en : MessageType * Message) :
  In en (discard_range type l) -> fst en = type -> stays e en = false.
Proof.
  unfold discard_range. rewrite in_map_iff.
  intros ([ty m] & Hen & _) Hk. simpl in Hen.
  destruct (Z.eqb_spec ty type) as [->|Hne].
  - subst en. reflexivity.
  - subst en. simpl in Hk. contradiction.
Qed.

Lemma filter_nil_iff {A : Type} (f : A -> bool) (l : list A) :
  (forall a, In a l -> f a = false) -> filter f l = [].
Proof.
  induction l as [|a l IH]; intros H; simpl; [reflexivity|].
  rewrite (H a (or_introl eq_refl)). apply IH. intros b Hb. apply H.
  now right.
Qed.

(** C3: a call with a tag other than [Typeless] and [prevent_duplicate =
    false] removes nothing: it marks every entry of the target stack that has
    the same tag, and adds the new message (after the entries whose tag is
    not greater); no other stack changes.  The next draw pass of that stack
    leaves no marked entry,
    and of the entries with that tag only the new message, which is there
    unless it has itself expired. *)
Theorem C3_typed_replacement (Typeless type : MessageType) (message : string)
    (ms argb : Z) (ic : option Icon) (stack : string) (sc : Q) (t : Z)
    (s : State) :
  type <> Typeless ->
  let target := resolve stack s in
  let new := Message_new message ms argb ic sc t in
  let s' :=
    AddTypedMessage Typeless type message ms argb ic stack false sc t s in
  (exists l1 l2,
      messages (deref target s') = l1 ++ (type, new) :: l2
      /\ l1 ++ l2
         = map (fun en => if fst en =? type
                          then (fst en, set_should_discard true (snd en))
                          else en)
               (messages (deref target s))
      /\ Forall (fun en => fst en <= type) l1)
  /\ List.length (messages (deref target s'))
     = S (List.length (messages (deref target s)))
  /\ (forall en, In en (messages (deref target s)) -> fst en = type ->
      In (type, set_should_discard true (snd en))
         (messages (deref target s')))
  /\ (forall r', r' <> target -> deref r' s' = deref r' s)
  /\ forall e : Env,
       let after :=
         messages (fst (DrawMessages_stack e s' (deref target s'))) in
       Forall (fun en => should_discard (snd en) = false) after
       /\ (forall en, In en after -> fst en = type ->
           drawn_from e (type, new) en)
       /\ List.length (filter (fun en => fst en =? type) after)
          = if expired (TimeRemaining (now e) new) new then 0%nat else 1%nat.
Proof.
  intros Hty target new s'.
  assert (Htarget : deref target s'
                    = set_messages
                        (emplace type new
                           (discard_range type (messages (deref target s))))
                        (deref target s)).
  { unfold s', target.
    rewrite (AddTypedMessage_target Typeless type message ms argb ic stack
               false sc t s eq_refl).
    destruct (Z.eqb_spec type Typeless); [contradiction|reflexivity]. }
  destruct (emplace_split type new
              (discard_range type (messages (deref target s))))
    as (l1 & l2 & Hem & Hold & Hle & _).
  assert (Hmsgs : messages (deref target s') = l1 ++ (type, new) :: l2).
  { rewrite Htarget. simpl. exact Hem. }
  assert (Hmarked : forall en, In en (l1 ++ l2) -> fst en = type ->
                               forall e, stays e en = false).
  { intros en Hin Hk e. rewrite <- Hold in Hin.
    exact (discard_range_none_stays e type _ en Hin Hk). }
  split; [|split; [|split; [|split]]].
  - exists l1, l2. repeat split; [exact Hmsgs| |exact Hle].
    symmetry. exact Hold.
  - rewrite Htarget. simpl. rewrite emplace_length.
    unfold discard_range. now rewrite length_map.
  - intros [ty m] Hin Hk. simpl in Hk. subst ty. simpl.
    assert (Hin' : In (type, set_should_discard true m) (l1 ++ l2)).
    { rewrite <- Hold. unfold discard_range. apply in_map_iff.
      exists (type, m). simpl. now rewrite Z.eqb_refl. }
    rewrite Hmsgs. apply in_app_or in Hin' as [H|H]; apply in_or_app;
      [now left|right; now right].
  - intros r' Hne. now apply AddTypedMessage_frame.
  - intros e after.
    pose proof (DrawMessages_stack_kept e s' (deref target s')) as Hkept.
    fold after in Hkept.
    split; [|split].
    + apply Forall_forall. intros en Hin.
      destruct (DrawMessages_stack_origin e s' _ en Hin)
        as (en0 & _ & Hst & Hfrom).
      apply drawn_from_fields in Hfrom as (_ & _ & _ & _ & _ & _ & Hsd & _).
      rewrite Hsd. unfold stays in Hst.
      apply andb_true_iff in Hst as [Hst _].
      now apply negb_true_iff in Hst.
    + intros en Hin Hk.
      destruct (DrawMessages_stack_origin e s' _ en Hin)
        as (en0 & H0 & Hst & Hfrom).
      rewrite Hmsgs in H0.
      assert (Hk0 : fst en0 = type) by (destruct Hfrom as [<- _]; exact Hk).
      apply in_app_or in H0 as [H0|[H0|H0]].
      * rewrite (Hmarked en0) in Hst; [discriminate| |exact Hk0].
        apply in_or_app. now left.
      * now subst en0.
      * rewrite (Hmarked en0) in Hst; [discriminate| |exact Hk0].
        apply in_or_app. now right.
    + rewrite (filter_key_length (fun k => k =? type) _ _
                 (Forall2_keys e _ _ Hkept)).
      rewrite Hmsgs, !filter_app. simpl.
      assert (Hnil : forall l, (forall en, In en l -> In en (l1 ++ l2)) ->
                filter (fun en => fst en =? type) (filter (stays e) l) = []).
      { intros l Hl. apply filter_nil_iff. intros en Hen.
        apply filter_In in Hen as [Hen Hst].
        destruct (Z.eqb_spec (fst en) type) as [Hk|]; [|reflexivity].
        rewrite (Hmarked en (Hl en Hen) Hk e) in Hst. discriminate. }
      rewrite (Hnil l1) by (intros; apply in_or_app; now left).
      unfold stays at 1. simpl.
      destruct (expired (TimeRemaining (now e) new) new); simpl.
      * rewrite Hnil; [reflexivity|].
        intros; apply in_or_app; now right.
      * rewrite Z.eqb_refl. simpl. rewrite Hnil; [reflexivity|].
        intros; apply in_or_app; now right.
Qed.

(** An instance: the second call of [Scenario.replaced] leaves two entries
    in the default stack. *)
Lemma C3_typed_replacement_witness :
  (0 <> Scenario.Typeless)
  /\ List.length (messages (s_defaultMessageStack Scenario.replaced)) = 2%nat.
Proof.
  assert (Hty : 0 <> Scenario.Typeless) by discriminate.
  split; [exact Hty|].
  destruct (C3_typed_replacement Scenario.Typeless 0 "new" 10000 0 None ""
              1 50
              (AddTypedMessage Scenario.Typeless 0 "old" 10000 0 None ""
                 false 1 0 initial_state) Hty) as (_ & Hlen & _).
  exact Hlen.
Defined.

(** ** Duplicate suppression (C4, C10) *)

(** C4: with [prevent_duplicate = true], if the target stack holds a message
    with the same tag and the same text, [AddTypedMessage] (and [AddMessage],
    whose tag is [Typeless]) returns the state it was given: no stack
    changes, nothing is added and nothing is marked. *)
Theorem C4_duplicate_is_noop (Typeless type : MessageType) (message : string)
    (ms argb : Z) (ic : option Icon) (stack : string) (sc : Q) (t : Z)
    (s : State) (m : Message) :
  In (type, m) (messages (deref (resolve stack s) s)) ->
  text m = message ->
  AddTypedMessage Typeless type message ms argb ic stack true sc t s = s
  /\ (type = Typeless ->
      AddMessage Typeless message ms argb ic stack true sc t s = s).
Proof.
  intros Hin Htext.
  assert (H : AddTypedMessage Typeless type message ms argb ic stack true
                              sc t s = s).
  { apply AddTypedMessage_suppressed, HasMessage_iff. now exists m. }
  split; [exact H|]. intros <-. exact H.
Qed.

(** An instance: repeating "flash" on [Scenario.flash] with
    [prevent_duplicate] changes nothing. *)
Lemma C4_duplicate_is_noop_witness :
  In (Scenario.Typeless, Message_new "flash" 0 0 None 1 0)
     (messages (deref (resolve "" Scenario.flash) Scenario.flash))
  /\ AddMessage Scenario.Typeless "flash" 2000 7 None "" true 2 900
                Scenario.flash
     = Scenario.flash.
Proof.
  assert (Hin : In (Scenario.Typeless, Message_new "flash" 0 0 None 1 0)
                   (messages (deref (resolve "" Scenario.flash)
                                    Scenario.flash))).
  { vm_compute. left. reflexivity. }
  split; [exact Hin|].
  exact (proj2 (C4_duplicate_is_noop Scenario.Typeless Scenario.Typeless
                  "flash" 2000 7 None "" 2 900 Scenario.flash _ Hin eq_refl)
               eq_refl).
Defined.

(** C10, as stated, fails in its last part: a message with the same text
    under another tag is untouched.  In [Scenario.echoes] the only "hi" of
    tag 0 is marked, the call for (0, "hi") is suppressed, and after the next
    pass the "hi" of tag 1 is still in the stack. *)
Lemma C10_same_text_other_tag_remains :
  ~ (forall (Typeless type : MessageType) (message : string) (ms argb : Z)
            (ic : option Icon) (stack : string) (sc : Q) (t : Z) (s : State),
        (exists m, In (type, m) (messages (deref (resolve stack s) s))
                   /\ text m = message) ->
        (forall m, In (type, m) (messages (deref (resolve stack s) s)) ->
                   text m = message -> should_discard m = true) ->
        let s' :=
          AddTypedMessage Typeless type message ms argb ic stack true sc t s
        in
        s' = s
        /\ forall (e : Env) (en : MessageType * Message),
             In en (messages (fst (DrawMessages_stack e s'
                                     (deref (resolve stack s') s')))) ->
             text (snd en) <> message).
Proof.
  intros H.
  specialize (H Scenario.Typeless 0 "hi"%string 10000 0 None ""%string
                1%Q 30 Scenario.echoes).
  assert (H1 : exists m,
             In (0, m) (messages (deref (resolve "" Scenario.echoes)
                                        Scenario.echoes))
             /\ text m = "hi"%string).
  { eexists. split; [vm_compute; left; reflexivity|reflexivity]. }
  assert (H2 : forall m,
             In (0, m) (messages (deref (resolve "" Scenario.echoes)
                                        Scenario.echoes)) ->
             text m = "hi"%string -> should_discard m = true).
  { intros m Hin Htext. vm_compute in Hin.
    destruct Hin as [Hin|[Hin|[Hin|[]]]]; inversion Hin; subst m;
      try reflexivity; discriminate Htext. }
  destruct (H H1 H2) as [_ Hnone].
  apply (Hnone (Scenario.frame true true 40)
               (1, set_drawn None None
                     (Message_new "hi" 10000 0 None 1 10))).
  - vm_compute. right. left. reflexivity.
  - reflexivity.
Qed.

(** C10, amended: [HasMessage] does not look at [should_discard].  If the
    target stack holds a message with the given tag and text, and every such
    message is marked, the call with [prevent_duplicate = true] returns the
    state unchanged, and after the next pass the stack holds no message with
    that tag and that text (messages with the same text under another tag are
    not concerned). *)
Theorem C10_suppressed_by_marked_duplicate (Typeless type : MessageType)
    (message : string) (ms argb : Z) (ic : option Icon) (stack : string)
    (sc : Q) (t : Z) (s : State) :
  (exists m, In (type, m) (messages (deref (resolve stack s) s))
             /\ text m = message) ->
  (forall m, In (type, m) (messages (deref (resolve stack s) s)) ->
             text m = message -> should_discard m = true) ->
  let s' :=
    AddTypedMessage Typeless type message ms argb ic stack true sc t s in
  s' = s
  /\ forall (e : Env) (en : MessageType * Message),
       In en (messages (fst (DrawMessages_stack e s'
                               (deref (resolve stack s') s')))) ->
       ~ (fst en = type /\ text (snd en) = message).
Proof.
  intros (m & Hin & Htext) Hall s'.
  assert (Hs : s' = s).
  { unfold s'. apply AddTypedMessage_suppressed, HasMessage_iff.
    now exists m. }
  split; [exact Hs|]. rewrite Hs.
  intros e en Hen [Hk Ht].
  destruct (DrawMessages_stack_origin e s _ en Hen)
    as ([ty0 m0] & H0 & Hst & Hfrom).
  apply drawn_from_fields in Hfrom as (Hk0 & Ht0 & _). simpl in *.
  assert (Hm0 : should_discard m0 = true).
  { apply Hall; [|congruence]. rewrite <- Hk, Hk0. exact H0. }
  unfold stays in Hst. simpl in Hst. rewrite Hm0 in Hst. discriminate.
Qed.

(** An instance: in [Scenario.echoes] the call for (0, "hi") is suppressed
    by the marked entry. *)
Lemma C10_suppressed_by_marked_duplicate_witness :
  (exists m, In (0, m) (messages (deref (resolve "" Scenario.echoes)
                                        Scenario.echoes))
             /\ text m = "hi"%string)
  /\ AddTypedMessage Scenario.Typeless 0 "hi" 10000 0 None "" true 1 30
                     Scenario.echoes
     = Scenario.echoes.
Proof.
  assert (H1 : exists m,
             In (0, m) (messages (deref (resolve "" Scenario.echoes)
                                        Scenario.echoes))
             /\ text m = "hi"%string).
  { eexists. split; [vm_compute; left; reflexivity|reflexivity]. }
  assert (H2 : forall m,
             In (0, m) (messages (deref (resolve "" Scenario.echoes)
                                        Scenario.echoes)) ->
             text m = "hi"%string -> should_discard m = true).
  { intros m Hin Htext. vm_compute in Hin.
    destruct Hin as [Hin|[Hin|[Hin|[]]]]; inversion Hin; subst m;
      try reflexivity; discriminate Htext. }
  split; [exact H1|].
  exact (proj1 (C10_suppressed_by_marked_duplicate Scenario.Typeless 0 "hi"
                  10000 0 None "" 1 30 Scenario.echoes H1 H2)).
Defined.

(** ** Visiting order of a reversed stack (C5) *)

Lemma emplace_order (tb : MessageType) (B : Message) (q1 q2 : multimap)
    (a : MessageType * Message) :
  Forall (fun en => fst en <= fst a) q1 ->
  (fst a <= tb ->
   exists u1 u2,
     emplace tb B (q1 ++ a :: q2) = q1 ++ a :: u1 ++ (tb, B) :: u2)
  /\ (tb < fst a ->
      exists l1 l,
        emplace tb B (q1 ++ a :: q2) = l1 ++ (tb, B) :: l ++ a :: q2).
Proof.
  intros Hq1. split; intros Hk.
  - rewrite emplace_app_le.
    + simpl. destruct (Z.ltb_spec tb (fst a)); [lia|].
      destruct (emplace_split tb B q2) as (u1 & u2 & -> & _).
      now exists u1, u2.
    + eapply Forall_impl; [|exact Hq1]. simpl. intros en Hen. lia.
  - destruct (emplace_split tb B (q1 ++ a :: q2))
      as (l1 & l2 & -> & Hold & Hle & _).
    symmetry in Hold. apply app_eq_app in Hold as [l [[-> Hl]|[-> ->]]].
    + destruct l as [|x l]; simpl in Hl.
      * subst l2. exists q1, []. now rewrite app_nil_r.
      * injection Hl as <- ->.
        apply Forall_app in Hle as [_ Hle].
        apply Forall_cons_iff in Hle as [Hle _]. lia.
    + now exists l1, l.
Qed.

Lemma visited_before_rev (e : Env) (s : State) (st : OSDMessageStack)
    (x1 x2 x3 : multimap) (a b : MessageType * Message) :
  reversed st = true ->
  messages st = x1 ++ a :: x2 ++ b :: x3 ->
  visited_before b a (snd (DrawMessages_stack e s st)).
Proof.
  intros Hr Hm. unfold visited_before.
  rewrite DrawMessages_stack_trace. unfold visit_order. rewrite Hr, Hm.
  exists (rev x3), (rev x2), (rev x1).
  repeat (rewrite rev_app_distr; simpl).
  repeat rewrite <- app_assoc. reflexivity.
Qed.

(** C5, as stated, fails: the container is ordered by tag first.  In the
    newest-first stack of [Scenario.newest_first], "A" (tag 1) is added
    before "B" (tag 0), and the pass meets "A" first. *)
Lemma C5_older_message_with_greater_tag_first :
  ~ (forall (Typeless : MessageType) (s : State) (stack : string)
            (p1 p2 : multimap) (a : MessageType * Message)
            (tb : MessageType) (txt : string) (ms argb : Z)
            (ic : option Icon) (sc : Q) (t : Z) (e : Env),
        reachable Typeless s ->
        reversed (deref (resolve stack s) s) = true ->
        messages (deref (resolve stack s) s) = p1 ++ a :: p2 ->
        let s' :=
          AddTypedMessage Typeless tb txt ms argb ic stack false sc t s in
        let a' :=
          if negb (tb =? Typeless) && (fst a =? tb)
          then (fst a, set_should_discard true (snd a)) else a in
        visited_before (tb, Message_new txt ms argb ic sc t) a'
          (snd (DrawMessages_stack e s' (deref (resolve stack s) s')))).
Proof.
  intros H.
  assert (Hreach : reachable Scenario.Typeless Scenario.newest_first).
  { exact (reachable_step Scenario.Typeless
             (OpAddTypedMessage 1 "A" 10000 0 None "rev" false 1 0) _
             (reachable_step Scenario.Typeless
                (OpAddMessageStack 0 0 Downward false true "rev") _
                (reachable_initial Scenario.Typeless))). }
  specialize (H Scenario.Typeless Scenario.newest_first "rev"%string
                [] [] (1, Message_new "A" 10000 0 None 1 0)
                0 "B"%string 10000 0 None 1%Q 5
                (Scenario.frame true true 10) Hreach eq_refl eq_refl).
  destruct H as (t1 & t2 & t3 & H). vm_compute in H.
  destruct t1 as [|x t1]; simpl in H; [discriminate H|].
  apply (f_equal (@List.length _)) in H. simpl in H.
  rewrite !length_app in H. simpl in H. rewrite length_app in H.
  simpl in H. lia.
Qed.

(** C5, amended: in a stack with [reversed = true], a message B added while
    A is in the stack is visited before A exactly when A's tag is not
    greater than B's (in particular when the tags are equal); when A's tag is
    greater, A is visited first.  (If B has A's tag and that tag is not
    [Typeless], A is visited as a marked entry.) *)
Theorem C5_reversed_visit_order (Typeless : MessageType) (s : State)
    (stack : string) (p1 p2 : multimap) (a : MessageType * Message)
    (tb : MessageType) (txt : string) (ms argb : Z) (ic : option Icon)
    (sc : Q) (t : Z) (e : Env) :
  reachable Typeless s ->
  reversed (deref (resolve stack s) s) = true ->
  messages (deref (resolve stack s) s) = p1 ++ a :: p2 ->
  let s' := AddTypedMessage Typeless tb txt ms argb ic stack false sc t s in
  let a' :=
    if negb (tb =? Typeless) && (fst a =? tb)
    then (fst a, set_should_discard true (snd a)) else a in
  let tr := snd (DrawMessages_stack e s' (deref (resolve stack s) s')) in
  (fst a <= tb ->
   visited_before (tb, Message_new txt ms argb ic sc t) a' tr)
  /\ (tb < fst a ->
      visited_before a' (tb, Message_new txt ms argb ic sc t) tr).
Proof.
  intros Hreach Hrev Hmsgs s' a' tr.
  pose proof (wf_state_deref (resolve stack s) s
                (reachable_wf Typeless s Hreach)) as Hs.
  rewrite Hmsgs in Hs.
  pose proof (key_sorted_prefix _ _ _ Hs) as Hp1.
  assert (Hka : fst a' = fst a).
  { unfold a'. now destruct (negb (tb =? Typeless) && (fst a =? tb)). }
  assert (Hmark : exists q1 q2,
             (if negb (tb =? Typeless)
              then discard_range tb (p1 ++ a :: p2) else p1 ++ a :: p2)
             = q1 ++ a' :: q2
             /\ Forall (fun en => fst en <= fst a') q1).
  { unfold a'. destruct (negb (tb =? Typeless)); simpl.
    - exists (discard_range tb p1), (discard_range tb p2). split.
      + unfold discard_range. now rewrite map_app.
      + apply Forall_forall. intros en Hen.
        unfold discard_range in Hen. apply in_map_iff in Hen as (x & <- & Hx).
        rewrite Forall_forall in Hp1. specialize (Hp1 x Hx).
        destruct (fst x =? tb), (fst a =? tb); simpl; exact Hp1.
    - now exists p1, p2. }
  destruct Hmark as (q1 & q2 & Hmark & Hq1).
  assert (Htarget : deref (resolve stack s) s'
                    = set_messages
                        (emplace tb (Message_new txt ms argb ic sc t)
                                 (q1 ++ a' :: q2))
                        (deref (resolve stack s) s)).
  { unfold s'.
    rewrite (AddTypedMessage_target Typeless tb txt ms argb ic stack false
               sc t s eq_refl).
    now rewrite Hmsgs, Hmark. }
  destruct (emplace_order tb (Message_new txt ms argb ic sc t) q1 q2 a' Hq1)
    as [Hle Hgt].
  split; intros Hk.
  - destruct (Hle ltac:(lia)) as (u1 & u2 & Hem).
    unfold tr. rewrite Htarget.
    apply (visited_before_rev e s' _ q1 u1 u2); [exact Hrev|].
    simpl. exact Hem.
  - destruct (Hgt ltac:(lia)) as (l1 & l & Hem).
    unfold tr. rewrite Htarget.
    apply (visited_before_rev e s' _ l1 l q2); [exact Hrev|].
    simpl. exact Hem.
Qed.

(** An instance: "B" of tag 1 added after "A" of tag 1 to the newest-first
    stack is visited before "A". *)
Lemma C5_reversed_visit_order_witness :
  reachable Scenario.Typeless Scenario.newest_first
  /\ visited_before
       (1, Message_new "B" 10000 0 None 1 5)
       (1, set_should_discard true (Message_new "A" 10000 0 None 1 0))
       (snd (DrawMessages_stack (Scenario.frame true true 10)
               (AddTypedMessage Scenario.Typeless 1 "B" 10000 0 None "rev"
                  false 1 5 Scenario.newest_first)
               (deref (NamedStack "rev")
                  (AddTypedMessage Scenario.Typeless 1 "B" 10000 0 None "rev"
                     false 1 5 Scenario.newest_first)))).
Proof.
  assert (Hreach : reachable Scenario.Typeless Scenario.newest_first).
  { exact (reachable_step Scenario.Typeless
             (OpAddTypedMessage 1 "A" 10000 0 None "rev" false 1 0) _
             (reachable_step Scenario.Typeless
                (OpAddMessageStack 0 0 Downward false true "rev") _
                (reachable_initial Scenario.Typeless))). }
  split; [exact Hreach|].
  refine (proj1 (C5_reversed_visit_order Scenario.Typeless
                   Scenario.newest_first "rev" [] []
                   (1, Message_new "A" 10000 0 None 1 0)
                   1 "B" 10000 0 None 1 5 (Scenario.frame true true 10)
                   Hreach eq_refl eq_refl) _).
  simpl. lia.
Defined.

(** ** [ever_drawn] (C6) *)

Lemma AddTypedMessage_origin (Typeless type : MessageType) (message : string)
    (ms argb : Z) (ic : option Icon) (stack : string) (pd : bool) (sc : Q)
    (t : Z) (s : State) (en : MessageType * Message) :
  In en (messages (deref (resolve stack s)
                     (AddTypedMessage Typeless type message ms argb ic stack
                        pd sc t s))) ->
  en = (type, Message_new message ms argb ic sc t)
  \/ exists en0, In en0 (messages (deref (resolve stack s) s))
                 /\ fst en = fst en0
                 /\ (snd en = snd en0
                     \/ snd en = set_should_discard true (snd en0)).
Proof.
  destruct (pd && HasMessage (deref (resolve stack s) s) message type)
    eqn:Hsup.
  - unfold AddTypedMessage. rewrite Hsup. intros Hin. right.
    exists en. auto.
  - rewrite (AddTypedMessage_target Typeless type message ms argb ic stack
               pd sc t s Hsup). simpl.
    intros Hin. apply emplace_In in Hin as [->|Hin]; [now left|right].
    destruct (negb (type =? Typeless)).
    + unfold discard_range in Hin. apply in_map_iff in Hin as (en0 & <- & H0).
      exists en0. split; [exact H0|].
      destruct (fst en0 =? type); simpl; auto.
    + exists en. auto.
Qed.




(** ** The stack a call works on (C7, C8) *)

Lemma AddTypedMessage_default_target (Typeless type : MessageType)
    (message : string) (ms argb : Z) (ic : option Icon) (stack : string)
    (pd : bool) (sc : Q) (t : Z) (s : State) :
  map_contains stack (messageStacks s) = false ->
  let s' :=
    AddTypedMessage Typeless type message ms argb ic stack pd sc t s in
  messageStacks s' = messageStacks s
  /\ s_obscured_pixels_left s' = s_obscured_pixels_left s
  /\ s_obscured_pixels_top s' = s_obscured_pixels_top s
  /\ (pd && HasMessage (s_defaultMessageStack s) message type = true ->
      s' = s)
  /\ (pd && HasMessage (s_defaultMessageStack s) message type = false ->
      In (type, Message_new message ms argb ic sc t)
         (messages (s_defaultMessageStack s'))
      /\ List.length (messages (s_defaultMessageStack s'))
         = S (List.length (messages (s_defaultMessageStack s)))).
Proof.
  intros Hreg s'. unfold s', AddTypedMessage.
  rewrite (resolve_unregistered stack s Hreg). simpl.
  destruct (pd && HasMessage (s_defaultMessageStack s) message type).
  - split; [reflexivity|]. split; [reflexivity|]. split; [reflexivity|].
    split; [reflexivity|]. intros Hc. discriminate Hc.
  - simpl. split; [reflexivity|]. split; [reflexivity|].
    split; [reflexivity|]. split; [intros Hc; discriminate Hc|].
    intros _. split.
    + apply emplace_In. now left.
    + rewrite emplace_length.
      destruct (negb (type =? Typeless)); [|reflexivity].
      unfold discard_range. now rewrite length_map.
Qed.

Lemma AddTypedMessage_named_target (Typeless type : MessageType)
    (message : string) (ms argb : Z) (ic : option Icon) (stack : string)
    (pd : bool) (sc : Q) (t : Z) (s : State) :
  map_contains stack (messageStacks s) = true ->
  let s' :=
    AddTypedMessage Typeless type message ms argb ic stack pd sc t s in
  s_defaultMessageStack s' = s_defaultMessageStack s
  /\ (pd && HasMessage (deref (NamedStack stack) s) message type = false ->
      In (type, Message_new message ms argb ic sc t)
         (messages (deref (NamedStack stack) s'))).
Proof.
  intros Hreg s'. split.
  - unfold s', AddTypedMessage.
    rewrite (resolve_registered stack s Hreg).
    now destruct (pd && HasMessage _ message type).
  - intros Hsup. rewrite <- (resolve_registered stack s Hreg) in *.
    unfold s'.
    rewrite (AddTypedMessage_target Typeless type message ms argb ic stack
               pd sc t s Hsup).
    simpl. apply emplace_In. now left.
Qed.

(** C7, as stated, fails: [AddMessageStack] accepts the empty name, and
    after that an empty [stackName] is found in [messageStacks].  In the
    reachable state [Scenario.unnamed_registered] the message goes to the
    registered stack and the default stack stays empty. *)
Lemma C7_registered_empty_name_takes_the_message :
  ~ (forall (Typeless type : MessageType) (message : string) (ms argb : Z)
            (ic : option Icon) (pd : bool) (sc : Q) (t : Z) (s : State),
        reachable Typeless s ->
        messageStacks
          (AddTypedMessage Typeless type message ms argb ic "" pd sc t s)
        = messageStacks s).
Proof.
  intros H.
  assert (Hreach : reachable Scenario.Typeless Scenario.unnamed_registered).
  { exact (reachable_step Scenario.Typeless
             (OpAddMessageStack 0 0 Upward false false "") _
             (reachable_initial Scenario.Typeless)). }
  specialize (H Scenario.Typeless Scenario.Typeless "hi"%string 2000 0 None
                false 1%Q 0 Scenario.unnamed_registered Hreach).
  vm_compute in H. discriminate H.
Qed.

(** C7, amended: a call whose [stackName] is empty works on the default
    stack, the one a [DrawMessages()] processes first, and leaves every
    registered stack as it is, as long as no stack has been registered under
    the empty name: unless the call is suppressed as a duplicate
    ([prevent_duplicate] is set and the default stack already holds the text
    under the tag) the message is added to the default stack, which grows by
    one entry, and when it is suppressed nothing changes.  Once a stack has
    been registered under the empty name, the call works on that registered
    stack in the same way and leaves the default stack as it is. *)
Theorem C7_empty_name_target (Typeless type : MessageType) (message : string)
    (ms argb : Z) (ic : option Icon) (pd : bool) (sc : Q) (t : Z)
    (s : State) :
  let s' := AddTypedMessage Typeless type message ms argb ic "" pd sc t s in
  let new := (type, Message_new message ms argb ic sc t) in
  (map_contains "" (messageStacks s) = false ->
   let suppressed :=
     pd && HasMessage (s_defaultMessageStack s) message type in
   messageStacks s' = messageStacks s
   /\ (suppressed = true -> s' = s)
   /\ (suppressed = false ->
       In new (messages (s_defaultMessageStack s'))
       /\ List.length (messages (s_defaultMessageStack s'))
          = S (List.length (messages (s_defaultMessageStack s))))
   /\ forall e : Env,
        exists rest,
          snd (DrawMessages e s')
          = (name (s_defaultMessageStack s'),
             snd (DrawMessages_stack e s' (s_defaultMessageStack s')))
            :: rest)
  /\ (map_contains "" (messageStacks s) = true ->
      let suppressed :=
        pd && HasMessage (deref (NamedStack "") s) message type in
      s_defaultMessageStack s' = s_defaultMessageStack s
      /\ (suppressed = true -> s' = s)
      /\ (suppressed = false ->
          In new (messages (deref (NamedStack "") s'))
          /\ List.length (messages (deref (NamedStack "") s'))
             = S (List.length (messages (deref (NamedStack "") s)))))
  /\ AddMessage Typeless message ms argb ic "" pd sc t s
     = AddTypedMessage Typeless Typeless message ms argb ic "" pd sc t s.
Proof.
  intros s' new. split; [|split; [|reflexivity]].
  - intros Hreg suppressed.
    destruct (AddTypedMessage_default_target Typeless type message ms argb
                ic "" pd sc t s Hreg) as (Hm & _ & _ & Hsup & Hadd).
    split; [exact Hm|]. split; [exact Hsup|]. split; [exact Hadd|].
    intros e. unfold DrawMessages.
    destruct (DrawMessages_stack e s' (s_defaultMessageStack s'))
      as [d' tr].
    destruct (draw_named e s' (messageStacks s')) as [m' trs].
    now exists trs.
  - intros Hreg suppressed.
    destruct (AddTypedMessage_named_target Typeless type message ms argb ic
                "" pd sc t s Hreg) as (Hd & Hin).
    split; [exact Hd|]. split.
    + intros Hsup. unfold s', AddTypedMessage.
      rewrite (resolve_registered "" s Hreg). fold suppressed.
      now rewrite Hsup.
    + intros Hsup. split; [now apply Hin|].
      pose proof (AddTypedMessage_target Typeless type message ms argb ic ""
                    pd sc t s) as Ht.
      rewrite (resolve_registered "" s Hreg) in Ht.
      fold s' in Ht. rewrite (Ht Hsup). simpl.
      rewrite emplace_length.
      destruct (negb (type =? Typeless)); [|reflexivity].
      unfold discard_range. now rewrite length_map.
Qed.

(** Two instances: in the initial state nothing is registered, the call is
    not suppressed and "flash" is in the default stack afterwards; repeated
    with [prevent_duplicate] on [Scenario.flash], the call changes
    nothing. *)
Lemma C7_empty_name_target_witness :
  map_contains "" (messageStacks initial_state) = false
  /\ messageStacks Scenario.flash = messageStacks initial_state
  /\ In (Scenario.Typeless, Message_new "flash" 0 0 None 1 0)
        (messages (s_defaultMessageStack Scenario.flash))
  /\ AddTypedMessage Scenario.Typeless Scenario.Typeless "flash" 2000 0 None
                     "" true 1 900 Scenario.flash
     = Scenario.flash.
Proof.
  split; [reflexivity|].
  destruct (proj1 (C7_empty_name_target Scenario.Typeless
                     Scenario.Typeless "flash" 0 0 None false 1 0
                     initial_state) eq_refl) as (Hm & _ & Hadd & _).
  split; [exact Hm|]. split; [exact (proj1 (Hadd eq_refl))|].
  destruct (proj1 (C7_empty_name_target Scenario.Typeless
                     Scenario.Typeless "flash" 2000 0 None true 1 900
                     Scenario.flash) eq_refl) as (_ & Hsup & _).
  exact (Hsup eq_refl).
Defined.

(** C8, as stated, fails for a call with [prevent_duplicate = true] whose
    text is already in the default stack under the same tag: the call falls
    back to the default stack and is suppressed there, so no message is
    added. *)
Lemma C8_suppressed_call_adds_nothing :
  ~ (forall (Typeless type : MessageType) (message : string) (ms argb : Z)
            (ic : option Icon) (stack : string) (pd : bool) (sc : Q) (t : Z)
            (s : State),
        map_contains stack (messageStacks s) = false ->
        let s' :=
          AddTypedMessage Typeless type message ms argb ic stack pd sc t s in
        In (type, Message_new message ms argb ic sc t)
           (messages (s_defaultMessageStack s'))
        /\ List.length (messages (s_defaultMessageStack s'))
           = S (List.length (messages (s_defaultMessageStack s)))).
Proof.
  intros H.
  destruct (H Scenario.Typeless Scenario.Typeless "flash"%string 2000 0 None
              "nowhere"%string true 1%Q 900 Scenario.flash eq_refl)
    as [_ Hlen].
  vm_compute in Hlen. discriminate Hlen.
Qed.

(** C8, amended: a call whose [stackName] is not registered works on the
    default stack and leaves every registered stack as it is; it always
    returns a state (there is no failure); unless it is suppressed as a
    duplicate there ([prevent_duplicate] and the default stack already holds
    the text under the tag), it adds the message to the default stack, and
    when it is suppressed nothing changes. *)
Theorem C8_unknown_stack_falls_back (Typeless type : MessageType)
    (message : string) (ms argb : Z) (ic : option Icon) (stack : string)
    (pd : bool) (sc : Q) (t : Z) (s : State) :
  map_contains stack (messageStacks s) = false ->
  let s' :=
    AddTypedMessage Typeless type message ms argb ic stack pd sc t s in
  let suppressed :=
    pd && HasMessage (s_defaultMessageStack s) message type in
  messageStacks s' = messageStacks s
  /\ (suppressed = true -> s' = s)
  /\ (suppressed = false ->
      In (type, Message_new message ms argb ic sc t)
         (messages (s_defaultMessageStack s'))
      /\ List.length (messages (s_defaultMessageStack s'))
         = S (List.length (messages (s_defaultMessageStack s))))
  /\ (type = Typeless ->
      AddMessage Typeless message ms argb ic stack pd sc t s = s').
Proof.
  intros Hreg s' suppressed.
  destruct (AddTypedMessage_default_target Typeless type message ms argb ic
              stack pd sc t s Hreg) as (Hm & _ & _ & Hsup & Hadd).
  repeat split; try assumption.
  - now apply Hadd.
  - now apply Hadd.
  - intros ->. reflexivity.
Qed.

(** An instance: a duplicate sent to an unknown stack is suppressed against
    the default stack. *)
Lemma C8_unknown_stack_falls_back_witness :
  map_contains "nowhere" (messageStacks Scenario.flash) = false
  /\ AddTypedMessage Scenario.Typeless Scenario.Typeless "flash" 2000 0 None
                     "nowhere" true 1 900 Scenario.flash
     = Scenario.flash.
Proof.
  split; [reflexivity|].
  destruct (C8_unknown_stack_falls_back Scenario.Typeless Scenario.Typeless
              "flash" 2000 0 None "nowhere" true 1 900 Scenario.flash
              eq_refl) as (_ & Hsup & _).
  exact (Hsup eq_refl).
Defined.

(** ** Layout of a downward stack (C9) *)












(** * Further properties *)

(** ** The registry of stacks *)

Lemma string_compare_refl (a : string) : String.compare a a = Eq.
Proof.
  induction a as [|c a IH]; simpl; [reflexivity|].
  unfold Ascii.compare. now rewrite N.compare_refl.
Qed.

Lemma string_compare_lt_trans (a b c : string) :
  String.compare a b = Lt -> String.compare b c = Lt ->
  String.compare a c = Lt.
Proof.
  revert b c. induction a as [|x a IH]; intros [|y b] [|z c]; simpl;
    try discriminate; try reflexivity.
  unfold Ascii.compare.
  destruct (N.compare_spec (Ascii.N_of_ascii x) (Ascii.N_of_ascii y)) as [Hxy|Hxy|Hxy];
    try discriminate;
    destruct (N.compare_spec (Ascii.N_of_ascii y) (Ascii.N_of_ascii z)) as [Hyz|Hyz|Hyz];
    try discriminate; intros H1 H2.
  - rewrite Hxy, Hyz, N.compare_refl. now apply (IH b c).
  - rewrite Hxy. apply N.compare_lt_iff in Hyz. now rewrite Hyz.
  - rewrite <- Hyz. apply N.compare_lt_iff in Hxy. now rewrite Hxy.
  - pose proof (N.lt_trans _ _ _ Hxy Hyz) as Hxz.
    apply N.compare_lt_iff in Hxz. now rewrite Hxz.
Qed.

Lemma keys_increasing_nil : keys_increasing [].
Proof.
  intros m1 a m2 b m3 H. destruct m1; discriminate.
Qed.

Lemma keys_increasing_cons (a : string * OSDMessageStack) (l : stack_map) :
  keys_increasing (a :: l) <->
  Forall (fun b => String.compare (fst a) (fst b) = Lt) l
  /\ keys_increasing l.
Proof.
  split.
  - intros Hs. split.
    + apply Forall_forall. intros b Hb.
      apply in_split in Hb as (l2 & l3 & ->).
      exact (Hs [] a l2 b l3 eq_refl).
    + intros l1 x l2 y l3 ->. exact (Hs (a :: l1) x l2 y l3 eq_refl).
  - intros [Hall Hs] l1 x l2 y l3 Heq.
    destruct l1 as [|a' l1]; simpl in Heq; injection Heq as -> ->.
    + rewrite Forall_forall in Hall. apply Hall.
      apply in_or_app. right. now left.
    + exact (Hs l1 x l2 y l3 eq_refl).
Qed.

Lemma keys_increasing_keys (m m' : stack_map) :
  map fst m' = map fst m -> keys_increasing m -> keys_increasing m'.
Proof.
  revert m'. induction m as [|a m IH]; intros [|a' m'] Hk Hs;
    simpl in Hk; try discriminate; [apply keys_increasing_nil|].
  injection Hk as Ha Hk.
  apply keys_increasing_cons in Hs as [Hall Hs].
  apply keys_increasing_cons. split; [|now apply IH].
  rewrite Ha. clear - Hall Hk.
  revert m' Hk. induction Hall as [|b m Hb _ IH]; intros [|b' m'] Hk;
    simpl in Hk; try discriminate; constructor.
  - injection Hk as Hb' _. now rewrite Hb'.
  - injection Hk as _ Hk. now apply IH.
Qed.

Lemma map_contains_In (k : string) (m : stack_map) :
  map_contains k m = true <-> In k (map fst m).
Proof.
  induction m as [|[k0 v0] tl IH]; simpl; [split; [discriminate|tauto]|].
  rewrite orb_true_iff, IH, String.eqb_eq. intuition congruence.
Qed.

Lemma map_find_contains (k : string) (m : stack_map) :
  map_contains k m = true <-> exists st, map_find k m = Some st.
Proof.
  induction m as [|[k0 v0] tl IH]; simpl.
  - split; [discriminate|intros [st H]; discriminate].
  - destruct (String.eqb k k0); simpl; [|exact IH].
    split; [intros _; now exists v0|reflexivity].
Qed.

Lemma map_find_In (k : string) (st : OSDMessageStack) (m : stack_map) :
  map_find k m = Some st -> In (k, st) m.
Proof.
  induction m as [|[k0 v0] tl IH]; simpl; [discriminate|].
  destruct (String.eqb_spec k k0) as [->|Hne].
  - intros H. injection H as ->. now left.
  - intros H. right. now apply IH.
Qed.

(** A key below every key of the map is not in the map. *)
Lemma below_all_not_contained (k : string) (m : stack_map) :
  Forall (fun b => String.compare k (fst b) = Lt) m ->
  map_contains k m = false.
Proof.
  induction 1 as [|[k0 v0] tl H0 _ IH]; simpl; [reflexivity|].
  rewrite IH, orb_false_r. apply String.eqb_neq. intros ->.
  simpl in H0. rewrite string_compare_refl in H0. discriminate.
Qed.

Lemma map_emplace_present (k : string) (v : OSDMessageStack)
    (m : stack_map) :
  keys_increasing m -> map_contains k m = true -> map_emplace k v m = m.
Proof.
  induction m as [|[k0 v0] tl IH]; simpl; intros Hs Hc; [discriminate|].
  apply keys_increasing_cons in Hs as [Hall Hs]. simpl in Hall.
  destruct (String.compare k k0) eqn:E.
  - reflexivity.
  - exfalso.
    assert (Hn : map_contains k ((k0, v0) :: tl) = false).
    { apply below_all_not_contained. constructor; [exact E|].
      eapply Forall_impl; [|exact Hall]. intros b Hb.
      now apply (string_compare_lt_trans k k0 (fst b)). }
    simpl in Hn. congruence.
  - f_equal. apply IH; [exact Hs|].
    destruct (String.eqb_spec k k0) as [->|_]; [|exact Hc].
    rewrite string_compare_refl in E. discriminate.
Qed.

Lemma map_emplace_keys_increasing (k : string) (v : OSDMessageStack)
    (m : stack_map) :
  keys_increasing m -> keys_increasing (map_emplace k v m).
Proof.
  induction m as [|[k0 v0] tl IH]; simpl; intros Hs.
  - apply keys_increasing_cons. split; [constructor|exact Hs].
  - pose proof Hs as Hs0. apply keys_increasing_cons in Hs as [Hall Hs].
    simpl in Hall. destruct (String.compare k k0) eqn:E.
    + exact Hs0.
    + apply keys_increasing_cons. split; [|exact Hs0].
      constructor; [exact E|].
      eapply Forall_impl; [|exact Hall]. intros b Hb.
      now apply (string_compare_lt_trans k k0 (fst b)).
    + apply keys_increasing_cons. split; [|now apply IH].
      assert (Hk : String.compare k0 k = Lt).
      { rewrite String.compare_antisym, E. reflexivity. }
      clear - Hall Hk. simpl.
      induction Hall as [|[k1 v1] tl H1 Htl IHall]; simpl.
      * constructor; [exact Hk|constructor].
      * destruct (String.compare k k1).
        -- constructor; assumption.
        -- constructor; [exact Hk|]. constructor; assumption.
        -- constructor; assumption.
Qed.

Lemma map_find_emplace_new (k : string) (v : OSDMessageStack)
    (m : stack_map) :
  map_contains k m = false -> map_find k (map_emplace k v m) = Some v.
Proof.
  induction m as [|[k0 v0] tl IH]; simpl; intros Hc.
  - now rewrite String.eqb_refl.
  - apply orb_false_iff in Hc as [Hne Hc].
    destruct (String.compare k k0) eqn:E; simpl.
    + apply String.compare_eq_iff in E. subst k0.
      rewrite String.eqb_refl in Hne. discriminate.
    + now rewrite String.eqb_refl.
    + rewrite Hne. now apply IH.
Qed.

Lemma map_find_emplace_other (k k' : string) (v : OSDMessageStack)
    (m : stack_map) :
  k' <> k -> map_find k' (map_emplace k v m) = map_find k' m.
Proof.
  intros Hne. induction m as [|[k0 v0] tl IH]; simpl.
  - apply String.eqb_neq in Hne. now rewrite Hne.
  - destruct (String.compare k k0); simpl.
    + reflexivity.
    + apply String.eqb_neq in Hne. now rewrite Hne.
    + now rewrite IH.
Qed.

Lemma map_emplace_names (k : string) (v : OSDMessageStack) (m : stack_map) :
  name v = k ->
  Forall (fun kv => name (snd kv) = fst kv) m ->
  Forall (fun kv => name (snd kv) = fst kv) (map_emplace k v m).
Proof.
  intros Hv. induction 1 as [|[k0 v0] tl H0 Htl IH]; simpl.
  - constructor; [exact Hv|constructor].
  - destruct (String.compare k k0); repeat constructor; auto.
Qed.

Lemma map_store_keys (k : string) (v : OSDMessageStack) (m : stack_map) :
  map fst (map_store k v m) = map fst m.
Proof.
  induction m as [|[k0 v0] tl IH]; simpl; [reflexivity|].
  destruct (String.eqb k k0); simpl; [reflexivity|]. now rewrite IH.
Qed.

Lemma map_store_names (k : string) (v : OSDMessageStack) (m : stack_map) :
  name v = k ->
  Forall (fun kv => name (snd kv) = fst kv) m ->
  Forall (fun kv => name (snd kv) = fst kv) (map_store k v m).
Proof.
  intros Hv. induction 1 as [|[k0 v0] tl H0 Htl IH]; simpl; [constructor|].
  destruct (String.eqb_spec k k0) as [->|Hne]; constructor; auto.
Qed.

Lemma DrawMessages_stack_settings (e : Env) (s : State)
    (st : OSDMessageStack) :
  settings (fst (DrawMessages_stack e s st)) = settings st.
Proof.
  unfold DrawMessages_stack.
  destruct (reversed st) eqn:Hr.
  - destruct (draw_loop e st (rev (messages st)) _) as [[kept tr] c'].
    unfold settings. simpl. now rewrite Hr.
  - destruct (draw_loop e st (messages st) _) as [[kept tr] c'].
    unfold settings. simpl. now rewrite Hr.
Qed.

Lemma draw_named_keys (e : Env) (s : State) (m : stack_map) :
  map fst (fst (draw_named e s m)) = map fst m
  /\ map fst (snd (draw_named e s m)) = map fst m.
Proof.
  induction m as [|[k0 v0] tl IH]; simpl; [split; reflexivity|].
  destruct (DrawMessages_stack e s v0) as [st' tr].
  destruct (draw_named e s tl) as [tl' trs]. simpl in *.
  destruct IH as [-> ->]. split; reflexivity.
Qed.

Lemma draw_named_find (e : Env) (s : State) (m : stack_map) (k : string) :
  map_find k (fst (draw_named e s m))
  = option_map (fun st => fst (DrawMessages_stack e s st)) (map_find k m).
Proof.
  induction m as [|[k0 v0] tl IH]; simpl; [reflexivity|].
  destruct (DrawMessages_stack e s v0) as [st' tr] eqn:E.
  destruct (draw_named e s tl) as [tl' trs]. simpl in *.
  destruct (String.eqb k k0); [simpl; now rewrite E|exact IH].
Qed.

Lemma draw_named_names (e : Env) (s : State) (m : stack_map) :
  Forall (fun kv => name (snd kv) = fst kv) m ->
  Forall (fun kv => name (snd kv) = fst kv) (fst (draw_named e s m)).
Proof.
  induction 1 as [|[k0 v0] tl H0 Htl IH]; simpl; [constructor|].
  pose proof (DrawMessages_stack_settings e s v0) as Hset.
  destruct (DrawMessages_stack e s v0) as [st' tr].
  destruct (draw_named e s tl) as [tl' trs]. simpl in *.
  constructor; [|exact IH]. simpl.
  unfold settings in Hset. injection Hset as _ _ _ _ ->. exact H0.
Qed.

Lemma registry_ok_deref_name (n : string) (s : State) :
  registry_ok s ->
  map_contains n (messageStacks s) = true ->
  name (deref (NamedStack n) s) = n.
Proof.
  intros (_ & Hn & _) Hc. simpl.
  apply map_find_contains in Hc as [st Hst]. rewrite Hst.
  apply map_find_In in Hst. rewrite Forall_forall in Hn.
  exact (Hn _ Hst).
Qed.

Lemma registry_ok_AddTypedMessage (Typeless type : MessageType)
    (message : string) (ms argb : Z) (ic : option Icon) (stack : string)
    (pd : bool) (sc : Q) (t : Z) (s : State) :
  registry_ok s ->
  registry_ok
    (AddTypedMessage Typeless type message ms argb ic stack pd sc t s).
Proof.
  intros Hok. pose proof Hok as (Hd & Hn & Hk).
  unfold AddTypedMessage.
  destruct (pd && HasMessage _ message type); [exact Hok|].
  unfold resolve.
  destruct (map_contains stack (messageStacks s)) eqn:Hc; simpl.
  - split; [exact Hd|]. split.
    + apply map_store_names; [|exact Hn]. simpl.
      exact (registry_ok_deref_name stack s Hok Hc).
    + apply (keys_increasing_keys (messageStacks s)); [|exact Hk].
      apply map_store_keys.
  - split; [exact Hd|]. split; assumption.
Qed.

Lemma registry_ok_DrawMessages (e : Env) (s : State) :
  registry_ok s -> registry_ok (fst (DrawMessages e s)).
Proof.
  intros (Hd & Hn & Hk). unfold DrawMessages.
  pose proof (DrawMessages_stack_settings e s (s_defaultMessageStack s))
    as Hset.
  destruct (DrawMessages_stack e s (s_defaultMessageStack s)) as [d' tr].
  pose proof (draw_named_names e s _ Hn) as Hn'.
  pose proof (proj1 (draw_named_keys e s (messageStacks s))) as Hk'.
  destruct (draw_named e s (messageStacks s)) as [m' trs].
  unfold registry_ok. simpl in *.
  split; [|split].
  - unfold settings in Hset. injection Hset as _ _ _ _ ->. exact Hd.
  - exact Hn'.
  - now apply (keys_increasing_keys (messageStacks s)).
Qed.

Lemma registry_ok_reachable (Typeless : MessageType) (s : State) :
  reachable Typeless s -> registry_ok s.
Proof.
  induction 1 as [|o s _ IH].
  - split; [reflexivity|]. split; [constructor|apply keys_increasing_nil].
  - destruct o; simpl.
    + now apply registry_ok_AddTypedMessage.
    + now apply registry_ok_AddTypedMessage.
    + destruct IH as (Hd & Hn & Hk). split; [exact Hd|]. simpl. split.
      * now apply map_emplace_names.
      * now apply map_emplace_keys_increasing.
    + now apply registry_ok_DrawMessages.
    + destruct IH as (Hd & Hn & Hk). split; [exact Hd|]. simpl. split.
      * apply Forall_forall. intros kv Hin.
        apply in_map_iff in Hin as ([k0 v0] & <- & Hin). simpl.
        rewrite Forall_forall in Hn. exact (Hn _ Hin).
      * apply (keys_increasing_keys (messageStacks s)); [|exact Hk].
        rewrite map_map. reflexivity.
    + exact IH.
    + exact IH.
Qed.

Lemma reachable_two_stacks :
  reachable Scenario.Typeless Cases.two_stacks.
Proof.
  exact (reachable_step Scenario.Typeless
           (OpAddMessage "hello" 3000 0 None "top" false 1 0) _
           (reachable_step Scenario.Typeless
              (OpAddMessageStack 5 7 Upward true false "top") _
              (reachable_step Scenario.Typeless
                 (OpAddMessageStack 0 0 Leftward false false "side") _
                 (reachable_initial Scenario.Typeless)))).
Defined.

(** X1 ([AddMessageStack]): the first registration of a name wins.  In a
    reachable state, registering a name that is already registered changes
    nothing (the stack keeps its settings and its messages); registering a
    new name makes it found, with an empty stack that has the given
    settings; the other names and the default stack are not affected. *)
Theorem AddMessageStack_first_registration_wins (Typeless : MessageType)
    (s : State) (x y : Q) (d : MessageStackDirection) (c r : bool)
    (n : string) :
  reachable Typeless s ->
  let s' := AddMessageStack x y d c r n s in
  (map_contains n (messageStacks s) = true -> s' = s)
  /\ (map_contains n (messageStacks s) = false ->
      map_find n (messageStacks s')
      = Some (OSDMessageStack_new x y d c r n))
  /\ map_contains n (messageStacks s') = true
  /\ (forall k, k <> n ->
      map_find k (messageStacks s') = map_find k (messageStacks s))
  /\ s_defaultMessageStack s' = s_defaultMessageStack s.
Proof.
  intros Hreach s'.
  destruct (registry_ok_reachable Typeless s Hreach) as (_ & _ & Hk).
  assert (Hpresent : map_contains n (messageStacks s) = true -> s' = s).
  { intros Hc. unfold s', AddMessageStack.
    rewrite (map_emplace_present _ _ _ Hk Hc). now destruct s. }
  assert (Hnew : map_contains n (messageStacks s) = false ->
                 map_find n (messageStacks s')
                 = Some (OSDMessageStack_new x y d c r n)).
  { intros Hc. unfold s'. simpl. now apply map_find_emplace_new. }
  split; [exact Hpresent|]. split; [exact Hnew|]. split; [|split].
  - destruct (map_contains n (messageStacks s)) eqn:Hc.
    + now rewrite (Hpresent eq_refl).
    + apply map_find_contains. eexists. now apply Hnew.
  - intros k Hne. unfold s'. simpl. now apply map_find_emplace_other.
  - reflexivity.
Qed.

(** An instance: registering "top" again, with other settings, changes
    nothing. *)
Lemma AddMessageStack_first_registration_wins_witness :
  reachable Scenario.Typeless Cases.two_stacks
  /\ AddMessageStack 1 1 Downward false true "top" Cases.two_stacks
     = Cases.two_stacks.
Proof.
  split; [exact reachable_two_stacks|].
  exact (proj1 (AddMessageStack_first_registration_wins Scenario.Typeless
                  Cases.two_stacks 1 1 Downward false true "top"
                  reachable_two_stacks) eq_refl).
Defined.

Lemma draw_named_traces (e : Env) (s : State) (m : stack_map) (k : string)
    (tr : list Visit) :
  In (k, tr) (snd (draw_named e s m)) ->
  exists st, In (k, st) m /\ tr = snd (DrawMessages_stack e s st).
Proof.
  induction m as [|[k0 v0] tl IH]; simpl; [contradiction|].
  destruct (DrawMessages_stack e s v0) as [st' tr0] eqn:E.
  destruct (draw_named e s tl) as [tl' trs]. simpl in *.
  intros [H|H].
  - injection H as <- <-. exists v0. split; [now left|]. now rewrite E.
  - destruct (IH H) as (st & Hin & Htr). exists st. split; [now right|].
    exact Htr.
Qed.

Lemma DrawMessages_trace (e : Env) (s : State) :
  snd (DrawMessages e s)
  = (name (s_defaultMessageStack s),
     snd (DrawMessages_stack e s (s_defaultMessageStack s)))
    :: snd (draw_named e s (messageStacks s)).
Proof.
  unfold DrawMessages.
  destruct (DrawMessages_stack e s (s_defaultMessageStack s)) as [d' tr].
  now destruct (draw_named e s (messageStacks s)) as [m' trs].
Qed.

(** X2 ([DrawMessages()]): in a reachable state the default stack has the
    empty name and every registered stack is stored under its own name;
    a frame processes the default stack first and then the registered
    stacks, each once, in strictly increasing order of their names. *)
Theorem DrawMessages_processing_order (Typeless : MessageType) (s : State)
    (e : Env) :
  reachable Typeless s ->
  name (s_defaultMessageStack s) = ""%string
  /\ map fst (snd (DrawMessages e s))
     = ""%string :: map fst (messageStacks s)
  /\ keys_increasing (messageStacks s)
  /\ (forall k st, map_find k (messageStacks s) = Some st -> name st = k)
  /\ (forall k tr, In (k, tr) (tl (snd (DrawMessages e s))) ->
      exists st, In (k, st) (messageStacks s) /\ name st = k
                 /\ tr = snd (DrawMessages_stack e s st)).
Proof.
  intros Hreach.
  destruct (registry_ok_reachable Typeless s Hreach) as (Hd & Hn & Hk).
  rewrite Forall_forall in Hn.
  pose proof (DrawMessages_trace e s) as Htrace.
  split; [exact Hd|]. split; [|split; [exact Hk|split]].
  - rewrite Htrace. simpl. rewrite Hd. f_equal.
    apply draw_named_keys.
  - intros k st Hf. exact (Hn _ (map_find_In _ _ _ Hf)).
  - intros k tr Hin. rewrite Htrace in Hin. simpl in Hin.
    destruct (draw_named_traces _ _ _ _ _ Hin) as (st & Hst & Htr).
    exists st. split; [exact Hst|]. split; [exact (Hn _ Hst)|exact Htr].
Qed.

(** An instance: the frame of [Cases.two_stacks] goes over "", "side",
    "top". *)
Lemma DrawMessages_processing_order_witness :
  reachable Scenario.Typeless Cases.two_stacks
  /\ map fst (snd (DrawMessages (Scenario.frame true true 10)
                     Cases.two_stacks))
     = [""%string; "side"%string; "top"%string].
Proof.
  split; [exact reachable_two_stacks|].
  exact (proj1 (proj2 (DrawMessages_processing_order Scenario.Typeless
                         Cases.two_stacks (Scenario.frame true true 10)
                         reachable_two_stacks))).
Defined.

Lemma map_find_clear (k : string) (m : stack_map) :
  map_find k (map (fun kv => (fst kv, set_messages [] (snd kv))) m)
  = option_map (set_messages []) (map_find k m).
Proof.
  induction m as [|[k0 v0] tl IH]; simpl; [reflexivity|].
  destruct (String.eqb k k0); [reflexivity|exact IH].
Qed.

(** X3 (all operations): a registered stack is never destroyed and its
    layout policy never changes.  From a reachable state, after any
    operation, every name that was registered is still registered, and its
    stack has the same offset, direction, centering, reversal and name; the
    same holds for the default stack. *)
Theorem stacks_are_never_destroyed (Typeless : MessageType) (s : State)
    (o : Op) (k : string) (st : OSDMessageStack) :
  reachable Typeless s ->
  map_find k (messageStacks s) = Some st ->
  (exists st', map_find k (messageStacks (run_op Typeless o s)) = Some st'
               /\ settings st' = settings st)
  /\ settings (s_defaultMessageStack (run_op Typeless o s))
     = settings (s_defaultMessageStack s).
Proof.
  intros Hreach Hf.
  destruct (registry_ok_reachable Typeless s Hreach) as (_ & _ & Hk).
  assert (Hadd : forall type message ms argb ic stack pd sc t,
             (exists st',
                 map_find k
                   (messageStacks
                      (AddTypedMessage Typeless type message ms argb ic stack
                         pd sc t s)) = Some st'
                 /\ settings st' = settings st)
             /\ settings
                  (s_defaultMessageStack
                     (AddTypedMessage Typeless type message ms argb ic stack
                        pd sc t s))
                = settings (s_defaultMessageStack s)).
  { intros type message ms argb ic stack pd sc t. unfold AddTypedMessage.
    destruct (pd && HasMessage _ message type);
      [split; [now exists st|reflexivity]|].
    unfold resolve.
    destruct (map_contains stack (messageStacks s)) eqn:Hc; simpl.
    - split; [|reflexivity].
      destruct (String.eqb_spec k stack) as [->|Hne].
      + rewrite (map_find_store _ _ _ Hc). eexists. split; [reflexivity|].
        now rewrite Hf.
      + rewrite (map_find_store_other _ _ _ _ Hne). now exists st.
    - split; [now exists st|reflexivity]. }
  destruct o; simpl.
  - apply Hadd.
  - apply Hadd.
  - split; [|reflexivity].
    destruct (String.eqb_spec k name_) as [->|Hne].
    + rewrite map_emplace_present; [now exists st|exact Hk|].
      apply map_find_contains. now exists st.
    + rewrite (map_find_emplace_other _ _ _ _ Hne). now exists st.
  - unfold DrawMessages.
    pose proof (DrawMessages_stack_settings e s (s_defaultMessageStack s))
      as Hset.
    destruct (DrawMessages_stack e s (s_defaultMessageStack s)) as [d' tr].
    pose proof (draw_named_find e s (messageStacks s) k) as Hfind.
    destruct (draw_named e s (messageStacks s)) as [m' trs]. simpl in *.
    split; [|exact Hset].
    rewrite Hfind, Hf. simpl. eexists. split; [reflexivity|].
    apply DrawMessages_stack_settings.
  - split; [|reflexivity].
    rewrite map_find_clear, Hf. simpl. now eexists.
  - split; [now exists st|reflexivity].
  - split; [now exists st|reflexivity].
Qed.

(** An instance: "top" survives a [ClearMessages] with its settings. *)
Lemma stacks_are_never_destroyed_witness :
  reachable Scenario.Typeless Cases.two_stacks
  /\ exists st',
       map_find "top" (messageStacks (ClearMessages Cases.two_stacks))
       = Some st'
       /\ settings st'
          = (mkImVec2 5 7, Upward, true, false, "top"%string).
Proof.
  split; [exact reachable_two_stacks|].
  exact (proj1 (stacks_are_never_destroyed Scenario.Typeless
                  Cases.two_stacks OpClearMessages "top"
                  (deref (NamedStack "top") Cases.two_stacks)
                  reachable_two_stacks eq_refl)).
Defined.

(** ** [ClearMessages] *)

Lemma DrawMessages_stack_empty (e : Env) (s : State) (st : OSDMessageStack) :
  messages st = [] -> DrawMessages_stack e s st = (st, []).
Proof.
  intros Hm. unfold DrawMessages_stack. rewrite Hm. simpl.
  destruct (reversed st); simpl; f_equal; destruct st; simpl in *;
    now subst.
Qed.

(** X4 ([ClearMessages]): after the call every stack, the default one and
    each registered one, is empty, with its name and layout policy and the
    set of registered names unchanged, and the margins untouched; the next
    frame visits no message in any stack, so it issues no draw command. *)
Theorem ClearMessages_empties_every_stack (s : State) (r : StackRef)
    (e : Env) :
  messages (deref r (ClearMessages s)) = []
  /\ settings (deref r (ClearMessages s)) = settings (deref r s)
  /\ map fst (messageStacks (ClearMessages s)) = map fst (messageStacks s)
  /\ s_obscured_pixels_left (ClearMessages s) = s_obscured_pixels_left s
  /\ s_obscured_pixels_top (ClearMessages s) = s_obscured_pixels_top s
  /\ Forall (fun p => snd p = []) (snd (DrawMessages e (ClearMessages s)))
  /\ fst (DrawMessages e (ClearMessages s)) = ClearMessages s.
Proof.
  assert (Hderef : forall r0,
             deref r0 (ClearMessages s) = set_messages [] (deref r0 s)).
  { intros [|k]; simpl; [reflexivity|].
    rewrite map_find_clear. now destruct (map_find k (messageStacks s)). }
  assert (Hnamed : forall m,
             draw_named e (ClearMessages s)
               (map (fun kv => (fst kv, set_messages [] (snd kv))) m)
             = (map (fun kv => (fst kv, set_messages [] (snd kv))) m,
                map (fun kv => (fst kv, [])) m)).
  { induction m as [|[k0 v0] tl IH]; simpl; [reflexivity|].
    rewrite (DrawMessages_stack_empty e _ (set_messages [] v0) eq_refl).
    now rewrite IH. }
  split; [now rewrite Hderef|]. split; [now rewrite Hderef|].
  split; [simpl; now rewrite map_map|].
  split; [reflexivity|]. split; [reflexivity|].
  unfold DrawMessages.
  rewrite (DrawMessages_stack_empty e _
             (s_defaultMessageStack (ClearMessages s)) eq_refl).
  simpl messageStacks. rewrite Hnamed. simpl. split.
  - constructor; [reflexivity|].
    apply Forall_forall. intros p Hp. apply in_map_iff in Hp as (kv & <- & _).
    reflexivity.
  - reflexivity.
Qed.

(** ** Alpha and window names *)

Lemma std_clamp_bounds (v lo hi : Q) :
  (lo <= hi)%Q -> (lo <= std_clamp v lo hi <= hi)%Q.
Proof.
  intros Hlh. unfold std_clamp, fltb.
  destruct (Qle_bool lo v) eqn:E1; simpl.
  - apply Qle_bool_iff in E1.
    destruct (Qle_bool v hi) eqn:E2; simpl.
    + apply Qle_bool_iff in E2. now split.
    + split; [exact Hlh|apply Qle_refl].
  - split; [apply Qle_refl|exact Hlh].
Qed.

(** Every draw command of a trace comes from a visit that drew. *)
Lemma draws_In (tr : list Visit) (d : DrawRecord) :
  In d (draws tr) ->
  exists v tl after, In v tr /\ v_outcome v = Survived tl (Some d) after.
Proof.
  induction tr as [|v tr IH]; simpl; [contradiction|].
  destruct (v_outcome v) as [| |tl [d0|] after] eqn:E.
  - intros H. destruct (IH H) as (v' & tl' & a' & Hin & Ho).
    exists v', tl', a'. auto.
  - intros H. destruct (IH H) as (v' & tl' & a' & Hin & Ho).
    exists v', tl', a'. auto.
  - intros [<-|H].
    + exists v, tl, after. auto.
    + destruct (IH H) as (v' & tl' & a' & Hin & Ho).
      exists v', tl', a'. auto.
  - intros H. destruct (IH H) as (v' & tl' & a' & Hin & Ho).
    exists v', tl', a'. auto.
Qed.

(** X5 ([DrawMessage], fade): whatever the duration, the remaining time
    (also when it does not fit the [int] parameter) and the state of the
    message, the alpha pushed for a window lies between 0 and 1. *)
Theorem alpha_between_0_and_1 (e : Env) (s : State) (st : OSDMessageStack)
    (d : DrawRecord) :
  In d (draws (snd (DrawMessages_stack e s st))) ->
  (0 <= d_alpha d <= 1)%Q.
Proof.
  intros Hd.
  destruct (draws_In _ _ Hd) as (v & tl & after & Hin & Ho).
  destruct (DrawMessages_stack_visits e s st v Hin) as [c Hc].
  rewrite Ho in Hc. symmetry in Hc.
  destruct (visit_outcome_drawn _ _ _ _ _ _ _ Hc) as (_ & _ & Hdm & _).
  replace d with (snd (DrawMessage e (index c) (v_msg v)
                         (mkImVec2 (current_x c) (current_y c))
                         (int_of_s64 tl) st)) by now rewrite Hdm.
  rewrite DrawMessage_alpha.
  destruct (ever_drawn (v_msg v)).
  - apply std_clamp_bounds. discriminate.
  - split; discriminate.
Qed.

(** An instance: the draw of [Scenario.long_lived] at clock 16. *)
Lemma alpha_between_0_and_1_witness :
  exists d,
    In d (draws (snd (DrawMessages_stack (Scenario.frame true true 16)
                        Scenario.long_lived
                        (s_defaultMessageStack Scenario.long_lived))))
    /\ (0 <= d_alpha d <= 1)%Q.
Proof.
  eexists.
  refine ((fun H => conj H (alpha_between_0_and_1 _ _ _ _ H)) _).
  vm_compute. left. reflexivity.
Defined.

Lemma DrawMessage_ident (e : Env) (i : Z) (m : Message) (p : ImVec2)
    (tl : Z) (st : OSDMessageStack) :
  d_stack (snd (DrawMessage e i m p tl st)) = name st
  /\ d_index (snd (DrawMessage e i m p tl st)) = i.
Proof.
  unfold DrawMessage.
  destruct (begin_visible (backend e (name st) i)); [|split; reflexivity].
  destruct (icon m) as [ic|]; [|split; reflexivity].
  destruct (texture m) as [t|]; [split; reflexivity|].
  destruct (create_texture_ok (backend e (name st) i)); split; reflexivity.
Qed.

Lemma advance_index (st : OSDMessageStack) (sz : ImVec2) (c : Cursor) :
  index (advance st sz c) = index c + 1.
Proof.
  unfold advance. now destruct (IsVertical st).
Qed.

Lemma draw_loop_indices (e : Env) (st : OSDMessageStack) (l : multimap) :
  forall c,
    let tr := snd (fst (draw_loop e st l c)) in
    map d_index (draws tr)
    = map (fun i => index c + Z.of_nat i)
          (seq 0 (List.length (draws tr)))
    /\ Forall (fun d => d_stack d = name st) (draws tr)
    /\ List.length (draws tr)
       = if draw_messages e
         then List.length (fst (fst (draw_loop e st l c))) else 0%nat.
Proof.
  induction l as [|[ty msg] rest IH]; intros c; simpl.
  - split; [reflexivity|]. split; [constructor|now destruct (draw_messages e)].
  - destruct (should_discard msg).
    + specialize (IH c). destruct (draw_loop e st rest c) as [[kept tr] c'].
      exact IH.
    + destruct (expired (TimeRemaining (now e) msg) msg).
      * specialize (IH c).
        destruct (draw_loop e st rest c) as [[kept tr] c']. exact IH.
      * destruct (draw_messages e) eqn:Hm.
        -- pose proof (DrawMessage_ident e (index c) msg
                         (mkImVec2 (current_x c) (current_y c))
                         (int_of_s64 (TimeRemaining (now e) msg)) st)
             as [Hs Hi].
           destruct (DrawMessage e (index c) msg _ _ st) as [[msg' sz] rec].
           specialize (IH (advance st sz c)). rewrite advance_index in IH.
           destruct (draw_loop e st rest (advance st sz c))
             as [[kept tr] c'].
           simpl in *. destruct IH as (IH1 & IH2 & IH3).
           split; [|split].
           ++ rewrite Hi, IH1, Z.add_0_r. f_equal.
              rewrite <- seq_shift, map_map. apply map_ext.
              intros i. lia.
           ++ constructor; assumption.
           ++ now rewrite IH3.
        -- specialize (IH c).
           destruct (draw_loop e st rest c) as [[kept tr] c'].
           simpl in *. exact IH.
Qed.

Lemma NoDup_map_injective {A B : Type} (f : A -> B) (l : list A) :
  (forall a b, f a = f b -> a = b) -> NoDup l -> NoDup (map f l).
Proof.
  intros Hf. induction 1 as [|a l Ha _ IH]; simpl; constructor; [|exact IH].
  intros Hin. apply in_map_iff in Hin as (b & Hb & Hin).
  apply Hf in Hb. now subst b.
Qed.

Lemma NoDup_map_of_nat (n : nat) : NoDup (map Z.of_nat (seq 0 n)).
Proof.
  apply NoDup_map_injective; [|apply seq_NoDup].
  intros a b H. lia.
Qed.

Lemma pass_draws_numbered (e : Env) (s : State)
    (st : OSDMessageStack) :
  let ds := draws (snd (DrawMessages_stack e s st)) in
  map d_index ds = map Z.of_nat (seq 0 (List.length ds))
  /\ Forall (fun d => d_stack d = name st) ds
  /\ List.length ds
     = (if draw_messages e
        then List.length (messages (fst (DrawMessages_stack e s st)))
        else 0%nat)
  /\ NoDup (map d_index ds).
Proof.
  intros ds.
  assert (H : map d_index ds = map Z.of_nat (seq 0 (List.length ds))
              /\ Forall (fun d => d_stack d = name st) ds
              /\ List.length ds
                 = (if draw_messages e
                    then List.length
                           (messages (fst (DrawMessages_stack e s st)))
                    else 0%nat)).
  { unfold ds, DrawMessages_stack.
    destruct (reversed st).
    - pose proof (draw_loop_indices e st (rev (messages st))
                    (start_cursor e s st)) as H.
      destruct (draw_loop e st (rev (messages st)) _) as [[kept tr] c'].
      simpl in *. now rewrite length_rev.
    - pose proof (draw_loop_indices e st (messages st)
                    (start_cursor e s st)) as H.
      destruct (draw_loop e st (messages st) _) as [[kept tr] c'].
      exact H. }
  destruct H as (H1 & H2 & H3).
  repeat split; try assumption.
  rewrite H1. apply NoDup_map_of_nat.
Qed.

(** X6 ([DrawMessages], window names): in a pass with drawing enabled every
    message that stays in the stack is drawn exactly once, and with drawing
    disabled nothing is drawn; the windows of the pass are named after the
    stack and numbered 0, 1, 2, ... in drawing order, so no two windows of
    the pass share a name. *)
Theorem windows_of_a_pass_are_numbered (e : Env) (s : State)
    (st : OSDMessageStack) :
  let ds := draws (snd (DrawMessages_stack e s st)) in
  map d_index ds = map Z.of_nat (seq 0 (List.length ds))
  /\ Forall (fun d => d_stack d = name st) ds
  /\ List.length ds
     = (if draw_messages e
        then List.length (messages (fst (DrawMessages_stack e s st)))
        else 0%nat)
  /\ NoDup (map d_index ds).
Proof.
  exact (pass_draws_numbered e s st).
Qed.

Lemma NoDup_append {A : Type} (l1 l2 : list A) :
  NoDup l1 -> NoDup l2 -> (forall a, In a l1 -> ~ In a l2) ->
  NoDup (l1 ++ l2).
Proof.
  induction 1 as [|a l1 Ha _ IH]; intros H2 Hd; simpl; [exact H2|].
  constructor.
  - intros Hin. apply in_app_or in Hin as [Hin|Hin]; [contradiction|].
    exact (Hd a (or_introl eq_refl) Hin).
  - apply IH; [exact H2|]. intros b Hb. apply Hd. now right.
Qed.

Lemma NoDup_map_factor {A B C : Type} (g : A -> B) (h : B -> C)
    (l : list A) :
  NoDup (map (fun x => h (g x)) l) -> NoDup (map g l).
Proof.
  induction l as [|a l IH]; simpl; intros H; [constructor|].
  apply NoDup_cons_iff in H as [Hn H]. constructor; [|now apply IH].
  intros Hin. apply Hn. apply in_map_iff in Hin as (b & Hb & Hin).
  apply in_map_iff. exists b. split; [now rewrite Hb|exact Hin].
Qed.

Lemma keys_increasing_NoDup (m : stack_map) :
  keys_increasing m -> NoDup (map fst m).
Proof.
  induction m as [|a m IH]; intros Hs; simpl; [constructor|].
  apply keys_increasing_cons in Hs as [Hall Hs].
  constructor; [|now apply IH].
  intros Hin. apply in_map_iff in Hin as (b & Hb & Hin).
  rewrite Forall_forall in Hall. specialize (Hall b Hin).
  rewrite Hb, string_compare_refl in Hall. discriminate.
Qed.

Lemma frame_windows_NoDup (trace : list (string * list Visit)) :
  NoDup (map fst trace) ->
  (forall p, In p trace ->
             Forall (fun d => d_stack d = fst p) (draws (snd p))
             /\ NoDup (map d_index (draws (snd p)))) ->
  NoDup (frame_windows trace).
Proof.
  induction trace as [|p rest IH]; simpl; intros Hk Hp; [constructor|].
  apply NoDup_cons_iff in Hk as [Hnot Hk].
  unfold frame_windows. simpl. fold (frame_windows rest).
  destruct (Hp p (or_introl eq_refl)) as [Hs Hi].
  apply NoDup_append.
  - apply (NoDup_map_factor _ snd). exact Hi.
  - apply IH; [exact Hk|]. intros q Hq. apply Hp. now right.
  - intros [k i] Hin Hin'.
    apply in_map_iff in Hin as (d & Hd & Hin). injection Hd as Hk1 _.
    rewrite Forall_forall in Hs. rewrite (Hs d Hin) in Hk1.
    unfold frame_windows in Hin'. apply in_flat_map in Hin' as (q & Hq & Hin').
    apply in_map_iff in Hin' as (d' & Hd' & Hin'). injection Hd' as Hk2 _.
    destruct (Hp q (or_intror Hq)) as [Hs' _].
    rewrite Forall_forall in Hs'. rewrite (Hs' d' Hin') in Hk2.
    apply Hnot. apply in_map_iff. exists q. split; [congruence|exact Hq].
Qed.

(** X7 ([DrawMessages()], window names): the comment of [DrawMessage] asks
    that window names be not duplicated.  In a reachable state in which no
    stack is registered under the empty name, no two windows of a frame have
    the same name (stack name and number), over all the stacks. *)
Theorem frame_window_names_are_distinct (Typeless : MessageType) (s : State)
    (e : Env) :
  reachable Typeless s ->
  map_contains "" (messageStacks s) = false ->
  NoDup (frame_windows (snd (DrawMessages e s))).
Proof.
  intros Hreach Hempty.
  destruct (registry_ok_reachable Typeless s Hreach) as (Hd & Hn & Hk).
  rewrite Forall_forall in Hn.
  rewrite DrawMessages_trace.
  apply frame_windows_NoDup.
  - simpl. rewrite (proj2 (draw_named_keys e s (messageStacks s))).
    constructor; [|now apply keys_increasing_NoDup].
    rewrite Hd. intros Hin. apply map_contains_In in Hin. congruence.
  - intros [k tr] [Hin|Hin].
    + injection Hin as <- <-.
      destruct (pass_draws_numbered e s (s_defaultMessageStack s))
        as (_ & H2 & _ & H4).
      split; assumption.
    + destruct (draw_named_traces _ _ _ _ _ Hin) as (st & Hst & ->).
      destruct (pass_draws_numbered e s st) as (_ & H2 & _ & H4).
      pose proof (Hn _ Hst) as Hname. simpl in *. rewrite <- Hname.
      split; assumption.
Qed.

(** An instance: the frame of [Cases.two_stacks]. *)
Lemma frame_window_names_are_distinct_witness :
  reachable Scenario.Typeless Cases.two_stacks
  /\ NoDup (frame_windows
              (snd (DrawMessages (Scenario.frame true true 10)
                      Cases.two_stacks))).
Proof.
  split; [exact reachable_two_stacks|].
  exact (frame_window_names_are_distinct Scenario.Typeless Cases.two_stacks
           (Scenario.frame true true 10) reachable_two_stacks eq_refl).
Defined.

(** The hypothesis on the empty name is needed: with a stack registered
    under it, that stack and the default stack both open a window
    [osd__0]. *)
Example homonymous_stacks_share_window_names :
  frame_windows (snd (DrawMessages (Scenario.frame true true 10)
                        Cases.homonyms))
  = [(""%string, 0); (""%string, 0)].
Proof. reflexivity. Qed.

(** ** Lifecycle across passes *)

Lemma DrawMessage_state_independent (e e' : Env) (i : Z) (m : Message)
    (p p' : ImVec2) (tl tl' : Z) (st : OSDMessageStack) :
  (forall n j, backend e n j = backend e' n j) ->
  fst (fst (DrawMessage e i m p tl st))
  = fst (fst (DrawMessage e' i m p' tl' st)).
Proof.
  intros Hb. unfold DrawMessage. rewrite <- Hb.
  destruct (begin_visible (backend e (name st) i)); [|reflexivity].
  destruct (icon m) as [ic|]; [|reflexivity].
  destruct (texture m) as [t|]; [reflexivity|].
  now destruct (create_texture_ok (backend e (name st) i)).
Qed.

Lemma draw_loop_state_independent (e e' : Env) (st : OSDMessageStack)
    (l : multimap) :
  draw_messages e = draw_messages e' ->
  now e = now e' ->
  (forall n j, backend e n j = backend e' n j) ->
  forall c c', index c = index c' ->
    fst (fst (draw_loop e st l c)) = fst (fst (draw_loop e' st l c'))
    /\ map (fun v => removed (v_outcome v)) (snd (fst (draw_loop e st l c)))
       = map (fun v => removed (v_outcome v))
             (snd (fst (draw_loop e' st l c'))).
Proof.
  intros Hm Hn Hb.
  induction l as [|[ty msg] rest IH]; intros c c' Hi; simpl;
    [split; reflexivity|].
  rewrite <- Hn, <- Hm.
  destruct (should_discard msg).
  - specialize (IH c c' Hi).
    destruct (draw_loop e st rest c) as [[kept tr] c1].
    destruct (draw_loop e' st rest c') as [[kept' tr'] c1'].
    simpl in *. destruct IH as [-> ->]. split; reflexivity.
  - destruct (expired (TimeRemaining (now e) msg) msg).
    + specialize (IH c c' Hi).
      destruct (draw_loop e st rest c) as [[kept tr] c1].
      destruct (draw_loop e' st rest c') as [[kept' tr'] c1'].
      simpl in *. destruct IH as [-> ->]. split; reflexivity.
    + destruct (draw_messages e).
      * pose proof (DrawMessage_state_independent e e' (index c) msg
                      (mkImVec2 (current_x c) (current_y c))
                      (mkImVec2 (current_x c') (current_y c'))
                      (int_of_s64 (TimeRemaining (now e) msg))
                      (int_of_s64 (TimeRemaining (now e) msg)) st Hb)
          as Hmsg.
        rewrite <- Hi.
        destruct (DrawMessage e (index c) msg _ _ st) as [[m1 sz1] r1].
        destruct (DrawMessage e' (index c) msg _ _ st) as [[m2 sz2] r2].
        simpl in Hmsg. subst m2.
        assert (Hi' : index (advance st sz1 c) = index (advance st sz2 c')).
        { rewrite !advance_index. now rewrite Hi. }
        specialize (IH _ _ Hi').
        destruct (draw_loop e st rest (advance st sz1 c))
          as [[kept tr] c1].
        destruct (draw_loop e' st rest (advance st sz2 c'))
          as [[kept' tr'] c1'].
        simpl in *. destruct IH as [-> ->]. split; reflexivity.
      * specialize (IH c c' Hi).
        destruct (draw_loop e st rest c) as [[kept tr] c1].
        destruct (draw_loop e' st rest c') as [[kept' tr'] c1'].
        simpl in *. destruct IH as [-> ->]. split; reflexivity.
Qed.

(** X8 ([DrawMessages], lifecycle against layout): which messages a pass
    removes, and the state it leaves the others in, do not depend on the
    screen geometry nor on the margins set by [SetObscuredPixelsLeft] and
    [SetObscuredPixelsTop]: two passes that agree on the toggle, the clock
    and the answers of the backend leave the same stack and remove the same
    entries. *)
Theorem lifecycle_independent_of_layout (e e' : Env) (s s' : State)
    (st : OSDMessageStack) :
  draw_messages e = draw_messages e' ->
  now e = now e' ->
  (forall n j, backend e n j = backend e' n j) ->
  fst (DrawMessages_stack e s st) = fst (DrawMessages_stack e' s' st)
  /\ map (fun v => removed (v_outcome v)) (snd (DrawMessages_stack e s st))
     = map (fun v => removed (v_outcome v))
           (snd (DrawMessages_stack e' s' st)).
Proof.
  intros Hm Hn Hb. unfold DrawMessages_stack.
  destruct (reversed st).
  - pose proof (draw_loop_state_independent e e' st (rev (messages st))
                  Hm Hn Hb (start_cursor e s st) (start_cursor e' s' st)
                  eq_refl) as H.
    destruct (draw_loop e st (rev (messages st)) _) as [[kept tr] c1].
    destruct (draw_loop e' st (rev (messages st)) _) as [[kept' tr'] c1'].
    simpl in *. destruct H as [-> ->]. split; reflexivity.
  - pose proof (draw_loop_state_independent e e' st (messages st)
                  Hm Hn Hb (start_cursor e s st) (start_cursor e' s' st)
                  eq_refl) as H.
    destruct (draw_loop e st (messages st) _) as [[kept tr] c1].
    destruct (draw_loop e' st (messages st) _) as [[kept' tr'] c1'].
    simpl in *. destruct H as [-> ->]. split; reflexivity.
Qed.

(** An instance: the pass of [Scenario.two_lines] on another screen and
    with a left margin of 300 pixels. *)
Lemma lifecycle_independent_of_layout_witness :
  fst (DrawMessages_stack (Scenario.frame true true 10) Scenario.two_lines
         (s_defaultMessageStack Scenario.two_lines))
  = fst (DrawMessages_stack
           (mkEnv true (mkIO (mkImVec2 2 2) (mkImVec2 1920 1080))
                  (fun _ _ => mkReply true true (mkImVec2 100 20)) 10)
           (SetObscuredPixelsLeft 300 Scenario.two_lines)
           (s_defaultMessageStack Scenario.two_lines)).
Proof.
  exact (proj1 (lifecycle_independent_of_layout
                  (Scenario.frame true true 10)
                  (mkEnv true (mkIO (mkImVec2 2 2) (mkImVec2 1920 1080))
                         (fun _ _ => mkReply true true (mkImVec2 100 20)) 10)
                  Scenario.two_lines
                  (SetObscuredPixelsLeft 300 Scenario.two_lines)
                  (s_defaultMessageStack Scenario.two_lines)
                  eq_refl eq_refl (fun _ _ => eq_refl))).
Defined.

Lemma Forall2_eq {A : Type} (l l' : list A) : Forall2 eq l l' -> l = l'.
Proof.
  induction 1 as [|a b l l' -> _ IH]; [reflexivity|]. now rewrite IH.
Qed.

Lemma DrawMessages_stack_result (e : Env) (s : State)
    (st : OSDMessageStack) :
  fst (DrawMessages_stack e s st)
  = set_messages (messages (fst (DrawMessages_stack e s st))) st.
Proof.
  unfold DrawMessages_stack.
  destruct (reversed st).
  - now destruct (draw_loop e st (rev (messages st)) _) as [[kept tr] c'].
  - now destruct (draw_loop e st (messages st) _) as [[kept tr] c'].
Qed.

Lemma set_messages_same (st : OSDMessageStack) :
  set_messages (messages st) st = st.
Proof.
  now destruct st.
Qed.

Lemma filter_idempotent {A : Type} (f : A -> bool) (l : list A) :
  filter f (filter f l) = filter f l.
Proof.
  induction l as [|a l IH]; simpl; [reflexivity|].
  destruct (f a) eqn:E; simpl; [rewrite E; now f_equal|exact IH].
Qed.

Lemma disabled_pass_messages (e : Env) (s : State) (st : OSDMessageStack) :
  draw_messages e = false ->
  messages (fst (DrawMessages_stack e s st))
  = filter (stays e) (messages st).
Proof.
  intros Hm. symmetry. apply Forall2_eq.
  eapply Forall2_impl; [|apply (DrawMessages_stack_kept e s st)].
  intros [k m] [k' m'] [Hk H]. rewrite Hm in H. simpl in *. congruence.
Qed.

(** X9 ([DrawMessages], toggle off): with the draw-messages toggle off a
    pass only prunes: it leaves exactly the entries that are neither marked
    nor expired, unchanged and in their order, whether the stack is reversed
    or not, and draws nothing; a second pass at the same clock changes
    nothing more. *)
Theorem disabled_pass_only_prunes (e : Env) (s s' : State)
    (st : OSDMessageStack) :
  draw_messages e = false ->
  let st1 := fst (DrawMessages_stack e s st) in
  messages st1 = filter (stays e) (messages st)
  /\ draws (snd (DrawMessages_stack e s st)) = []
  /\ fst (DrawMessages_stack e s' st1) = st1.
Proof.
  intros Hm st1.
  pose proof (disabled_pass_messages e s st Hm) as H1. fold st1 in H1.
  split; [exact H1|]. split.
  - destruct (pass_draws_numbered e s st) as (_ & _ & Hlen & _).
    rewrite Hm in Hlen.
    now destruct (draws (snd (DrawMessages_stack e s st))).
  - assert (Hsame : filter (stays e) (messages st1) = messages st1).
    { rewrite H1. apply filter_idempotent. }
    rewrite DrawMessages_stack_result.
    rewrite (disabled_pass_messages e s' st1 Hm), Hsame.
    apply set_messages_same.
Qed.

(** An instance: the pass of [Scenario.replaced] with the toggle off keeps
    the one unmarked message. *)
Lemma disabled_pass_only_prunes_witness :
  map (fun en => text (snd en))
      (messages (fst (DrawMessages_stack (Scenario.frame false true 100)
                        Scenario.replaced
                        (s_defaultMessageStack Scenario.replaced))))
  = map (fun en => text (snd en))
        (filter (stays (Scenario.frame false true 100))
                (messages (s_defaultMessageStack Scenario.replaced))).
Proof.
  exact (f_equal (map (fun en => text (snd en)))
           (proj1 (disabled_pass_only_prunes (Scenario.frame false true 100)
                     Scenario.replaced Scenario.replaced
                     (s_defaultMessageStack Scenario.replaced) eq_refl))).
Defined.

Lemma TimeRemaining_fields (t : Z) (m m' : Message) :
  duration m' = duration m -> timer m' = timer m ->
  TimeRemaining t m' = TimeRemaining t m.
Proof.
  unfold TimeRemaining. now intros -> ->.
Qed.

(** X10 ([DrawMessages], expiry after a draw): once a pass with drawing
    enabled has gone over a stack, every message it left has been drawn, so
    no later pass keeps a message whose time is up: after the later pass
    every message of the stack has a positive remaining time (at the clock
    of that pass) and none is marked. *)
Theorem drawn_messages_leave_on_time (e1 e2 : Env) (s1 s2 : State)
    (st : OSDMessageStack) (en : MessageType * Message) :
  draw_messages e1 = true ->
  In en (messages
           (fst (DrawMessages_stack e2 s2
                   (fst (DrawMessages_stack e1 s1 st))))) ->
  0 < TimeRemaining (now e2) (snd en)
  /\ should_discard (snd en) = false
  /\ ever_drawn (snd en) = true.
Proof.
  intros Hm Hin.
  destruct (DrawMessages_stack_origin e2 s2 _ en Hin)
    as (en1 & Hin1 & Hst & Hfrom2).
  destruct (DrawMessages_stack_origin e1 s1 _ en1 Hin1)
    as (en0 & _ & _ & Hfrom1).
  apply drawn_from_fields in Hfrom1
    as (_ & _ & _ & _ & _ & _ & _ & Hed1).
  rewrite Hm in Hed1. simpl in Hed1.
  apply drawn_from_fields in Hfrom2
    as (_ & _ & Ht & Hd & _ & _ & Hsd & Hed2).
  unfold stays in Hst. apply andb_true_iff in Hst as [Hsd1 Hx].
  apply negb_true_iff in Hsd1. apply negb_true_iff in Hx.
  split; [|split].
  - rewrite (TimeRemaining_fields _ _ _ Hd Ht).
    destruct (Z_lt_le_dec 0 (TimeRemaining (now e2) (snd en1)))
      as [Hpos|Hneg]; [exact Hpos|].
    assert (Hexp : expired (TimeRemaining (now e2) (snd en1)) (snd en1)
                   = true); [|congruence].
    apply expired_iff. split; [exact Hneg|]. now left.
  - congruence.
  - rewrite Hed2, Hed1. apply orb_true_r.
Qed.

(** An instance: "second" of [Scenario.two_lines], drawn at clock 10 and
    still there at clock 3000. *)
Lemma drawn_messages_leave_on_time_witness :
  exists en,
    In en (messages
             (fst (DrawMessages_stack (Scenario.frame false true 3000)
                     Scenario.two_lines
                     (fst (DrawMessages_stack (Scenario.frame true true 10)
                             Scenario.two_lines
                             (s_defaultMessageStack Scenario.two_lines))))))
    /\ 0 < TimeRemaining 3000 (snd en).
Proof.
  eexists.
  refine ((fun H => conj H
             (proj1 (drawn_messages_leave_on_time
                       (Scenario.frame true true 10)
                       (Scenario.frame false true 3000)
                       Scenario.two_lines Scenario.two_lines
                       (s_defaultMessageStack Scenario.two_lines) _
                       eq_refl H))) _).
  vm_compute. left. reflexivity.
Defined.

(** ** [AddTypedMessage] and [HasMessage] *)

Lemma AddTypedMessage_resolve (Typeless type : MessageType)
    (message : string) (ms argb : Z) (ic : option Icon) (stack : string)
    (pd : bool) (sc : Q) (t : Z) (s : State) (n : string) :
  resolve n (AddTypedMessage Typeless type message ms argb ic stack pd sc t s)
  = resolve n s.
Proof.
  unfold AddTypedMessage.
  destruct (pd && HasMessage _ message type); [reflexivity|].
  unfold resolve at 1 3. destruct (resolve stack s); simpl; [reflexivity|].
  now rewrite map_contains_store.
Qed.

Lemma AddTypedMessage_has_message (Typeless type : MessageType)
    (message : string) (ms argb : Z) (ic : option Icon) (stack : string)
    (pd : bool) (sc : Q) (t : Z) (s : State) :
  HasMessage
    (deref (resolve stack s)
       (AddTypedMessage Typeless type message ms argb ic stack pd sc t s))
    message type = true.
Proof.
  destruct (pd && HasMessage (deref (resolve stack s) s) message type)
    eqn:Hsup.
  - unfold AddTypedMessage. rewrite Hsup.
    now apply andb_true_iff in Hsup.
  - rewrite (AddTypedMessage_target Typeless type message ms argb ic stack
               pd sc t s Hsup).
    apply HasMessage_iff.
    exists (Message_new message ms argb ic sc t). split; [|reflexivity].
    simpl. apply emplace_In. left. reflexivity.
Qed.

(** X11 ([AddTypedMessage], [HasMessage]): after any call, suppressed or
    not, [HasMessage] finds the text under the tag in the stack the call
    worked on; hence a further call for the same stack, tag and text with
    [prevent_duplicate = true] changes nothing, whatever its duration,
    colour, icon and scale. *)
Theorem AddTypedMessage_then_duplicate (Typeless type : MessageType)
    (message : string) (ms argb : Z) (ic : option Icon) (stack : string)
    (pd : bool) (sc : Q) (t : Z) (s : State) (ms' argb' : Z)
    (ic' : option Icon) (sc' : Q) (t' : Z) :
  let s1 :=
    AddTypedMessage Typeless type message ms argb ic stack pd sc t s in
  HasMessage (deref (resolve stack s1) s1) message type = true
  /\ AddTypedMessage Typeless type message ms' argb' ic' stack true sc' t' s1
     = s1.
Proof.
  intros s1.
  assert (H : HasMessage (deref (resolve stack s1) s1) message type = true).
  { unfold s1. rewrite AddTypedMessage_resolve.
    apply AddTypedMessage_has_message. }
  split; [exact H|]. now apply AddTypedMessage_suppressed.
Qed.

(** X12 ([AddTypedMessage], duplicate guard): a call leaves the state
    unchanged exactly when it is suppressed, that is when
    [prevent_duplicate] is set and the stack it works on holds a message
    with the same tag and the same text; the same text under another tag, or
    in another stack, does not suppress it. *)
Theorem AddTypedMessage_unchanged_iff (Typeless type : MessageType)
    (message : string) (ms argb : Z) (ic : option Icon) (stack : string)
    (pd : bool) (sc : Q) (t : Z) (s : State) :
  AddTypedMessage Typeless type message ms argb ic stack pd sc t s = s
  <-> pd = true
      /\ exists m, In (type, m) (messages (deref (resolve stack s) s))
                   /\ text m = message.
Proof.
  rewrite <- HasMessage_iff, <- andb_true_iff.
  destruct (pd && HasMessage (deref (resolve stack s) s) message type)
    eqn:Hsup.
  - split; [reflexivity|]. intros _. unfold AddTypedMessage.
    now rewrite Hsup.
  - split; [|discriminate]. intros Heq. exfalso.
    pose proof (AddTypedMessage_target Typeless type message ms argb ic
                  stack pd sc t s Hsup) as Ht.
    rewrite Heq in Ht. apply (f_equal (fun st => List.length (messages st)))
      in Ht.
    simpl in Ht. rewrite emplace_length in Ht.
    destruct (negb (type =? Typeless)).
    + unfold discard_range in Ht. rewrite length_map in Ht. lia.
    + lia.
Qed.

(** X13 ([AddTypedMessage] with the [Typeless] tag, [AddMessage]): in a
    reachable state, a call that is not suppressed marks nothing and keeps
    the entries of the stack as they were, in their order; the new message
    is placed after every entry whose tag is not greater than [Typeless]
    (so after the older messages without a tag) and before every entry
    whose tag is greater; when no tag of the stack is greater, it goes to
    the end of the container. *)
Theorem AddMessage_marks_nothing (Typeless : MessageType) (message : string)
    (ms argb : Z) (ic : option Icon) (stack : string) (pd : bool) (sc : Q)
    (t : Z) (s : State) :
  reachable Typeless s ->
  pd && HasMessage (deref (resolve stack s) s) message Typeless = false ->
  let old := messages (deref (resolve stack s) s) in
  let new := (Typeless, Message_new message ms argb ic sc t) in
  let s' := AddMessage Typeless message ms argb ic stack pd sc t s in
  (exists l1 l2,
      messages (deref (resolve stack s) s') = l1 ++ new :: l2
      /\ old = l1 ++ l2
      /\ Forall (fun en => fst en <= Typeless) l1
      /\ Forall (fun en => Typeless < fst en) l2)
  /\ (Forall (fun en => fst en <= Typeless) old ->
      messages (deref (resolve stack s) s') = old ++ [new]).
Proof.
  intros Hreach Hsup old new s'.
  assert (Ht : messages (deref (resolve stack s) s')
               = emplace Typeless (Message_new message ms argb ic sc t) old).
  { unfold s', AddMessage.
    rewrite (AddTypedMessage_target Typeless Typeless message ms argb ic
               stack pd sc t s Hsup).
    simpl. now rewrite Z.eqb_refl. }
  split.
  - destruct (emplace_split Typeless (Message_new message ms argb ic sc t)
                old) as (l1 & l2 & He & Hold & Hle & Hgt).
    exists l1, l2. rewrite Ht.
    split; [exact He|]. split; [exact Hold|]. split; [exact Hle|].
    apply Hgt. unfold old. apply wf_state_deref.
    now apply (reachable_wf Typeless).
  - intros Hall. rewrite Ht.
    rewrite <- (app_nil_r old) at 1. now rewrite emplace_app_le.
Qed.

(** An instance: in [Cases.mixed_tags] (tags 0, [Typeless] = 2 and 3) a
    further message without a tag goes between the older one without a tag
    and the message of tag 3. *)
Lemma AddMessage_marks_nothing_witness :
  messages (s_defaultMessageStack Cases.mixed_tags)
  = [(0, Message_new "a" 4000 0 None 1 1);
     (Scenario.Typeless, Message_new "b1" 4000 0 None 1 2)]
    ++ [(3, Message_new "c" 4000 0 None 1 0)]
  /\ exists l1 l2,
       messages (s_defaultMessageStack
                   (AddMessage Scenario.Typeless "b2" 4000 0 None "" false
                               1 3 Cases.mixed_tags))
       = l1 ++ (Scenario.Typeless, Message_new "b2" 4000 0 None 1 3) :: l2
       /\ messages (s_defaultMessageStack Cases.mixed_tags) = l1 ++ l2
       /\ Forall (fun en => fst en <= Scenario.Typeless) l1
       /\ Forall (fun en => Scenario.Typeless < fst en) l2.
Proof.
  split; [reflexivity|].
  assert (Hreach : reachable Scenario.Typeless Cases.mixed_tags).
  { exact (reachable_step Scenario.Typeless
             (OpAddMessage "b1" 4000 0 None "" false 1 2) _
             (reachable_step Scenario.Typeless
                (OpAddTypedMessage 0 "a" 4000 0 None "" false 1 1) _
                (reachable_step Scenario.Typeless
                   (OpAddTypedMessage 3 "c" 4000 0 None "" false 1 0) _
                   (reachable_initial Scenario.Typeless)))). }
  exact (proj1 (AddMessage_marks_nothing Scenario.Typeless "b2" 4000 0 None
                  "" false 1 3 Cases.mixed_tags Hreach eq_refl)).
Defined.

(** ** Order of the visits *)

(** X14 ([DrawMessages], order by tag): in a reachable state the entries of
    every stack are ordered by type tag, so a pass of a stack that is not
    reversed meets the tags in non-decreasing order, and a pass of a
    reversed stack meets them in non-increasing order. *)
Theorem visits_follow_the_tags (Typeless : MessageType) (s : State)
    (r : StackRef) (e : Env) (t1 t2 t3 : multimap)
    (a b : MessageType * Message) :
  reachable Typeless s ->
  map entry_of (snd (DrawMessages_stack e s (deref r s)))
  = t1 ++ a :: t2 ++ b :: t3 ->
  if reversed (deref r s) then fst b <= fst a else fst a <= fst b.
Proof.
  intros Hreach Htr.
  pose proof (wf_state_deref r s (reachable_wf Typeless s Hreach)) as Hs.
  rewrite DrawMessages_stack_trace in Htr. unfold visit_order in Htr.
  destruct (reversed (deref r s)).
  - apply (f_equal (@rev _)) in Htr. rewrite rev_involutive in Htr.
    apply (Hs (rev t3) b (rev t2) a (rev t1)). rewrite Htr.
    repeat (rewrite rev_app_distr; simpl).
    repeat rewrite <- app_assoc. reflexivity.
  - exact (Hs _ _ _ _ _ Htr).
Qed.

(** An instance: "hi" (tag 0) and "hi" (tag 1) of [Scenario.echoes]. *)
Lemma visits_follow_the_tags_witness :
  map entry_of
      (snd (DrawMessages_stack (Scenario.frame true true 30) Scenario.echoes
              (deref DefaultStack Scenario.echoes)))
  = [] ++ (0, set_should_discard true (Message_new "hi" 10000 0 None 1 0))
       :: [(0, Message_new "bye" 10000 0 None 1 20)]
       ++ (1, Message_new "hi" 10000 0 None 1 10) :: []
  /\ fst (0, set_should_discard true (Message_new "hi" 10000 0 None 1 0))
     <= fst (1, Message_new "hi" 10000 0 None 1 10).
Proof.
  assert (Hreach : reachable Scenario.Typeless Scenario.echoes).
  { exact (reachable_step Scenario.Typeless
             (OpAddTypedMessage 0 "bye" 10000 0 None "" false 1 20) _
             (reachable_step Scenario.Typeless
                (OpAddTypedMessage 1 "hi" 10000 0 None "" false 1 10) _
                (reachable_step Scenario.Typeless
                   (OpAddTypedMessage 0 "hi" 10000 0 None "" false 1 0) _
                   (reachable_initial Scenario.Typeless)))). }
  split; [reflexivity|].
  exact (visits_follow_the_tags Scenario.Typeless Scenario.echoes
           DefaultStack (Scenario.frame true true 30)
           []
           [(0, Message_new "bye" 10000 0 None 1 20)]
           []
           (0, set_should_discard true (Message_new "hi" 10000 0 None 1 0))
           (1, Message_new "hi" 10000 0 None 1 10)
           Hreach eq_refl).
Defined.

(** ** Layout in the other directions *)

Section WindowInvariant.

Variable e : Env.
Variable st : OSDMessageStack.

(** A property of the windows still to come, given the cursor. *)
Variable Inv : Cursor -> list WindowBody -> Prop.

Hypothesis Inv_nil : forall c, Inv c [].

Hypothesis Inv_step :
  forall c msg tl rest,
    let res := DrawMessage e (index c) msg
                 (mkImVec2 (current_x c) (current_y c)) tl st in
    Inv (advance st (snd (fst res)) c) rest ->
    Inv c (match d_body (snd res) with
           | Some w => w :: rest
           | None => rest
           end).



End WindowInvariant.




















(** ** Colours *)

Lemma channel_is_byte (argb : Z) (n : Z) :
  0 <= n -> Z.land (Z.shiftr argb n) 255 = (argb / 2 ^ n) mod 256.
Proof.
  intros Hn. rewrite Z.shiftr_div_pow2 by exact Hn.
  change 255 with (Z.ones 8). now rewrite Z.land_ones by lia.
Qed.

(** The 256 values of a colour component, computed one by one: each lies
    between 0 and 1, gives its byte back when it is scaled by 255 and
    rounded to the nearest integer, and is 0 or 1 for the bytes 0 and 255
    only. *)
Lemma channel_table :
  forallb (fun b : Z =>
             let c := to_float (to_float (inject_Z b) / 255) in
             Qle_bool 0 c && Qle_bool c 1
             && (round_half_even (255 * c) =? b)
             && Bool.eqb (Qeq_bool c 0) (b =? 0)
             && Bool.eqb (Qeq_bool c 1) (b =? 255))
          (map Z.of_nat (seq 0 256))
  = true.
Proof.
  vm_compute. reflexivity.
Qed.

Lemma channel_of_byte (b : Z) :
  0 <= b < 256 ->
  let c := to_float (to_float (inject_Z b) / 255) in
  (0 <= c <= 1)%Q
  /\ round_half_even (255 * c) = b
  /\ (c == 0 <-> b = 0)
  /\ (c == 1 <-> b = 255).
Proof.
  intros Hb c.
  assert (Hin : In b (map Z.of_nat (seq 0 256))).
  { apply in_map_iff. exists (Z.to_nat b). split; [lia|].
    apply in_seq. lia. }
  pose proof (proj1 (forallb_forall _ _) channel_table b Hin) as H.
  cbv beta zeta in H. fold c in H.
  apply andb_true_iff in H as [H H5]. apply andb_true_iff in H as [H H4].
  apply andb_true_iff in H as [H H3]. apply andb_true_iff in H as [H1 H2].
  apply Qle_bool_iff in H1. apply Qle_bool_iff in H2.
  apply Z.eqb_eq in H3. apply Bool.eqb_prop in H4, H5.
  split; [split; assumption|]. split; [exact H3|]. split.
  - rewrite <- Qeq_bool_iff, H4. apply Z.eqb_eq.
  - rewrite <- Qeq_bool_iff, H5. apply Z.eqb_eq.
Qed.

(** X19 ([ARGBToImVec4]): for a 32-bit colour, every component of the
    result lies between 0 and 1 and is the [float] quotient of one byte of
    the colour by 255; the byte is recovered from the component by scaling
    it by 255 and rounding to the nearest integer, although the division is
    rounded: alpha from the last component (bits 24-31), red from the first
    (bits 16-23), green from the second (bits 8-15), blue from the third
    (bits 0-7).  So nothing of the colour is lost.  The alpha component is
    exactly 1 for the colours with alpha byte 0xFF only, and exactly 0 for
    the colours with alpha byte 0 only. *)
Theorem ARGBToImVec4_bytes (argb : Z) :
  0 <= argb <= u32_max ->
  let c := ARGBToImVec4 argb in
  let byte := fun x : Q => round_half_even (255 * x) in
  argb = 16777216 * byte (cw c) + 65536 * byte (cx c) + 256 * byte (cy c)
         + byte (cz c)
  /\ (0 <= byte (cw c) < 256 /\ 0 <= byte (cx c) < 256
      /\ 0 <= byte (cy c) < 256 /\ 0 <= byte (cz c) < 256)
  /\ ((0 <= cx c <= 1)%Q /\ (0 <= cy c <= 1)%Q
      /\ (0 <= cz c <= 1)%Q /\ (0 <= cw c <= 1)%Q)
  /\ (cw c == 1 <-> 4278190080 <= argb)
  /\ (cw c == 0 <-> argb < 16777216).
Proof.
  intros Hr c byte. unfold u32_max in Hr.
  unfold byte, c, ARGBToImVec4. cbn [cx cy cz cw].
  rewrite !channel_is_byte by lia.
  set (a := (argb / 2 ^ 24) mod 256).
  set (r := (argb / 2 ^ 16) mod 256).
  set (g := (argb / 2 ^ 8) mod 256).
  set (b := (argb / 2 ^ 0) mod 256).
  assert (Ha : 0 <= a < 256) by (unfold a; apply Z.mod_pos_bound; lia).
  assert (Hr' : 0 <= r < 256) by (unfold r; apply Z.mod_pos_bound; lia).
  assert (Hg : 0 <= g < 256) by (unfold g; apply Z.mod_pos_bound; lia).
  assert (Hb : 0 <= b < 256) by (unfold b; apply Z.mod_pos_bound; lia).
  assert (Hz : argb = 16777216 * a + 65536 * r + 256 * g + b).
  { unfold a, r, g, b. Z.div_mod_to_equations. lia. }
  destruct (channel_of_byte a Ha) as (Ba & Ea & Za & Oa).
  destruct (channel_of_byte r Hr') as (Br & Er & _).
  destruct (channel_of_byte g Hg) as (Bg & Eg & _).
  destruct (channel_of_byte b Hb) as (Bb & Eb & _).
  cbv zeta in *. rewrite Ea, Er, Eg, Eb.
  split; [exact Hz|]. split; [auto|]. split; [auto|]. split.
  - rewrite Oa. lia.
  - rewrite Za. lia.
Qed.

(** An instance: 0x80402010.  Its components are not exact quotients (the
    first one is 8421505 / 2 ^ 25, not 64 / 255), and the bytes come
    back. *)
Lemma ARGBToImVec4_bytes_witness :
  0 <= 2151686160 <= u32_max
  /\ cx (ARGBToImVec4 2151686160) = 8421505 # 2 ^ 25
  /\ 2151686160
     = 16777216 * round_half_even (255 * cw (ARGBToImVec4 2151686160))
       + 65536 * round_half_even (255 * cx (ARGBToImVec4 2151686160))
       + 256 * round_half_even (255 * cy (ARGBToImVec4 2151686160))
       + round_half_even (255 * cz (ARGBToImVec4 2151686160)).
Proof.
  assert (Hr : 0 <= 2151686160 <= u32_max).
  { unfold u32_max. split; [discriminate|]. intros H. discriminate H. }
  split; [exact Hr|]. split; [reflexivity|].
  exact (proj1 (ARGBToImVec4_bytes 2151686160 Hr)).
Defined.

(** ** The fade window *)

(** X20 ([DrawMessage], fade window): for a message that has been drawn
    before, with a remaining time that fits an [int], the fade lasts
    [clamp(duration, 1, 1000)] ms: the alpha of a draw is 1 as long as the
    remaining time is at least that long; below it the alpha is strictly
    between 0 and 1: it is the [float] nearest to the remaining time divided
    by the fade window, at most [2 ^ -25] away from that quotient. *)
Theorem fade_window (e : Env) (s : State) (st : OSDMessageStack) (v : Visit)
    (tl : Z) (d : DrawRecord) (after : Message) :
  In v (snd (DrawMessages_stack e s st)) ->
  v_outcome v = Survived tl (Some d) after ->
  ever_drawn (v_msg v) = true ->
  0 <= duration (v_msg v) <= u32_max ->
  0 <= now e - timer (v_msg v) < 2 ^ 63 ->
  duration (v_msg v) - (now e - timer (v_msg v)) < 2 ^ 31 ->
  let timeLeft := duration (v_msg v) - (now e - timer (v_msg v)) in
  let fade := Z.max 1 (Z.min 1000 (duration (v_msg v))) in
  0 < timeLeft
  /\ (fade <= timeLeft -> d_alpha d == 1)
  /\ (timeLeft < fade ->
      (0 < d_alpha d < 1)%Q
      /\ d_alpha d == to_float (inject_Z timeLeft / inject_Z fade)
      /\ (Qabs (d_alpha d - inject_Z timeLeft / inject_Z fade)
          <= 1 # 2 ^ 25)%Q).
Proof.
  intros Hin Ho Hed Hd He Hint timeLeft fade.
  destruct (DrawMessages_stack_visits e s st v Hin) as [c Hc].
  rewrite Ho in Hc. symmetry in Hc.
  destruct (visit_outcome_drawn _ _ _ _ _ _ _ Hc) as (Htl & _ & Hdm & _ & Hx).
  rewrite (TimeRemaining_exact _ _ Hd He) in Htl. fold timeLeft in Htl.
  subst tl.
  assert (Hpos : 0 < timeLeft).
  { destruct (Z_lt_le_dec 0 timeLeft) as [?|Hle]; [assumption|].
    assert (expired timeLeft (v_msg v) = true); [|congruence].
    apply expired_iff. split; [exact Hle|]. now left. }
  assert (Ha : d_alpha d
               = std_clamp
                   (to_float
                      (to_float (inject_Z timeLeft)
                       / std_max
                           (std_min MESSAGE_FADE_TIME
                              (to_float (inject_Z (duration (v_msg v)))))
                           1))
                   0 1).
  { replace d with (snd (DrawMessage e (index c) (v_msg v)
                           (mkImVec2 (current_x c) (current_y c))
                           (int_of_s64 timeLeft) st)) by now rewrite Hdm.
    rewrite DrawMessage_alpha, Hed.
    rewrite int_of_s64_small; [reflexivity|]. unfold timeLeft in *. lia. }
  assert (Hf : 1 <= fade <= 1000) by (unfold fade; lia).
  pose proof (fade_time_value (duration (v_msg v)) (proj1 Hd)) as Eft.
  fold fade in Eft.
  destruct (alpha_value timeLeft fade _ Hf Eft) as (A1 & _ & A3).
  rewrite <- Ha in A1, A3.
  split; [exact Hpos|]. split; [exact A1|].
  intros Hlt. destruct (A3 (conj Hpos Hlt)) as (E & B & Err). auto.
Qed.

(** An instance: "Saved" has 300 ms left at clock 1700 and is drawn with
    the float nearest to 3/10, which is 5033165 / 2 ^ 24. *)
Lemma fade_window_witness :
  exists tl d after,
    v_outcome Cases.fading_visit = Survived tl (Some d) after
    /\ d_alpha d == to_float (inject_Z 300 / inject_Z 1000)
    /\ to_float (inject_Z 300 / inject_Z 1000) = 5033165 # 2 ^ 24.
Proof.
  assert (Hin : In Cases.fading_visit
                   (snd (DrawMessages_stack (Scenario.frame true true 1700)
                           Cases.saved_drawn
                           (s_defaultMessageStack Cases.saved_drawn)))).
  { vm_compute. left. reflexivity. }
  assert (Hd : 0 <= duration (v_msg Cases.fading_visit) <= u32_max).
  { vm_compute. split; congruence. }
  assert (He : 0 <= now (Scenario.frame true true 1700)
                    - timer (v_msg Cases.fading_visit) < 2 ^ 63).
  { vm_compute. split; congruence. }
  assert (Hint : duration (v_msg Cases.fading_visit)
                 - (now (Scenario.frame true true 1700)
                    - timer (v_msg Cases.fading_visit)) < 2 ^ 31).
  { vm_compute. congruence. }
  eexists _, _, _.
  refine ((fun Ho =>
             conj Ho
               (conj
                  (proj1 (proj2 (proj2 (proj2 (fade_window _ _ _ _ _ _ _ Hin
                                                 Ho eq_refl Hd He Hint))
                                   _)))
                  eq_refl)) _).
  - vm_compute. reflexivity.
  - vm_compute. reflexivity.
Defined.

(** ** Icons and textures *)

Lemma DrawMessage_texture_ok (e : Env) (i : Z) (m : Message) (p : ImVec2)
    (tl : Z) (st : OSDMessageStack) :
  texture_ok m -> texture_ok (fst (fst (DrawMessage e i m p tl st))).
Proof.
  unfold texture_ok, DrawMessage.
  destruct (begin_visible (backend e (name st) i)); [|now simpl].
  destruct (icon m) as [ic|] eqn:Hi.
  - destruct (texture m) as [t|] eqn:Ht; [now simpl|].
    destruct (create_texture_ok (backend e (name st) i)); simpl; [|trivial].
    intros _. now exists ic.
  - destruct (texture m) as [t|]; simpl; [|trivial].
    intros (ic & Hic & _). discriminate Hic.
Qed.

Section MessageInvariant.

(** A property of messages that [DrawMessage] keeps. *)
Variable P : Message -> Prop.

Hypothesis P_draw :
  forall e i m p tl st, P m -> P (fst (fst (DrawMessage e i m p tl st))).

Lemma draw_loop_Forall (e : Env) (st : OSDMessageStack) (l : multimap) :
  Forall (fun en => P (snd en)) l ->
  forall c, Forall (fun en => P (snd en)) (fst (fst (draw_loop e st l c))).
Proof.
  induction 1 as [|[ty msg] rest Hm _ IH]; intros c; simpl; [constructor|].
  destruct (should_discard msg).
  - specialize (IH c). destruct (draw_loop e st rest c) as [[kept tr] c'].
    exact IH.
  - destruct (expired (TimeRemaining (now e) msg) msg).
    + specialize (IH c). destruct (draw_loop e st rest c) as [[kept tr] c'].
      exact IH.
    + destruct (draw_messages e).
      * pose proof (P_draw e (index c) msg
                      (mkImVec2 (current_x c) (current_y c))
                      (int_of_s64 (TimeRemaining (now e) msg)) st Hm) as Hp.
        destruct (DrawMessage e (index c) msg _ _ st) as [[msg' sz] rec].
        specialize (IH (advance st sz c)).
        destruct (draw_loop e st rest (advance st sz c)) as [[kept tr] c'].
        simpl in *. constructor; assumption.
      * specialize (IH c).
        destruct (draw_loop e st rest c) as [[kept tr] c'].
        simpl in *. constructor; assumption.
Qed.

Lemma DrawMessages_stack_Forall (e : Env) (s : State)
    (st : OSDMessageStack) :
  Forall (fun en => P (snd en)) (messages st) ->
  Forall (fun en => P (snd en)) (messages (fst (DrawMessages_stack e s st))).
Proof.
  intros H. unfold DrawMessages_stack.
  destruct (reversed st).
  - pose proof (draw_loop_Forall e st (rev (messages st)) (Forall_rev H)
                  (start_cursor e s st)) as Hk.
    destruct (draw_loop e st (rev (messages st)) _) as [[kept tr] c'].
    simpl in *. now apply Forall_rev.
  - pose proof (draw_loop_Forall e st (messages st) H
                  (start_cursor e s st)) as Hk.
    destruct (draw_loop e st (messages st) _) as [[kept tr] c'].
    exact Hk.
Qed.

End MessageInvariant.

(** A frame is the pass of each stack. *)
Lemma deref_DrawMessages (e : Env) (s : State) (r : StackRef) :
  deref r (fst (DrawMessages e s)) = fst (DrawMessages_stack e s (deref r s)).
Proof.
  unfold DrawMessages.
  destruct (DrawMessages_stack e s (s_defaultMessageStack s)) as [d' tr]
    eqn:Ed.
  pose proof (fun k => draw_named_find e s (messageStacks s) k) as Hfind.
  destruct (draw_named e s (messageStacks s)) as [m' trs].
  destruct r as [|k].
  - simpl. now rewrite Ed.
  - cbn [deref messageStacks fst]. rewrite Hfind.
    destruct (map_find k (messageStacks s)); cbn [option_map];
      [reflexivity|].
    now rewrite (DrawMessages_stack_empty e s OSDMessageStack_default
                   eq_refl).
Qed.

Lemma StackRef_eq_dec (r r' : StackRef) : {r = r'} + {r <> r'}.
Proof.
  destruct r as [|k], r' as [|k']; try (right; discriminate);
    [now left|].
  destruct (string_dec k k') as [->|Hne]; [now left|].
  right. congruence.
Qed.

Lemma reachable_messages_texture_ok (Typeless : MessageType) (s : State) :
  reachable Typeless s ->
  forall r en, In en (messages (deref r s)) -> texture_ok (snd en).
Proof.
  induction 1 as [|o s Hreach IH]; intros r en Hin.
  - destruct r; simpl in Hin; contradiction.
  - assert (Hadd : forall type message ms argb ic stack pd sc t,
               In en (messages
                        (deref r
                           (AddTypedMessage Typeless type message ms argb ic
                              stack pd sc t s))) ->
               texture_ok (snd en)).
    { intros type message ms argb ic stack pd sc t Hen.
      destruct (StackRef_eq_dec r (resolve stack s)) as [->|Hne].
      - destruct (AddTypedMessage_origin _ _ _ _ _ _ _ _ _ _ _ _ Hen)
          as [->|(en0 & H0 & _ & [Hs|Hs])].
        + exact I.
        + rewrite Hs. exact (IH _ _ H0).
        + rewrite Hs. exact (IH _ _ H0).
      - rewrite (AddTypedMessage_frame Typeless _ _ _ _ _ _ _ _ _ _ _ Hne)
          in Hen.
        exact (IH _ _ Hen). }
    destruct o; simpl in Hin.
    + exact (Hadd _ _ _ _ _ _ _ _ _ Hin).
    + exact (Hadd _ _ _ _ _ _ _ _ _ Hin).
    + destruct r as [|k]; [exact (IH DefaultStack en Hin)|].
      simpl in Hin.
      destruct (String.eqb_spec k name_) as [->|Hne].
      * destruct (map_contains name_ (messageStacks s)) eqn:Hc.
        -- destruct (registry_ok_reachable Typeless s Hreach)
             as (_ & _ & Hk).
           rewrite (map_emplace_present _ _ _ Hk Hc) in Hin.
           exact (IH (NamedStack name_) en Hin).
        -- rewrite (map_find_emplace_new _ _ _ Hc) in Hin. contradiction.
      * rewrite (map_find_emplace_other _ _ _ _ Hne) in Hin.
        exact (IH (NamedStack k) en Hin).
    + rewrite deref_DrawMessages in Hin.
      pose proof (DrawMessages_stack_Forall texture_ok
                    DrawMessage_texture_ok e s (deref r s)) as HF.
      rewrite !Forall_forall in HF. apply HF; [|exact Hin].
      intros en0 H0. exact (IH r en0 H0).
    + destruct r as [|k]; simpl in Hin; [contradiction|].
      rewrite map_find_clear in Hin.
      destruct (map_find k (messageStacks s)); simpl in Hin; contradiction.
    + exact (IH r en Hin).
    + exact (IH r en Hin).
Qed.

(** X21 (textures, all operations): in every reachable state a message
    holds a texture only if it still holds its icon, and the texture has the
    width, the height and the pixels of that icon; a message without icon
    has no texture. *)
Theorem textures_come_from_icons (Typeless : MessageType) (s : State)
    (r : StackRef) (en : MessageType * Message) :
  reachable Typeless s ->
  In en (messages (deref r s)) ->
  (forall t, texture (snd en) = Some t ->
             exists ic, icon (snd en) = Some ic
                        /\ tex_width t = icon_width ic
                        /\ tex_height t = icon_height ic
                        /\ tex_data t = rgba_data ic)
  /\ (icon (snd en) = None -> texture (snd en) = None).
Proof.
  intros Hreach Hin.
  pose proof (reachable_messages_texture_ok Typeless s Hreach r en Hin)
    as Hok.
  unfold texture_ok in Hok. split.
  - intros t Ht. rewrite Ht in Hok. destruct Hok as (ic & Hic & ->).
    exists ic. auto.
  - intros Hi. destruct (texture (snd en)) as [t|]; [|reflexivity].
    destruct Hok as (ic & Hic & _). congruence.
Qed.

(** An instance: the message of [Cases.with_icon] after its first draw. *)
Lemma textures_come_from_icons_witness :
  exists en,
    In en (messages (deref DefaultStack Cases.with_icon))
    /\ forall t, texture (snd en) = Some t ->
                 exists ic, icon (snd en) = Some ic
                            /\ tex_width t = icon_width ic
                            /\ tex_height t = icon_height ic
                            /\ tex_data t = rgba_data ic.
Proof.
  assert (Hreach : reachable Scenario.Typeless Cases.with_icon).
  { exact (reachable_step Scenario.Typeless
             (OpDrawMessages (Scenario.frame true true 0)) _
             (reachable_step Scenario.Typeless
                (OpAddMessage "pic" 3000 0
                   (Some (mkIcon 2 1 [255; 16711680])) "" false 1 0) _
                (reachable_initial Scenario.Typeless))). }
  eexists.
  refine ((fun H => conj H
             (proj1 (textures_come_from_icons Scenario.Typeless
                       Cases.with_icon DefaultStack _ Hreach H))) _).
  vm_compute. left. reflexivity.
Defined.

(** X22 ([DrawMessage], icon and texture): a call makes a texture only for
    a message that has an icon and no texture yet, and only when the window
    is visible; a texture once made is kept, with the icon; when the
    creation fails the icon is dropped, so no later call tries again; an
    image is drawn exactly when the window is visible and the message comes
    out with a texture, and it has the size of the icon.  Text, timer,
    duration, colour, scale and the discard mark are never touched. *)
Theorem DrawMessage_icon_protocol (e : Env) (i : Z) (m : Message)
    (p : ImVec2) (tl : Z) (st : OSDMessageStack) :
  texture_ok m ->
  let reply := backend e (name st) i in
  let res := DrawMessage e i m p tl st in
  let m' := fst (fst res) in
  (forall t, texture m = Some t -> texture m' = Some t /\ icon m' = icon m)
  /\ (icon m = None -> icon m' = None /\ texture m' = None)
  /\ (begin_visible reply = false ->
      icon m' = icon m /\ texture m' = texture m)
  /\ (forall ic, icon m = Some ic -> texture m = None ->
      begin_visible reply = true ->
      if create_texture_ok reply
      then icon m' = Some ic
           /\ texture m'
              = Some (mkTexture (icon_width ic) (icon_height ic)
                                (rgba_data ic))
      else icon m' = None /\ texture m' = None)
  /\ (forall w, d_body (snd res) = Some w ->
      match b_image w with
      | Some size =>
          exists ic, icon m' = Some ic /\ texture m' <> None
                     /\ size = (inject_Z (icon_width ic),
                                inject_Z (icon_height ic))
      | None => texture m' = None
      end)
  /\ text m' = text m /\ timer m' = timer m /\ duration m' = duration m
  /\ color m' = color m /\ scale m' = scale m
  /\ should_discard m' = should_discard m.
Proof.
  intros Hok reply res m'. unfold m', res, DrawMessage, texture_ok in *.
  fold reply.
  destruct (begin_visible reply) eqn:Hv;
    destruct (icon m) as [ic|] eqn:Hi;
    destruct (texture m) as [t|] eqn:Ht;
    try (destruct Hok as (ic0 & Hic & _); discriminate Hic);
    try destruct (create_texture_ok reply) eqn:Hct;
    simpl;
    repeat match goal with |- _ /\ _ => split end;
    intros;
    repeat match goal with
           | H : Some _ = Some _ |- _ => injection H as H; try subst
           | H : Some _ = None |- _ => discriminate H
           | H : None = Some _ |- _ => discriminate H
           | H : true = false |- _ => discriminate H
           | H : false = true |- _ => discriminate H
           end;
    simpl;
    try reflexivity;
    try (split; reflexivity);
    try (eexists; repeat split; try reflexivity; discriminate).
Qed.

(** An instance: a failed creation drops the icon. *)
Lemma DrawMessage_icon_protocol_witness :
  let m := Message_new "pic" 3000 0 (Some (mkIcon 2 1 [255; 16711680])) 1 0 in
  let e := mkEnv true Scenario.io0
                 (fun _ _ => mkReply true false (mkImVec2 100 20)) 0 in
  icon (fst (fst (DrawMessage e 0 m (mkImVec2 10 10) 3000
                    OSDMessageStack_default))) = None
  /\ texture (fst (fst (DrawMessage e 0 m (mkImVec2 10 10) 3000
                          OSDMessageStack_default))) = None.
Proof.
  intros m e.
  destruct (DrawMessage_icon_protocol e 0 m (mkImVec2 10 10) 3000
              OSDMessageStack_default I) as (_ & _ & _ & Hcreate & _).
  exact (Hcreate (mkIcon 2 1 [255; 16711680]) eq_refl eq_refl eq_refl).
Defined.

(** ** Stacks do not interfere *)

Lemma map_contains_keys (k : string) (m1 : stack_map) :
  forall m2, map fst m1 = map fst m2 ->
             map_contains k m1 = map_contains k m2.
Proof.
  induction m1 as [|[k1 v1] t1 IH]; intros [|[k2 v2] t2]; simpl;
    try discriminate; [reflexivity|].
  intros H. injection H as -> Ht. now rewrite (IH t2 Ht).
Qed.

Lemma map_find_agree (k : string) (m1 : stack_map) :
  forall m2,
    map fst m1 = map fst m2 ->
    match map_find k m1 with
    | Some st => st
    | None => OSDMessageStack_default
    end
    = match map_find k m2 with
      | Some st => st
      | None => OSDMessageStack_default
      end ->
    map_find k m1 = map_find k m2.
Proof.
  induction m1 as [|[k1 v1] t1 IH]; intros [|[k2 v2] t2]; simpl;
    try discriminate; [reflexivity|].
  intros H. injection H as -> Ht.
  destruct (String.eqb k k2); [now intros ->|now apply IH].
Qed.

Lemma map_emplace_keys_agree (k : string) (v : OSDMessageStack)
    (m1 : stack_map) :
  forall m2,
    map fst m1 = map fst m2 ->
    map fst (map_emplace k v m1) = map fst (map_emplace k v m2).
Proof.
  induction m1 as [|[k1 v1] t1 IH]; intros [|[k2 v2] t2]; simpl;
    try discriminate; [reflexivity|].
  intros H. injection H as -> Ht.
  destruct (String.compare k k2); simpl; rewrite ?Ht; try reflexivity.
  now rewrite (IH t2 Ht).
Qed.

Lemma map_emplace_find_agree (k k' : string) (v : OSDMessageStack)
    (m1 : stack_map) :
  forall m2,
    map fst m1 = map fst m2 ->
    map_find k' m1 = map_find k' m2 ->
    map_find k' (map_emplace k v m1) = map_find k' (map_emplace k v m2).
Proof.
  induction m1 as [|[k1 v1] t1 IH]; intros [|[k2 v2] t2]; simpl;
    try discriminate; [reflexivity|].
  intros H. injection H as -> Ht.
  destruct (String.compare k k2); simpl.
  - trivial.
  - intros Hf. destruct (String.eqb k' k); [reflexivity|exact Hf].
  - destruct (String.eqb k' k2); [trivial|]. now apply IH.
Qed.

Lemma agree_on_find (k : string) (s1 s2 : State) :
  agree_on (NamedStack k) s1 s2 ->
  map_find k (messageStacks s1) = map_find k (messageStacks s2).
Proof.
  intros [Hk Hd]. now apply map_find_agree.
Qed.

Lemma agree_on_resolve (r : StackRef) (n : string) (s1 s2 : State) :
  agree_on r s1 s2 -> resolve n s1 = resolve n s2.
Proof.
  intros [Hk _]. unfold resolve.
  now rewrite (map_contains_keys n _ _ Hk).
Qed.

Lemma AddTypedMessage_keys (Typeless type : MessageType) (message : string)
    (ms argb : Z) (ic : option Icon) (stack : string) (pd : bool) (sc : Q)
    (t : Z) (s : State) :
  map fst (messageStacks
             (AddTypedMessage Typeless type message ms argb ic stack pd sc
                              t s))
  = map fst (messageStacks s).
Proof.
  unfold AddTypedMessage.
  destruct (pd && HasMessage _ message type); [reflexivity|].
  destruct (resolve stack s); simpl; [reflexivity|apply map_store_keys].
Qed.

Lemma AddTypedMessage_margins (Typeless type : MessageType)
    (message : string) (ms argb : Z) (ic : option Icon) (stack : string)
    (pd : bool) (sc : Q) (t : Z) (s : State) :
  same_margins
    (AddTypedMessage Typeless type message ms argb ic stack pd sc t s) s.
Proof.
  unfold AddTypedMessage, same_margins.
  destruct (pd && HasMessage _ message type); [split; reflexivity|].
  destruct (resolve stack s); split; reflexivity.
Qed.

Lemma AddTypedMessage_agree (Typeless type : MessageType) (message : string)
    (ms argb : Z) (ic : option Icon) (stack : string) (pd : bool) (sc : Q)
    (t : Z) (r : StackRef) (s1 s2 : State) :
  agree_on r s1 s2 ->
  agree_on r
    (AddTypedMessage Typeless type message ms argb ic stack pd sc t s1)
    (AddTypedMessage Typeless type message ms argb ic stack pd sc t s2).
Proof.
  intros Hag. pose proof (agree_on_resolve r stack s1 s2 Hag) as Hres.
  destruct Hag as [Hk Hd]. split.
  - now rewrite !AddTypedMessage_keys.
  - destruct (StackRef_eq_dec r (resolve stack s1)) as [->|Hne].
    + destruct (pd && HasMessage (deref (resolve stack s1) s1) message type)
        eqn:Hsup.
      * unfold AddTypedMessage. rewrite <- Hres, <- Hd, Hsup. exact Hd.
      * pose proof (AddTypedMessage_target Typeless type message ms argb ic
                      stack pd sc t s1) as T1.
        pose proof (AddTypedMessage_target Typeless type message ms argb ic
                      stack pd sc t s2) as T2.
        rewrite <- Hres in T2. cbv zeta in T1, T2.
        rewrite (T1 Hsup), T2; rewrite <- Hd; [reflexivity|exact Hsup].
    + rewrite (AddTypedMessage_frame Typeless type message ms argb ic stack
                 pd sc t s1 r Hne).
      rewrite Hres in Hne.
      now rewrite (AddTypedMessage_frame Typeless type message ms argb ic
                     stack pd sc t s2 r Hne).
Qed.

(** What a pass leaves in a stack does not depend on the state it is run
    in, which only gives the margins. *)
Lemma pass_result_margins (e : Env) (s s' : State) (st : OSDMessageStack) :
  fst (DrawMessages_stack e s st) = fst (DrawMessages_stack e s' st).
Proof.
  unfold DrawMessages_stack.
  destruct (reversed st).
  - pose proof (draw_loop_state_independent e e st (rev (messages st))
                  eq_refl eq_refl (fun _ _ => eq_refl)
                  (start_cursor e s st) (start_cursor e s' st) eq_refl)
      as H.
    destruct (draw_loop e st (rev (messages st)) (start_cursor e s st))
      as [[kept tr] c1].
    destruct (draw_loop e st (rev (messages st)) (start_cursor e s' st))
      as [[kept' tr'] c1'].
    simpl in *. now destruct H as [-> _].
  - pose proof (draw_loop_state_independent e e st (messages st)
                  eq_refl eq_refl (fun _ _ => eq_refl)
                  (start_cursor e s st) (start_cursor e s' st) eq_refl)
      as H.
    destruct (draw_loop e st (messages st) (start_cursor e s st))
      as [[kept tr] c1].
    destruct (draw_loop e st (messages st) (start_cursor e s' st))
      as [[kept' tr'] c1'].
    simpl in *. now destruct H as [-> _].
Qed.

Lemma DrawMessages_keys (e : Env) (s : State) :
  map fst (messageStacks (fst (DrawMessages e s)))
  = map fst (messageStacks s).
Proof.
  pose proof (draw_named_keys e s (messageStacks s)) as [Hk _].
  unfold DrawMessages.
  destruct (DrawMessages_stack e s (s_defaultMessageStack s)) as [d' tr].
  now destruct (draw_named e s (messageStacks s)) as [m' trs].
Qed.

Lemma DrawMessages_margins (e : Env) (s : State) :
  same_margins (fst (DrawMessages e s)) s.
Proof.
  unfold DrawMessages, same_margins.
  destruct (DrawMessages_stack e s (s_defaultMessageStack s)) as [d' tr].
  destruct (draw_named e s (messageStacks s)) as [m' trs].
  split; reflexivity.
Qed.

Lemma deref_ClearMessages (r : StackRef) (s : State) :
  deref r (ClearMessages s) = set_messages [] (deref r s).
Proof.
  destruct r as [|k]; simpl; [reflexivity|].
  rewrite map_find_clear.
  now destruct (map_find k (messageStacks s)).
Qed.

Lemma ClearMessages_keys (s : State) :
  map fst (messageStacks (ClearMessages s)) = map fst (messageStacks s).
Proof.
  simpl. rewrite map_map. now apply map_ext.
Qed.

Lemma run_op_agree (Typeless : MessageType) (o : Op) (r : StackRef)
    (s1 s2 : State) :
  agree_on r s1 s2 ->
  agree_on r (run_op Typeless o s1) (run_op Typeless o s2).
Proof.
  intros Hag. destruct o; simpl.
  - now apply AddTypedMessage_agree.
  - unfold AddMessage. now apply AddTypedMessage_agree.
  - destruct Hag as [Hk Hd]. split; simpl.
    + now apply map_emplace_keys_agree.
    + destruct r as [|k]; simpl in *; [exact Hd|].
      now rewrite (map_emplace_find_agree name_ k _ _ _ Hk
                     (map_find_agree k _ _ Hk Hd)).
  - destruct Hag as [Hk Hd]. split.
    + now rewrite !DrawMessages_keys.
    + rewrite !deref_DrawMessages, Hd. apply pass_result_margins.
  - destruct Hag as [Hk Hd]. split.
    + now rewrite !ClearMessages_keys.
    + now rewrite !deref_ClearMessages, Hd.
  - destruct Hag as [Hk Hd]. split; [exact Hk|].
    destruct r; exact Hd.
  - destruct Hag as [Hk Hd]. split; [exact Hk|].
    destruct r; exact Hd.
Qed.

Lemma run_op_margins (Typeless : MessageType) (o : Op) (s1 s2 : State) :
  same_margins s1 s2 ->
  same_margins (run_op Typeless o s1) (run_op Typeless o s2).
Proof.
  intros [Hl Ht].
  assert (Hadd : forall type message ms argb ic stack pd sc t,
            same_margins
              (AddTypedMessage Typeless type message ms argb ic stack pd sc
                               t s1)
              (AddTypedMessage Typeless type message ms argb ic stack pd sc
                               t s2)).
  { intros.
    destruct (AddTypedMessage_margins Typeless type message ms argb ic
                stack pd sc t s1) as [A1 A2].
    destruct (AddTypedMessage_margins Typeless type message ms argb ic
                stack pd sc t s2) as [B1 B2].
    split; congruence. }
  destruct o; simpl.
  - apply Hadd.
  - apply Hadd.
  - split; assumption.
  - destruct (DrawMessages_margins e s1) as [A1 A2].
    destruct (DrawMessages_margins e s2) as [B1 B2].
    split; congruence.
  - split; assumption.
  - split; [reflexivity|exact Ht].
  - split; [exact Hl|reflexivity].
Qed.

Lemma run_ops_agree (Typeless : MessageType) (ops : list Op) (r : StackRef) :
  forall s1 s2,
    agree_on r s1 s2 ->
    agree_on r (run_ops Typeless ops s1) (run_ops Typeless ops s2).
Proof.
  induction ops as [|o ops IH]; intros s1 s2 Hag; [exact Hag|].
  apply IH. now apply run_op_agree.
Qed.

Lemma run_ops_margins (Typeless : MessageType) (ops : list Op) :
  forall s1 s2,
    same_margins s1 s2 ->
    same_margins (run_ops Typeless ops s1) (run_ops Typeless ops s2).
Proof.
  induction ops as [|o ops IH]; intros s1 s2 Hm; [exact Hm|].
  apply IH. now apply run_op_margins.
Qed.

Lemma start_cursor_margins (e : Env) (s1 s2 : State) (st : OSDMessageStack) :
  same_margins s1 s2 -> start_cursor e s1 st = start_cursor e s2 st.
Proof.
  intros [Hl Ht]. unfold start_cursor. now rewrite Hl, Ht.
Qed.

(** X23 (all operations, isolation of the stacks): what a stack holds after
    any sequence of calls (adding messages, registering stacks, frames,
    clearing, setting margins) is determined by what it held before, by the
    calls and by the set of registered names; what the other stacks hold
    has no influence.  Two states that register the same names and agree on
    one stack still do so after the same calls, whatever their other stacks
    hold; and if they also have the same margins, a frame that follows makes
    the same visits and issues the same draw commands for that stack, and
    the entry of the frame's trace for the default stack is the same. *)
Theorem stacks_do_not_interfere (Typeless : MessageType) (ops : list Op)
    (r : StackRef) (s1 s2 : State) :
  map fst (messageStacks s1) = map fst (messageStacks s2) ->
  deref r s1 = deref r s2 ->
  let s1' := run_ops Typeless ops s1 in
  let s2' := run_ops Typeless ops s2 in
  deref r s1' = deref r s2'
  /\ map fst (messageStacks s1') = map fst (messageStacks s2')
  /\ (same_margins s1 s2 ->
      forall e : Env,
        snd (DrawMessages_stack e s1' (deref r s1'))
        = snd (DrawMessages_stack e s2' (deref r s2'))
        /\ (r = DefaultStack ->
            hd_error (snd (DrawMessages e s1'))
            = hd_error (snd (DrawMessages e s2')))).
Proof.
  intros Hk Hd s1' s2'.
  destruct (run_ops_agree Typeless ops r s1 s2 (conj Hk Hd)) as [Hk' Hd'].
  fold s1' s2' in Hk', Hd'.
  split; [exact Hd'|]. split; [exact Hk'|].
  intros Hm e.
  pose proof (run_ops_margins Typeless ops s1 s2 Hm) as Hm'.
  fold s1' s2' in Hm'.
  assert (Htr : snd (DrawMessages_stack e s1' (deref r s1'))
                = snd (DrawMessages_stack e s2' (deref r s2'))).
  { rewrite Hd'. unfold DrawMessages_stack.
    now rewrite (start_cursor_margins e s1' s2' _ Hm'). }
  split; [exact Htr|].
  intros ->. rewrite !DrawMessages_trace.
  cbn [deref] in Hd', Htr. cbn [hd_error]. now rewrite Htr, Hd'.
Qed.

(** An instance: the default stack of two states that differ in the
    registered stack "top", after a message for each stack, a frame and a
    change of margin. *)
Lemma stacks_do_not_interfere_witness :
  deref (NamedStack "top") Cases.two_stacks
  <> deref (NamedStack "top")
           (AddMessageStack 0 0 Downward false true "top"
              (AddMessageStack 9 9 Rightward true true "side"
                 initial_state))
  /\ deref DefaultStack
           (run_ops Scenario.Typeless
              [OpAddMessage "a" 3000 0 None "" false 1 5;
               OpAddMessage "b" 3000 0 None "top" false 1 6;
               OpDrawMessages (Scenario.frame true true 10);
               OpSetObscuredPixelsTop 40]
              Cases.two_stacks)
     = deref DefaultStack
             (run_ops Scenario.Typeless
                [OpAddMessage "a" 3000 0 None "" false 1 5;
                 OpAddMessage "b" 3000 0 None "top" false 1 6;
                 OpDrawMessages (Scenario.frame true true 10);
                 OpSetObscuredPixelsTop 40]
                (AddMessageStack 0 0 Downward false true "top"
                   (AddMessageStack 9 9 Rightward true true "side"
                      initial_state))).
Proof.
  split; [intros H; discriminate H|].
  exact (proj1 (stacks_do_not_interfere Scenario.Typeless _ DefaultStack
                  Cases.two_stacks
                  (AddMessageStack 0 0 Downward false true "top"
                     (AddMessageStack 9 9 Rightward true true "side"
                        initial_state))
                  eq_refl eq_refl)).
Defined.
